(** * Provisioning tool servers: retry engine, secret vault, readiness
    poller and tool dispatch

    A shallow embedding of the TypeScript sources

      - [mcp-servers/shared/retry.ts]          (module [Retry])
      - [mcp-servers/shared/secret-vault.ts]   (modules [Vault], [Cbc])
      - [mcp-servers/supabase/index.ts]        (modules [Poller], [Dispatch],
                                                [Handlers])
      - the GitHub MCP server                  (module [Dispatch])
      - the Netlify MCP server                 (module [Handlers])

    followed by the properties proved about them.  JavaScript numbers that
    are used as integers (attempt counters, milliseconds, HTTP statuses) are
    modelled by [Z]; strings by [string]; buffers by [list byte].  Everything
    the code obtains from outside the process (the outcome of an awaited
    operation, random bytes, the clock, the vendor API) is an explicit input
    of the model. *)

From Stdlib Require Import ZArith NArith List String Ascii Bool Lia.
From Stdlib Require Import Strings.Byte.
From Stdlib Require Import DecimalString.
Import ListNotations.

Local Open Scope string_scope.
Local Open Scope list_scope.

(* ====================================================================== *)
(** * Part I: the model                                                    *)
(* ====================================================================== *)

(** ** retry.ts *)

Module Retry.

(** What reading [err.status] or [err.statusCode] gives: [undefined], an
    integer, or any other value (a string, a boolean, [null], a fraction,
    [NaN], an object), of which the loop can only tell whether it is
    truthy: [retryOn] holds integers, and [includes] compares without
    conversion. *)
Inductive js_field :=
| Undefined
| Integer (n : Z)
| NotInteger (truthy : bool).

(** What [withRetry] reads off a caught value [err] other than [null] and
    [undefined]: its [status] and [statusCode] properties and, for the
    caller, its [message]. *)
Record js_error := {
  message : string;
  status : js_field;
  statusCode : js_field
}.

(** [new RetryableError(message, status)], with [status?: number]: the
    instance has no [statusCode]. *)
Definition RetryableError (msg : string) (st : option Z) : js_error :=
  {| message := msg;
     status := match st with Some n => Integer n | None => Undefined end;
     statusCode := Undefined |}.

(** An awaited promise: it resolves with a value, or rejects with a value
    whose properties can be read. *)
Inductive outcome (T : Type) :=
| Resolved (value : T)
| Rejected (err : js_error).
Arguments Resolved {T} value.
Arguments Rejected {T} err.

Inductive nullish := Null | Undef.

(** One awaited call of [fn()]: an [outcome], or a rejection with [null]
    or [undefined], of which no property can be read. *)
Inductive attempted (T : Type) :=
| Settled (out : outcome T)
| RejectedNullish (u : nullish).
Arguments Settled {T} out.
Arguments RejectedNullish {T} u.

Coercion Settled : outcome >-> attempted.

(** The [TypeError] raised by reading [property] off [null] or
    [undefined]. *)
Definition cannot_read (u : nullish) (property : string) : js_error :=
  {| message :=
       "Cannot read properties of "
       ++ match u with Null => "null" | Undef => "undefined" end
       ++ " (reading '" ++ property ++ "')";
     status := Undefined;
     statusCode := Undefined |}.

(** The [options] argument; an absent field takes its default.  [label]
    only names the call in the line logged before a retry and is left
    out, as is the log. *)
Record options := {
  opt_maxRetries : option Z;
  opt_initialDelayMs : option Z;
  opt_retryOn : option (list Z)
}.

Definition no_options : options :=
  {| opt_maxRetries := None; opt_initialDelayMs := None; opt_retryOn := None |}.

Definition maxRetries (o : options) : Z :=
  match opt_maxRetries o with Some n => n | None => 3%Z end.
Definition initialDelayMs (o : options) : Z :=
  match opt_initialDelayMs o with Some n => n | None => 1000%Z end.
Definition retryOn (o : options) : list Z :=
  match opt_retryOn o with
  | Some l => l
  | None => [429; 502; 503; 504]%Z
  end.

(** JavaScript truthiness: [undefined] and [0] are falsy. *)
Definition truthy (v : js_field) : bool :=
  match v with
  | Undefined => false
  | Integer n => negb (n =? 0)%Z
  | NotInteger b => b
  end.

(** [a || b] *)
Definition js_or (a b : js_field) : js_field :=
  if truthy a then a else b.

(** [retryOn.includes(status)] *)
Definition includes (l : list Z) (v : js_field) : bool :=
  match v with
  | Integer n => existsb (Z.eqb n) l
  | Undefined | NotInteger _ => false
  end.

(** [const status = err.status || err.statusCode] *)
Definition status_of (err : js_error) : js_field :=
  js_or (status err) (statusCode err).

(** [!status || retryOn.includes(status)] *)
Definition retryable (o : options) (err : js_error) : bool :=
  negb (truthy (status_of err)) || includes (retryOn o) (status_of err).

(** What one call of [withRetry] did: the value it returned or the error it
    threw, how many times it called [fn], and the delays it slept, oldest
    first. *)
Record run (T : Type) := {
  result : outcome T;
  calls : nat;
  delays : list Z
}.
Arguments result {T} r.
Arguments calls {T} r.
Arguments delays {T} r.

Definition called {T} (r : run T) : run T :=
  {| result := result r; calls := S (calls r); delays := delays r |}.

Definition slept {T} (d : Z) (r : run T) : run T :=
  {| result := result r; calls := calls r; delays := d :: delays r |}.

Section WithRetry.
Context {T : Type}.
(** [fn i] is what the call of [fn] made by attempt [i] does. *)
Variable fn : nat -> attempted T.
Variable o : options.

(** The [for] loop from [attempt] on; [rounds] counts the values of
    [attempt] that still satisfy [attempt <= maxRetries].  When none is
    left the loop ends and [lastError] is thrown.  A rejection with
    [null] or [undefined] makes [err.status] throw inside the [catch]
    block, and that [TypeError] leaves [withRetry]. *)
Fixpoint attempts (rounds : nat) (attempt : Z) (lastError : js_error)
  : run T :=
  match rounds with
  | O => {| result := Rejected lastError; calls := 0; delays := [] |}
  | S rounds' =>
      match fn (Z.to_nat attempt) with
      | Settled (Resolved v) =>
          {| result := Resolved v; calls := 1; delays := [] |}
      | Settled (Rejected err) =>
          if (attempt <? maxRetries o)%Z && retryable o err then
            let delay := (initialDelayMs o * 2 ^ attempt)%Z in
            called (slept delay (attempts rounds' (attempt + 1)%Z err))
          else
            {| result := Rejected err; calls := 1; delays := [] |}
      | RejectedNullish u =>
          {| result := Rejected (cannot_read u "status");
             calls := 1; delays := [] |}
      end
  end.

Definition withRetry : run T :=
  attempts (Z.to_nat (maxRetries o + 1)) 0%Z
    {| message := "No attempts made"; status := Undefined;
       statusCode := Undefined |}.

End WithRetry.

(** *** Vocabulary for the properties *)

(** A falsy value: [undefined], [0], or one of the other falsy values
    ([null], [false], the empty string, [NaN]). *)
Definition falsy (v : js_field) : Prop :=
  v = Undefined \/ v = Integer 0%Z \/ v = NotInteger false.

(** The status test of the loop sees no status: [err.status] and
    [err.statusCode] are each absent or falsy. *)
Definition no_status (e : js_error) : Prop :=
  falsy (status e) /\ falsy (statusCode e).

(** The loop reads the status [n] off the error: a non-zero [err.status],
    or else a non-zero [err.statusCode]. *)
Definition has_status (e : js_error) (n : Z) : Prop :=
  status_of e = Integer n /\ n <> 0%Z.

(** The loop reads off the error a truthy status that is not an integer,
    which [retryOn] cannot include. *)
Definition odd_status (e : js_error) : Prop :=
  status_of e = NotInteger true.

(** What [withRetry] returns or throws when the call that ends the run
    did [a]. *)
Definition ended {T} (a : attempted T) : outcome T :=
  match a with
  | Settled out => out
  | RejectedNullish u => Rejected (cannot_read u "status")
  end.

(** After attempt [i] has failed with [e] the loop goes on to attempt
    [i + 1]. *)
Definition goes_on (o : options) (i : nat) (e : js_error) : Prop :=
  (Z.of_nat i < maxRetries o)%Z /\ retryable o e = true.

(** The shape of a run [r] whose first attempt is attempt [a]: attempts
    [a .. a + calls r - 1] were made, each but the last failed and was
    retried after its delay, and the last decided the result. *)
Record shape {T : Type} (fn : nat -> attempted T) (o : options) (a : nat)
  (r : run T) : Prop := {
  shape_calls : 1 <= calls r;
  shape_delays : List.length (delays r) = calls r - 1;
  shape_retried : forall j, j < calls r - 1 ->
    exists e, fn (a + j) = Rejected e /\ goes_on o (a + j) e /\
      nth_error (delays r) j
      = Some (initialDelayMs o * 2 ^ Z.of_nat (a + j))%Z;
  shape_result : result r = ended (fn (a + (calls r - 1)));
  shape_last : forall e, fn (a + (calls r - 1)) = Rejected e ->
    ~ goes_on o (a + (calls r - 1)) e
}.

(** *** [fetchWithRetrySupport] *)

(** What [json.message] or [json.error] reads as, [json] being
    [JSON.parse(body)], as far as [||] and the constructor of the error
    look: a falsy value (also when [json] has no such property), or a
    truthy one, with the string [String(value)] the constructor makes of
    it (the value itself when it is a string, "42" for the number 42). *)
Inductive json_read :=
| Falsy
| Truthy (text : string).

(** A [Response] as the code reads it, [B] being the type it casts the
    parsed body to: its [status]; what [await response.text()] gives; what
    [json.message] and [json.error] read as (both [Falsy] when the body
    does not parse or parses to [null]: the [catch] then takes the body);
    and what [await response.json()] gives. *)
Record response (B : Type) := {
  resp_status : Z;
  resp_text : outcome string;
  json_message : json_read;
  json_error : json_read;
  resp_json : outcome B
}.
Arguments resp_status {B} r.
Arguments resp_text {B} r.
Arguments json_message {B} r.
Arguments json_error {B} r.
Arguments resp_json {B} r.

(** [response.ok]: the status is in the range 200-299. *)
Definition ok {B} (r : response B) : bool :=
  (200 <=? resp_status r)%Z && (resp_status r <=? 299)%Z.

(** What one call of [fetch] does: it rejects, or resolves with a
    response. *)
Inductive fetched (B : Type) :=
| FetchRejects (err : js_error)
| FetchResponds (r : response B).
Arguments FetchRejects {B} err.
Arguments FetchResponds {B} r.

(** [json.message || json.error || body], and [body] when the parse
    throws. *)
Definition error_text {B} (r : response B) (body : string) : string :=
  match json_message r with
  | Truthy m => m
  | Falsy =>
      match json_error r with
      | Truthy m => m
      | Falsy => body
      end
  end.

(** [fetchWithRetrySupport(url, options)], given what [fetch] does. *)
Definition fetchWithRetrySupport {B} (f : fetched B)
  : outcome (response B) :=
  match f with
  | FetchRejects err => Rejected err
  | FetchResponds r =>
      if ok r then Resolved r
      else
        match resp_text r with
        | Rejected err => Rejected err
        | Resolved body =>
            Rejected (RetryableError (error_text r body)
                        (Some (resp_status r)))
        end
  end.

(** The sum of the delays a run handed to [setTimeout]. *)
Definition total_delay {T} (r : run T) : Z :=
  fold_right Z.add 0%Z (delays r).

(** The body [{"message":42}] of a response. *)
Definition not_found_body : string :=
  String.concat (String (ascii_of_nat 34) "") ["{"; "message"; ":42}"].

(** The delays before attempts [1 .. n], oldest first. *)
Definition backoff (o : options) (n : nat) : list Z :=
  List.map (fun j => (initialDelayMs o * 2 ^ Z.of_nat j)%Z) (seq 0 n).

End Retry.

(** ** secret-vault.ts *)

Module Vault.

(** *** Hex encoding of buffers *)

(** The digit [buf.toString('hex')] writes for a nibble. *)
Definition hex_digit (n : N) : ascii :=
  match n with
  | 0%N => "0" | 1%N => "1" | 2%N => "2" | 3%N => "3"
  | 4%N => "4" | 5%N => "5" | 6%N => "6" | 7%N => "7"
  | 8%N => "8" | 9%N => "9" | 10%N => "a" | 11%N => "b"
  | 12%N => "c" | 13%N => "d" | 14%N => "e" | _ => "f"
  end%char.

(** The value [Buffer.from(s, 'hex')] reads off a digit, in either case. *)
Definition hex_value (c : ascii) : option N :=
  let n := N_of_ascii c in
  if (48 <=? n)%N && (n <=? 57)%N then Some (n - 48)%N
  else if (97 <=? n)%N && (n <=? 102)%N then Some (n - 87)%N
  else if (65 <=? n)%N && (n <=? 70)%N then Some (n - 55)%N
  else None.

Definition byte_to_hex (b : byte) : string :=
  let n := Byte.to_N b in
  String (hex_digit (n / 16)) (String (hex_digit (n mod 16)) "").

(** [buf.toString('hex')] *)
Fixpoint to_hex (bs : list byte) : string :=
  match bs with
  | [] => ""
  | b :: rest => byte_to_hex b ++ to_hex rest
  end.

(** [Buffer.from(s, 'hex')]: pairs of digits, cut at the first pair that
    is not one. *)
Fixpoint from_hex (s : string) : list byte :=
  match s with
  | String c1 (String c2 rest) =>
      match hex_value c1, hex_value c2 with
      | Some h, Some l =>
          match Byte.of_N (h * 16 + l) with
          | Some b => b :: from_hex rest
          | None => []
          end
      | _, _ => []
      end
  | _ => []
  end.

(** *** Strings *)

Definition colon : ascii := ":"%char.

(** [s.split(':')] *)
Fixpoint split_colon (s : string) : list string :=
  match s with
  | "" => [""]
  | String c rest =>
      if Ascii.eqb c colon then "" :: split_colon rest
      else match split_colon rest with
           | [] => [String c ""]
           | piece :: pieces => String c piece :: pieces
           end
  end.

(** The class [\w] of the regular expression: [[A-Za-z0-9_]]. *)
Definition word_char (c : ascii) : bool :=
  let n := N_of_ascii c in
  ((48 <=? n) && (n <=? 57) || (65 <=? n) && (n <=? 90)
   || (97 <=? n) && (n <=? 122) || (n =? 95))%N.

(** The longest run of [\w] characters [s] starts with, and what follows. *)
Fixpoint take_word (s : string) : string * string :=
  match s with
  | String c rest =>
      if word_char c then
        let (w, tail) := take_word rest in (String c w, tail)
      else ("", s)
  | "" => ("", "")
  end.

(** [s] without the prefix [p], when it starts with it. *)
Fixpoint strip_prefix (p s : string) : option string :=
  match p with
  | "" => Some s
  | String a p' =>
      match s with
      | String b s' => if Ascii.eqb a b then strip_prefix p' s' else None
      | "" => None
      end
  end.

(** [/\{\{secrets\.(\w+)\}\}/] tried at the first character of [s]: the
    text its group captures. *)
Definition match_here (s : string) : option string :=
  match strip_prefix "{{secrets." s with
  | Some rest =>
      let (name, tail) := take_word rest in
      match name, strip_prefix "}}" tail with
      | String _ _, Some _ => Some name
      | _, _ => None
      end
  | None => None
  end.

(** [reference.match(/\{\{secrets\.(\w+)\}\}/)]: [match[1]] of the
    leftmost match, [None] for [null]. *)
Fixpoint find_placeholder (s : string) : option string :=
  match match_here s with
  | Some name => Some name
  | None =>
      match s with
      | String _ rest => find_placeholder rest
      | "" => None
      end
  end.

(** *** [Map<string, string>]: keys in insertion order *)

Definition js_map := list (string * string).

Fixpoint map_get (k : string) (m : js_map) : option string :=
  match m with
  | [] => None
  | (k', v) :: rest => if String.eqb k k' then Some v else map_get k rest
  end.

Fixpoint map_set (k v : string) (m : js_map) : js_map :=
  match m with
  | [] => [(k, v)]
  | (k', v') :: rest =>
      if String.eqb k k' then (k, v) :: rest
      else (k', v') :: map_set k v rest
  end.

Definition map_has (k : string) (m : js_map) : bool :=
  match map_get k m with Some _ => true | None => false end.

Fixpoint map_remove (k : string) (m : js_map) : js_map :=
  match m with
  | [] => []
  | (k', v) :: rest =>
      if String.eqb k k' then rest else (k', v) :: map_remove k rest
  end.

Definition map_keys (m : js_map) : list string := map fst m.

(** *** The vault *)

Record vault := {
  secrets : js_map;
  encryptionKey : list byte;
  isDestroyed : bool
}.

(** [new SecretVault()], [key] being the 32 bytes [crypto.randomBytes]
    returned. *)
Definition new_vault (key : list byte) : vault :=
  {| secrets := []; encryptionKey := key; isDestroyed := false |}.

(** The errors the methods throw, and those of [crypto] that pass through. *)
Inductive error :=
| VaultDestroyedError        (* Error('Vault has been destroyed') *)
| SecretNotFoundError (name : string)
                             (* Error(`Secret '${name}' not found in vault`) *)
| MalformedEntry             (* crypto, given a stored entry with no colon *)
| DecryptError.              (* thrown by the decipher *)

(** The [message] of the errors the vault constructs itself. *)
Definition error_message (e : error) : option string :=
  match e with
  | VaultDestroyedError => Some "Vault has been destroyed"
  | SecretNotFoundError name =>
      Some ("Secret '" ++ name ++ "' not found in vault")%string
  | MalformedEntry | DecryptError => None
  end.

Inductive result (A : Type) :=
| Ok (a : A)
| Throw (e : error).
Arguments Ok {A} a.
Arguments Throw {A} e.

(** A method: from the vault before the call to what the call returns or
    throws and the vault after it. *)
Definition M (A : Type) : Type := vault -> result A * vault.

Definition ret {A} (a : A) : M A := fun vt => (Ok a, vt).
Definition throw {A} (e : error) : M A := fun vt => (Throw e, vt).
Definition bind {A B} (c : M A) (k : A -> M B) : M B :=
  fun vt =>
    match c vt with
    | (Ok a, vt') => k a vt'
    | (Throw e, vt') => (Throw e, vt')
    end.
Definition this : M vault := fun vt => (Ok vt, vt).
Definition update (f : vault -> vault) : M unit := fun vt => (Ok tt, f vt).

Notation "x <- c ;; k" := (bind c (fun x => k))
  (at level 61, c at next level, right associativity).
Notation "c ;;; k" := (bind c (fun _ => k))
  (at level 61, right associativity).

(** [if (this.isDestroyed) throw new Error('Vault has been destroyed')] *)
Definition guard_destroyed : M unit :=
  vt <- this ;;
  if isDestroyed vt then throw VaultDestroyedError else ret tt.

Definition with_secrets (f : js_map -> js_map) (vt : vault) : vault :=
  {| secrets := f (secrets vt);
     encryptionKey := encryptionKey vt;
     isDestroyed := isDestroyed vt |}.

Section Methods.

(** AES-256-CBC of Node's [crypto], which is not part of the repository:
    [encrypt key iv value] is
    [cipher.update(value, 'utf8', 'hex') + cipher.final('hex')] and
    [decrypt key iv hex] is
    [decipher.update(hex, 'hex', 'utf8') + decipher.final('utf8')],
    [None] when the decipher throws. *)
Variable encrypt : list byte -> list byte -> string -> string.
Variable decrypt : list byte -> list byte -> string -> option string.

(** [store(key, value)], [iv] being the 16 bytes [crypto.randomBytes]
    returns to this call. *)
Definition store (key value : string) (iv : list byte) : M unit :=
  guard_destroyed ;;;
  vt <- this ;;
  let encrypted := encrypt (encryptionKey vt) iv value in
  update (with_secrets (map_set key (to_hex iv ++ ":" ++ encrypted))).

(** [retrieve(key)]; [None] is [null]. *)
Definition retrieve (key : string) : M (option string) :=
  guard_destroyed ;;;
  vt <- this ;;
  match map_get key (secrets vt) with
  | None | Some "" => ret None
  | Some stored =>
      match split_colon stored with
      | ivHex :: encrypted :: _ =>
          let iv := from_hex ivHex in
          match decrypt (encryptionKey vt) iv encrypted with
          | Some decrypted => ret (Some decrypted)
          | None => throw DecryptError
          end
      | _ => throw MalformedEntry
      end
  end.

(** [resolve(reference)] *)
Definition resolve (reference : string) : M string :=
  guard_destroyed ;;;
  match find_placeholder reference with
  | None => ret reference
  | Some name =>
      value <- retrieve name ;;
      match value with
      | None | Some "" => throw (SecretNotFoundError name)
      | Some v => ret v
      end
  end.

(** [listKeys()] *)
Definition listKeys : M (list string) :=
  guard_destroyed ;;;
  vt <- this ;;
  ret (map_keys (secrets vt)).

(** [has(key)] *)
Definition has (key : string) : M bool :=
  vt <- this ;;
  ret (map_has key (secrets vt)).

(** [delete(key)] *)
Definition delete (key : string) : M bool :=
  vt <- this ;;
  update (with_secrets (map_remove key)) ;;;
  ret (map_has key (secrets vt)).

(** [destroy()] *)
Definition destroy : M unit :=
  update (fun vt =>
    {| secrets := [];
       encryptionKey := List.map (fun _ => x00) (encryptionKey vt);
       isDestroyed := true |}).

(** [getStatus()] *)
Record vault_status := {
  secretCount : nat;
  status_isDestroyed : bool
}.

Definition getStatus : M vault_status :=
  vt <- this ;;
  ret {| secretCount := List.length (secrets vt);
         status_isDestroyed := isDestroyed vt |}.

(** *** Sequences of calls *)

Inductive call :=
| CallStore (key value : string) (iv : list byte)
| CallRetrieve (key : string)
| CallResolve (reference : string)
| CallListKeys
| CallHas (key : string)
| CallDelete (key : string)
| CallDestroy
| CallGetStatus.

Inductive returned :=
| RetVoid
| RetString (s : string)
| RetNullable (s : option string)
| RetKeys (ks : list string)
| RetBool (b : bool)
| RetStatus (st : vault_status).

Definition perform (c : call) : M returned :=
  match c with
  | CallStore k v iv => store k v iv ;;; ret RetVoid
  | CallRetrieve k => r <- retrieve k ;; ret (RetNullable r)
  | CallResolve s => r <- resolve s ;; ret (RetString r)
  | CallListKeys => r <- listKeys ;; ret (RetKeys r)
  | CallHas k => r <- has k ;; ret (RetBool r)
  | CallDelete k => r <- delete k ;; ret (RetBool r)
  | CallDestroy => destroy ;;; ret RetVoid
  | CallGetStatus => r <- getStatus ;; ret (RetStatus r)
  end.

(** The vault after the calls [cs], made one after the other by a caller
    that goes on after a call that throws. *)
Definition after (cs : list call) (vt : vault) : vault :=
  fold_left (fun v c => snd (perform c v)) cs vt.

End Methods.

(** *** Vocabulary for the properties *)

(** The call neither stores under [k], deletes [k] nor destroys the
    vault. *)
Definition untouched (k : string) (c : call) : bool :=
  match c with
  | CallStore k' _ _ | CallDelete k' => negb (String.eqb k k')
  | CallDestroy => false
  | _ => true
  end.

(** The call stores under [k]. *)
Definition stores (k : string) (c : call) : bool :=
  match c with
  | CallStore k' _ _ => String.eqb k k'
  | _ => false
  end.

(** A destroyed vault: the flag set, no secret, a key of zero bytes. *)
Definition dead (vt : vault) : Prop :=
  isDestroyed vt = true /\ secrets vt = [] /\
  encryptionKey vt = List.map (fun _ => x00) (encryptionKey vt).

(** Whether a call failed. *)
Definition fails {A} (r : result A * vault) : bool :=
  match fst r with Throw _ => true | Ok _ => false end.

(** Every character of [s] is a hexadecimal digit. *)
Fixpoint all_hex (s : string) : bool :=
  match s with
  | "" => true
  | String c rest =>
      match hex_value c with Some _ => all_hex rest | None => false end
  end.

(** Every character of [s] is in [\w]. *)
Fixpoint all_word (s : string) : bool :=
  match s with
  | "" => true
  | String c rest => word_char c && all_word rest
  end.

(** [s] contains a placeholder: [{{secrets.<name>}}] with a name made of
    one or more [\w] characters. *)
Definition has_placeholder (s : string) : Prop :=
  exists pre name post,
    s = (pre ++ "{{secrets." ++ name ++ "}}" ++ post)%string /\
    name <> "" /\ all_word name = true.

(** [name] is the name of the leftmost placeholder of [s]: a placeholder
    with that name starts after the prefix [pre], and no placeholder
    starts earlier. *)
Definition leftmost_placeholder (s name : string) : Prop :=
  exists pre post,
    s = (pre ++ "{{secrets." ++ name ++ "}}" ++ post)%string /\
    name <> "" /\ all_word name = true /\
    forall pre' name' post',
      s = (pre' ++ "{{secrets." ++ name' ++ "}}" ++ post')%string ->
      name' <> "" -> all_word name' = true ->
      String.length pre <= String.length pre'.

(** *** [generatePassword] and [maskSecret] *)

Definition charset : string :=
  "abcdefghijklmnopqrstuvwxyzABCDEFGHIJKLMNOPQRSTUVWXYZ0123456789!@#$%^&*".

(** [charset[b % charset.length]] as [password += ...] appends it: the
    word "undefined" were the index past the end. *)
Definition pick (b : byte) : string :=
  match String.get (Byte.to_nat b mod String.length charset) charset with
  | Some c => String c ""
  | None => "undefined"
  end.

(** [charset[random[i] % charset.length]] as [password += ...] appends
    it: past the end of [random] the index is [NaN], and the word
    "undefined" is appended. *)
Definition pick_at (random : list byte) (i : nat) : string :=
  match nth_error random i with
  | Some b => pick b
  | None => "undefined"
  end.

(** The [for] loop from [i] on, [rounds] being the number of values of
    [i] that are still less than [length]. *)
Fixpoint password_from (random : list byte) (rounds i : nat) : string :=
  match rounds with
  | O => ""
  | S rounds' => pick_at random i ++ password_from random rounds' (S i)
  end.

(** [generatePassword(length = 32)], [randomBytes n] being what
    [crypto.randomBytes(n)] does: the buffer it returns, or [None] when
    it throws. *)
Definition generatePassword (randomBytes : Z -> option (list byte))
  (length : option Z) : option string :=
  let length := match length with Some n => n | None => 32%Z end in
  match randomBytes length with
  | Some random => Some (password_from random (Z.to_nat length) 0)
  | None => None
  end.

Definition in_charset (c : ascii) : bool :=
  existsb (Ascii.eqb c) (list_ascii_of_string charset).

(** The 256 values a random byte takes. *)
Definition all_bytes : list byte :=
  List.map (fun n => match Byte.of_nat n with
                     | Some b => b
                     | None => Byte.x00
                     end) (seq 0 256).

(** How many of them make [generatePassword] append the character [c]. *)
Definition picks (c : ascii) : nat :=
  List.length
    (filter (fun b => String.eqb (pick b) (String c "")) all_bytes).

(** ['*'.repeat(n)] *)
Fixpoint stars (n : nat) : string :=
  match n with
  | O => ""
  | S n' => String "*" (stars n')
  end.

(** [s.slice(0, stop)]: a negative [stop] counts from the end. *)
Definition slice_to (s : string) (stop : Z) : string :=
  let len := Z.of_nat (String.length s) in
  let last := if (stop <? 0)%Z then Z.max (len + stop) 0
              else Z.min stop len in
  substring 0 (Z.to_nat last) s.

(** [maskSecret(value, visibleChars = 4)] *)
Definition maskSecret (value : string) (visibleChars : option Z) : string :=
  let visible := match visibleChars with Some n => n | None => 4%Z end in
  let len := Z.of_nat (String.length value) in
  if (len <=? visible)%Z then stars (String.length value)
  else (slice_to value visible ++ stars (Z.to_nat (len - visible)))%string.

(** *** The vault without its cipher *)

(** A plain [Map] of the values and the destroyed flag: what the vault
    is to its callers. *)
Record plain := {
  entries : js_map;
  gone : bool
}.

Definition plain_new : plain := {| entries := []; gone := false |}.

Definition plain_step (c : call) (p : plain) : plain :=
  match c with
  | CallStore k v _ =>
      if gone p then p
      else {| entries := map_set k v (entries p); gone := false |}
  | CallDelete k =>
      {| entries := map_remove k (entries p); gone := gone p |}
  | CallDestroy => {| entries := []; gone := true |}
  | _ => p
  end.

Definition plain_after (cs : list call) (p : plain) : plain :=
  fold_left (fun q c => plain_step c q) cs p.

(** Every [store] among the calls drew a vector of 16 bytes. *)
Definition vectors_ok (cs : list call) : bool :=
  forallb (fun c => match c with
                    | CallStore _ _ iv => Nat.eqb (List.length iv) 16
                    | _ => true
                    end) cs.

(** An entry of the vault holds the value of an entry of the plain map,
    encrypted under [key] and some vector of 16 bytes. *)
Definition sealed (encrypt : list byte -> list byte -> string -> string)
  (key : list byte) (se pe : string * string) : Prop :=
  fst se = fst pe /\
  exists iv, List.length iv = 16 /\
    snd se = (to_hex iv ++ ":" ++ encrypt key iv (snd pe))%string.

(** The vault [vt] holds what the plain map [p] holds. *)
Definition mirrors (encrypt : list byte -> list byte -> string -> string)
  (key : list byte) (vt : vault) (p : plain) : Prop :=
  isDestroyed vt = gone p /\
  (gone p = false -> encryptionKey vt = key) /\
  Forall2 (sealed encrypt key) (secrets vt) (entries p).

End Vault.

(** A stand-in for AES-256-CBC, to run the vault on concrete inputs: every
    byte of the plaintext is xor-ed with one byte drawn from the key and
    the vector, and the outcome written in hex. *)

Module XorCipher.
Import Vault.

Definition xor_ascii (a b : ascii) : ascii :=
  match a, b with
  | Ascii a0 a1 a2 a3 a4 a5 a6 a7, Ascii b0 b1 b2 b3 b4 b5 b6 b7 =>
      Ascii (xorb a0 b0) (xorb a1 b1) (xorb a2 b2) (xorb a3 b3)
            (xorb a4 b4) (xorb a5 b5) (xorb a6 b6) (xorb a7 b7)
  end.

Definition pad (key iv : list byte) : ascii :=
  fold_right (fun b acc => xor_ascii (ascii_of_byte b) acc) zero
    (key ++ iv).

Definition encrypt (key iv : list byte) (value : string) : string :=
  to_hex (List.map (fun c => byte_of_ascii (xor_ascii (pad key iv) c))
            (list_ascii_of_string value)).

Definition decrypt (key iv : list byte) (hex : string) : option string :=
  Some (string_of_list_ascii
          (List.map (fun b => xor_ascii (pad key iv) (ascii_of_byte b))
             (from_hex hex))).

(** Sixteen and thirty-two bytes to play the random draws. *)
Definition iv_a : list byte := List.repeat x2a 16.
Definition iv_b : list byte := List.repeat x17 16.
Definition key_a : list byte := List.repeat xc3 32.

End XorCipher.

(** ** The cipher [store] asks for

    What [crypto.createCipheriv('aes-256-cbc', key, iv)] computes in
    [cipher.update(value, 'utf8', 'hex') + cipher.final('hex')]: cipher
    block chaining over the bytes of the value, padded to whole blocks of
    16 bytes.  The two parts that are not chaining are parameters: the
    block cipher AES-256 ([aes key block]) and the UTF-8 encoder. *)

Module Cbc.
Import Vault.

Definition xor_byte (a b : byte) : byte :=
  byte_of_ascii (XorCipher.xor_ascii (ascii_of_byte a) (ascii_of_byte b)).

(** The xor of two blocks, byte by byte. *)
Fixpoint xor_block (a b : list byte) : list byte :=
  match a, b with
  | x :: a', y :: b' => xor_byte x y :: xor_block a' b'
  | _, _ => []
  end.

(** The padding the cipher adds by default (PKCS#7): [n] bytes of value
    [n], with [1 <= n <= 16], up to the next multiple of 16. *)
Definition pad (bs : list byte) : list byte :=
  let n := 16 - List.length bs mod 16 in
  bs ++ List.repeat (match Byte.of_nat n with
                     | Some b => b
                     | None => x00
                     end) n.

(** [bs] cut into blocks of 16 bytes. *)
Fixpoint blocks (fuel : nat) (bs : list byte) : list (list byte) :=
  match fuel with
  | O => []
  | S fuel' =>
      match bs with
      | [] => []
      | _ :: _ => firstn 16 bs :: blocks fuel' (skipn 16 bs)
      end
  end.

Section Cipher.
Variable aes : list byte -> list byte -> list byte.
Variable utf8 : string -> list byte.

(** The chain: each block is xor-ed with the block of ciphertext before
    it, the first with the vector, and then encrypted. *)
Fixpoint chain (key prev : list byte) (bs : list (list byte))
  : list byte :=
  match bs with
  | [] => []
  | b :: rest =>
      let c := aes key (xor_block b prev) in
      c ++ chain key c rest
  end.

Definition encrypt (key iv : list byte) (value : string) : string :=
  let padded := pad (utf8 value) in
  to_hex (chain key iv (blocks (List.length padded) padded)).

End Cipher.

(** A block cipher and an encoder to run the chain on concrete inputs:
    the block xor-ed with the first 16 bytes of the key, and the bytes of
    a string of ASCII characters. *)
Definition toy_block (key block : list byte) : list byte :=
  xor_block block (firstn 16 key).

Definition ascii_bytes (s : string) : list byte :=
  List.map byte_of_ascii (list_ascii_of_string s).

End Cbc.

(** ** supabase/index.ts: [waitForProjectReady] *)

Module Poller.

(** What one round of the loop gets from [fetch] and [response.json()]. *)
Inductive fetched :=
| FetchThrows                 (* [fetch] or [json()] rejects *)
| NotOk                       (* [response.ok] is false *)
| Status (status : string).   (* [response.ok], with [project.status] *)

(** One round as the environment plays it: how long the fetch takes, what
    it yields, and by how much the timer overruns [pollInterval]. *)
Record round := {
  latency : Z;
  response : fetched;
  overrun : Z
}.

Definition pollInterval : Z := 5000.

Inductive ending :=
| Ready
| NotReadyError (projectId : string) (maxWaitTime : Z).
    (* Error(`Project ${projectId} did not become ready within
              ${maxWaitTime / 1000}s`) *)

(** How a call ended, the number of status fetches it made and the value
    of [Date.now()] when it ended. *)
Record run := {
  ended : ending;
  fetches : nat;
  clock : Z
}.

Section WaitForProjectReady.
Variable projectId : string.
Variable maxWaitTime : Z.
Variable startTime : Z.

(** The [while] loop, [now] being [Date.now()] at its test.  [None]: the
    rounds given are used up before the loop ends. *)
Fixpoint polling (rounds : list round) (now : Z) (done : nat)
  : option run :=
  if (now - startTime <? maxWaitTime)%Z then
    match rounds with
    | [] => None
    | r :: rest =>
        let fetched_at := (now + latency r)%Z in
        let next := (fetched_at + pollInterval + overrun r)%Z in
        match response r with
        | Status st =>
            if String.eqb st "ACTIVE_HEALTHY" then
              Some {| ended := Ready; fetches := S done;
                      clock := fetched_at |}
            else polling rest next (S done)
        | NotOk | FetchThrows => polling rest next (S done)
        end
    end
  else
    Some {| ended := NotReadyError projectId maxWaitTime;
            fetches := done; clock := now |}.

End WaitForProjectReady.

(** The default of the parameter: [maxWaitTime: number = 120000]. *)
Definition limit_of (maxWaitTime : option Z) : Z :=
  match maxWaitTime with Some w => w | None => 120000%Z end.

(** [waitForProjectReady(projectId, maxWaitTime)], called when
    [Date.now()] is [startTime]. *)
Definition waitForProjectReady (projectId : string)
  (maxWaitTime : option Z) (startTime : Z) (rounds : list round)
  : option run :=
  polling projectId (limit_of maxWaitTime) startTime rounds startTime 0.

(** Rounds as a sound clock plays them: nothing takes negative time. *)
Definition clock_ok (r : round) : Prop :=
  (0 <= latency r)%Z /\ (0 <= overrun r)%Z.

Definition healthy (r : round) : bool :=
  match response r with
  | Status st => String.eqb st "ACTIVE_HEALTHY"
  | _ => false
  end.

(** A round in which nothing takes time beyond the poll interval. *)
Definition prompt (f : fetched) : round :=
  {| latency := 0; response := f; overrun := 0 |}.

(** [Date.now()] at the loop test that follows the rounds [rs], none of
    which returns, when it is [now] at the test before them. *)
Fixpoint advance (rs : list round) (now : Z) : Z :=
  match rs with
  | [] => now
  | r :: rest =>
      advance rest (now + latency r + pollInterval + overrun r)%Z
  end.

End Poller.

(** ** Tool dispatch: the [CallToolRequestSchema] handlers of the GitHub
    and Supabase servers *)

Module Dispatch.

(** JSON-like values: tool arguments and result fields. *)
#[warnings="-register-all"]
Inductive js_value :=
| JUndefined
| JNull
| JBool (b : bool)
| JNum (n : Z)
| JStr (s : string)
| JArr (items : list js_value)
| JObj (fields : list (string * js_value)).

Fixpoint lookup (k : string) (fields : list (string * js_value))
  : js_value :=
  match fields with
  | [] => JUndefined
  | (k', v) :: rest => if String.eqb k k' then v else lookup k rest
  end.

(** [v.k] for a [v] that is neither [undefined] nor [null]. *)
Definition prop (v : js_value) (k : string) : js_value :=
  match v with
  | JObj fields => lookup k fields
  | _ => JUndefined
  end.

Definition nullish (v : js_value) : bool :=
  match v with
  | JUndefined | JNull => true
  | _ => false
  end.

Definition truthy (v : js_value) : bool :=
  match v with
  | JUndefined | JNull => false
  | JBool b => b
  | JNum n => negb (n =? 0)%Z
  | JStr s => negb (String.eqb s "")
  | JArr _ | JObj _ => true
  end.

(** [a ?? b] *)
Definition coalesce (a b : js_value) : js_value :=
  if nullish a then b else a.

(** A value a handler throws, as the [catch] clauses look at it. *)
Inductive thrown :=
| JsError (message : string)
    (* an instance of [Error] *)
| JsNonError (message : option string)
    (* some other object or primitive, with what its [message] reads as *)
| JsNull
| JsUndefined.

(** The object the servers serialise into the [text] of a response:
    [{success: true, ...fields}] or [{success: false, error}], whose
    [error] key [JSON.stringify] drops when it is [undefined]. *)
Inductive envelope :=
| Success (fields : list (string * js_value))
| Failure (error : option string).

Record content_item := {
  item_type : string;
  text : envelope
}.

Record tool_response := {
  content : list content_item
}.

Definition respond (e : envelope) : tool_response :=
  {| content := [ {| item_type := "text"; text := e |} ] |}.

(** What a handler does with its arguments. *)
Inductive handled :=
| Returns (r : tool_response)
| Throws (e : thrown).

Definition handler := js_value -> handled.

(** What the request handler does: resolve with a response, or reject. *)
Inductive dispatched :=
| Responds (r : tool_response)
| Propagates (e : thrown).

(** What any of the handlers does when the vendor rejects its first
    call with [message]. *)
Definition rejected (message : string) : handler :=
  fun _ => Throws (JsError message).

(** A tool of the [ListToolsRequestSchema] answer, with the [required]
    list of its [inputSchema]. *)
Record tool := {
  tool_name : string;
  required : list string
}.

Definition registered (tools : list tool) (name : string) : bool :=
  existsb (fun t => String.eqb (tool_name t) name) tools.

(** Some field the schema requires is [undefined] in [args]. *)
Definition missing_required (t : tool) (args : js_value) : bool :=
  existsb
    (fun k => match prop args k with JUndefined => true | _ => false end)
    (required t).

(** *** GitHub *)

Module GitHub.

Definition tools : list tool :=
  [ {| tool_name := "create_repository";
       required := ["name"; "description"] |};
    {| tool_name := "create_secret";
       required := ["owner"; "repo"; "secret_name"; "secret_value"] |};
    {| tool_name := "push_files";
       required := ["owner"; "repo"; "files"] |} ].

Section CallTool.
Variables createRepository createSecret pushFiles : handler.

(** The [switch]; [None] is its [default] case. *)
Definition route (name : string) : option handler :=
  if String.eqb name "create_repository" then Some createRepository
  else if String.eqb name "create_secret" then Some createSecret
  else if String.eqb name "push_files" then Some pushFiles
  else None.

(** The [try] block. *)
Definition attempt (name : string) (args : js_value) : handled :=
  match route name with
  | Some h => h args
  | None => Throws (JsError ("Unknown tool: " ++ name))
  end.

(** [catch (error: any)], which reads [error.message]: off [null] or
    [undefined] that throws a [TypeError] inside the [catch] block. *)
Definition recover (e : thrown) : dispatched :=
  match e with
  | JsError m => Responds (respond (Failure (Some m)))
  | JsNonError m => Responds (respond (Failure m))
  | JsNull =>
      Propagates
        (JsError "Cannot read properties of null (reading 'message')")
  | JsUndefined =>
      Propagates
        (JsError "Cannot read properties of undefined (reading 'message')")
  end.

Definition call_tool (name : string) (args : js_value) : dispatched :=
  match attempt name args with
  | Returns r => Responds r
  | Throws e => recover e
  end.

End CallTool.

(** The parts of the GitHub API [createRepository] calls. *)
Record user := { login : string }.
Record repo := { html_url : string; clone_url : string; ssh_url : string }.

Inductive api (A : Type) :=
| Data (data : A)
| ApiThrows (e : thrown).
Arguments Data {A} data.
Arguments ApiThrows {A} e.

Record octokit := {
  users_getAuthenticated : api user;
  repos_createUsingTemplate : js_value -> api repo;
  repos_createForAuthenticatedUser : js_value -> api repo
}.

Definition repository_created (u : user) (r : repo) (name : js_value)
  : handled :=
  Returns (respond (Success
    [ ("repo_url", JStr (html_url r));
      ("clone_url", JStr (clone_url r));
      ("ssh_url", JStr (ssh_url r));
      ("owner", JStr (login u));
      ("repo_name", name) ])).

(** The [TypeError] of [const { name, ... } = args] for an [args] that
    is [undefined] or [null]. *)
Definition cannot_destructure (what : string) : thrown :=
  JsError ("Cannot destructure property 'name' of 'args' as it is "
           ++ what ++ ".").

(** [createRepository(args)] *)
Definition createRepository (kit : octokit) (args : js_value) : handled :=
  match args with
  | JUndefined => Throws (cannot_destructure "undefined")
  | JNull => Throws (cannot_destructure "null")
  | _ =>
    let name := prop args "name" in
    let description := prop args "description" in
    let isPrivate := prop args "private" in
    let template_owner := prop args "template_owner" in
    let template_repo := prop args "template_repo" in
    match users_getAuthenticated kit with
    | ApiThrows e => Throws e
    | Data u =>
        let created :=
          if truthy template_owner && truthy template_repo then
            repos_createUsingTemplate kit
              (JObj [ ("template_owner", template_owner);
                      ("template_repo", template_repo);
                      ("name", name);
                      ("description", description);
                      ("private", coalesce isPrivate (JBool false));
                      ("include_all_branches", JBool false) ])
          else
            repos_createForAuthenticatedUser kit
              (JObj [ ("name", name);
                      ("description", description);
                      ("private", coalesce isPrivate (JBool false));
                      ("auto_init", JBool true);
                      ("gitignore_template", JStr "Node") ])
        in
        match created with
        | ApiThrows e => Throws e
        | Data r => repository_created u r name
        end
    end
  end.

(** A GitHub that accepts what it is sent, to run the handler on concrete
    arguments. *)
Definition demo_repo : repo :=
  {| html_url := "https://github.com/octocat/demo";
     clone_url := "https://github.com/octocat/demo.git";
     ssh_url := "git@github.com:octocat/demo.git" |}.

Definition accepting_kit : octokit :=
  {| users_getAuthenticated := Data {| login := "octocat" |};
     repos_createUsingTemplate := fun _ => Data demo_repo;
     repos_createForAuthenticatedUser := fun _ => Data demo_repo |}.

(** A GitHub client whose first request rejects with [null]. *)
Definition null_rejecting_kit : octokit :=
  {| users_getAuthenticated := ApiThrows JsNull;
     repos_createUsingTemplate := fun _ => Data demo_repo;
     repos_createForAuthenticatedUser := fun _ => Data demo_repo |}.

End GitHub.

(** *** Supabase *)

Module Supabase.

Definition tools : list tool :=
  [ {| tool_name := "create_project";
       required := ["name"; "db_password"] |};
    {| tool_name := "execute_sql";
       required := ["project_ref"; "sql"] |};
    {| tool_name := "configure_auth_provider";
       required := ["project_ref"; "provider"; "client_id";
                    "client_secret"] |};
    {| tool_name := "get_project_info";
       required := ["project_ref"] |} ].

Section CallTool.
Variables createProject executeSQL configureAuthProvider getProjectInfo
  : handler.

Definition route (name : string) : option handler :=
  if String.eqb name "create_project" then Some createProject
  else if String.eqb name "execute_sql" then Some executeSQL
  else if String.eqb name "configure_auth_provider"
       then Some configureAuthProvider
  else if String.eqb name "get_project_info" then Some getProjectInfo
  else None.

Definition attempt (name : string) (args : js_value) : handled :=
  match route name with
  | Some h => h args
  | None => Throws (JsError ("Unknown tool: " ++ name))
  end.

(** [catch (error: unknown)]:
    [error instanceof Error ? error.message : 'Unknown error'] *)
Definition recover (e : thrown) : dispatched :=
  match e with
  | JsError m => Responds (respond (Failure (Some m)))
  | JsNonError _ | JsNull | JsUndefined =>
      Responds (respond (Failure (Some "Unknown error")))
  end.

Definition call_tool (name : string) (args : js_value) : dispatched :=
  match attempt name args with
  | Returns r => Responds r
  | Throws e => recover e
  end.

End CallTool.

End Supabase.

End Dispatch.

(** ** The tool handlers of the Supabase and Netlify servers

    The handlers are modelled at the parameter types they declare; what
    the vendor answers is an input: [w req i] is what the [i]-th call of
    [fetch] for the request [req] does. *)

Module Handlers.
Import Dispatch.

(** What [withRetry], [fetch] and [response.json()] throw are instances
    of [Error]; the [catch] of the request handler reads their message. *)
Definition as_thrown (e : Retry.js_error) : thrown :=
  JsError (Retry.message e).

(** [`${n}`] for a count. *)
Definition decimal (n : nat) : string :=
  NilEmpty.string_of_uint (Nat.to_uint n).

(** [await withRetry(() => fetchWithRetrySupport(...), { label })]
    followed by [await response.json()]. *)
Definition request {B : Type} (script : nat -> Retry.fetched B)
  : Retry.outcome B :=
  match Retry.result
          (Retry.withRetry
             (fun i => Retry.Settled
                         (Retry.fetchWithRetrySupport (script i)))
             Retry.no_options) with
  | Retry.Rejected e => Retry.Rejected e
  | Retry.Resolved resp => Retry.resp_json resp
  end.

(** *** Supabase: [createProject] *)

Module Supabase.

Record config := {
  accessToken : string;
  organizationId : option string
}.

Record CreateProjectParams := {
  name : string;
  region : option string;
  db_password : string;
  plan : option string
}.

Record organization := { org_id : string; org_name : string }.
Record project := { id : string; project_name : string;
                    project_status : string }.
Record api_key := { key_name : string; key_value : string }.

(** The body of [POST /projects]. *)
Record project_request := {
  req_name : string;
  req_organization_id : string;
  req_region : string;
  req_db_pass : string;
  req_plan : string
}.

Record world := {
  get_organizations : nat -> Retry.fetched (list organization);
  post_project : project_request -> nat -> Retry.fetched project;
  clock_at_wait : Z;
  get_project : string -> list Poller.round;
  get_api_keys : string -> nat -> Retry.fetched (list api_key)
}.

(** [keys.find((k) => k.name === n)?.api_key || ''] *)
Definition find_key (n : string) (keys : list api_key) : string :=
  match find (fun k => String.eqb (key_name k) n) keys with
  | Some k => key_value k
  | None => ""
  end.

(** The [try] block around the API keys: any failure leaves both keys
    empty. *)
Definition fetch_keys (w : world) (ref : string) : string * string :=
  match request (get_api_keys w ref) with
  | Retry.Resolved keys =>
      (find_key "anon" keys, find_key "service_role" keys)
  | Retry.Rejected _ => ("", "")
  end.

(** [let orgId = this.organizationId; if (!orgId) { ... }] *)
Definition resolve_org (cfg : config) (w : world) : thrown + string :=
  match organizationId cfg with
  | Some (String c s) => inr (String c s)
  | _ =>
      match request (get_organizations w) with
      | Retry.Rejected e => inl (as_thrown e)
      | Retry.Resolved [] =>
          inl (JsError
                 "No organizations found. Create one at https://supabase.com/dashboard")
      | Retry.Resolved (o :: _) => inr (org_id o)
      end
  end.

Definition project_created (ref pw anon service : string) : handled :=
  Returns (respond (Success
    [ ("project_id", JStr ref);
      ("project_ref", JStr ref);
      ("url", JStr ("https://" ++ ref ++ ".supabase.co"));
      ("api_url", JStr ("https://" ++ ref ++ ".supabase.co"));
      ("anon_key", JStr anon);
      ("service_role_key", JStr service);
      ("db_connection_string",
       JStr ("postgresql://postgres:" ++ pw ++ "@db." ++ ref
             ++ ".supabase.co:5432/postgres"));
      ("dashboard_url",
       JStr ("https://supabase.com/dashboard/project/" ++ ref)) ])).

(** The message of the error [waitForProjectReady] throws under its
    default [maxWaitTime] of 120000 ms. *)
Definition not_ready (ref : string) : thrown :=
  JsError ("Project " ++ ref ++ " did not become ready within 120s").

Definition weak_password : thrown :=
  JsError "Database password must be at least 12 characters".

(** [createProject(params)]; [None] when the rounds the world gives to
    the status poll are used up before the poll ends. *)
Definition createProject (cfg : config) (w : world)
  (params : CreateProjectParams) : option handled :=
  let region := match region params with
                | Some r => r | None => "us-east-1" end in
  let plan := match plan params with Some p => p | None => "free" end in
  if Nat.ltb (String.length (db_password params)) 12 then
    Some (Throws weak_password)
  else
    match resolve_org cfg w with
    | inl t => Some (Throws t)
    | inr orgId =>
        let body := {| req_name := name params;
                       req_organization_id := orgId;
                       req_region := region;
                       req_db_pass := db_password params;
                       req_plan := plan |} in
        match request (post_project w body) with
        | Retry.Rejected e => Some (Throws (as_thrown e))
        | Retry.Resolved p =>
            match Poller.waitForProjectReady (id p) None
                    (clock_at_wait w) (get_project w (id p)) with
            | None => None
            | Some run =>
                match Poller.ended run with
                | Poller.NotReadyError ref _ => Some (Throws (not_ready ref))
                | Poller.Ready =>
                    let (anon, service) := fetch_keys w (id p) in
                    Some (project_created (id p) (db_password params)
                            anon service)
                end
            end
        end
    end.

(** The body [createProject] posts once it knows the organization. *)
Definition body_for (params : CreateProjectParams) (orgId : string)
  : project_request :=
  {| req_name := name params;
     req_organization_id := orgId;
     req_region := match region params with
                   | Some r => r | None => "us-east-1" end;
     req_db_pass := db_password params;
     req_plan := match plan params with
                 | Some p => p | None => "free" end |}.


(** A vendor to run [createProject] against: it has one organization,
    creates the project "abcd", plays the given rounds to the status
    poll and refuses the API keys. *)
Definition answers {B : Type} (b : B) : Retry.fetched B :=
  Retry.FetchResponds
    {| Retry.resp_status := 200; Retry.resp_text := Retry.Resolved "";
       Retry.json_message := Retry.Falsy; Retry.json_error := Retry.Falsy;
       Retry.resp_json := Retry.Resolved b |}.

Definition demo_world (rounds : list Poller.round) : world :=
  {| get_organizations :=
       fun _ => answers [ {| org_id := "org1"; org_name := "Acme" |} ];
     post_project :=
       fun req _ => answers {| id := "abcd"; project_name := req_name req;
                               project_status := "COMING_UP" |};
     clock_at_wait := 0;
     get_project := fun _ => rounds;
     get_api_keys :=
       fun _ _ => Retry.FetchRejects
                    (Retry.RetryableError "fetch failed" None) |}.

Definition demo_params : CreateProjectParams :=
  {| name := "shop"; region := None;
     db_password := "correct-horse-battery"; plan := None |}.

(** *** Supabase: [executeSQL] *)

(** The parsed body of the answer, as the two casts of the code read
    it. *)
Record sql_body := {
  body_message : option string;
  body_rows_affected : option Z
}.

(** [executeSQL(params)], given what the one [fetch] does. *)
Definition executeSQL (f : Retry.fetched sql_body) : handled :=
  match f with
  | Retry.FetchRejects e => Throws (as_thrown e)
  | Retry.FetchResponds resp =>
      match Retry.resp_json resp with
      | Retry.Rejected e => Throws (as_thrown e)
      | Retry.Resolved body =>
          if Retry.ok resp then
            Returns (respond (Success
              [ ("rows_affected",
                 JNum (match body_rows_affected body with
                       | Some n => n
                       | None => 0%Z
                       end)) ]))
          else
            Throws (JsError
                      (match body_message body with
                       | Some (String c m) => String c m
                       | _ => "Failed to execute SQL"
                       end))
      end
  end.

End Supabase.

(** *** Netlify *)

Module Netlify.

Definition tools : list tool :=
  [ {| tool_name := "create_site"; required := ["name"] |};
    {| tool_name := "configure_env_vars";
       required := ["site_id"; "env_vars"] |};
    {| tool_name := "deploy_site"; required := ["site_id"] |};
    {| tool_name := "get_site_info"; required := ["site_id"] |} ].

Section CallTool.
Variables createSite configureEnvVars deploySite getSiteInfo : handler.

Definition route (name : string) : option handler :=
  if String.eqb name "create_site" then Some createSite
  else if String.eqb name "configure_env_vars" then Some configureEnvVars
  else if String.eqb name "deploy_site" then Some deploySite
  else if String.eqb name "get_site_info" then Some getSiteInfo
  else None.

Definition attempt (name : string) (args : js_value) : handled :=
  match route name with
  | Some h => h args
  | None => Throws (JsError ("Unknown tool: " ++ name))
  end.

(** [error instanceof Error ? error.message : 'Unknown error'] *)
Definition recover (e : thrown) : dispatched :=
  match e with
  | JsError m => Responds (respond (Failure (Some m)))
  | JsNonError _ | JsNull | JsUndefined =>
      Responds (respond (Failure (Some "Unknown error")))
  end.

Definition call_tool (name : string) (args : js_value) : dispatched :=
  match attempt name args with
  | Returns r => Responds r
  | Throws e => recover e
  end.

End CallTool.

(** [c.toLowerCase()] as far as the pattern below can tell: of the
    characters of Latin-1 it moves only [A-Z] into the class. *)
Definition lower (c : ascii) : ascii :=
  let n := N_of_ascii c in
  if ((65 <=? n) && (n <=? 90))%N then ascii_of_N (n + 32) else c.

(** The class [[a-z0-9-]]. *)
Definition slug_char (c : ascii) : bool :=
  let n := N_of_ascii c in
  ((97 <=? n) && (n <=? 122) || (48 <=? n) && (n <=? 57) || (n =? 45))%N.

(** [name.toLowerCase().replace(/[^a-z0-9-]/g, '-')], on strings of
    Latin-1 characters. *)
Fixpoint slug (name : string) : string :=
  match name with
  | "" => ""
  | String c rest =>
      String (if slug_char (lower c) then lower c else "-"%char)
             (slug rest)
  end.

(** [repo.split('/')] *)
Fixpoint split_slash (s : string) : list string :=
  match s with
  | "" => [""]
  | String c rest =>
      if Ascii.eqb c "/" then "" :: split_slash rest
      else match split_slash rest with
           | [] => [String c ""]
           | piece :: pieces => String c piece :: pieces
           end
  end.

(** [s] has no slash. *)
Definition slash_free (s : string) : bool :=
  forallb (fun c => negb (Ascii.eqb c "/")) (list_ascii_of_string s).

(** [const [owner, repoName] = repo.split('/');
     if (!owner || !repoName) throw ...]: whether it throws. *)
Definition bad_repo (repo : string) : bool :=
  match split_slash repo with
  | String _ _ :: String _ _ :: _ => false
  | _ => true
  end.

Record CreateSiteParams := {
  site_name_wanted : string;
  repo : option string
}.

Record site := {
  site_id : string;
  site_name : string;
  site_url : option string;
  admin_url : string;
  deploy_url : string
}.

(** The body of [POST /sites]: the slug, and the repository to link. *)
Record site_request := {
  req_site_name : string;
  req_repo : option string
}.

Definition repo_format : thrown :=
  JsError
    (String.concat ""
       ["Repository must be in format "; String (ascii_of_nat 34) "";
        "owner/repo"; String (ascii_of_nat 34) ""]).

Definition site_created (s : site) : handled :=
  Returns (respond (Success
    [ ("site_id", JStr (site_id s));
      ("site_name", JStr (site_name s));
      ("url", JStr (match site_url s with
                    | Some (String c u) => String c u
                    | _ => "https://" ++ site_name s ++ ".netlify.app"
                    end));
      ("admin_url", JStr (admin_url s));
      ("deploy_url", JStr (deploy_url s)) ])).

(** [createSite(params)] *)
Definition createSite
  (post_site : site_request -> nat -> Retry.fetched site)
  (params : CreateSiteParams) : handled :=
  let linked := match repo params with
                | Some (String c r) => Some (String c r)
                | _ => None
                end in
  match linked with
  | Some r =>
      if bad_repo r then Throws repo_format
      else
        match request (post_site
                         {| req_site_name := slug (site_name_wanted params);
                            req_repo := Some r |}) with
        | Retry.Rejected e => Throws (as_thrown e)
        | Retry.Resolved s => site_created s
        end
  | None =>
      match request (post_site
                       {| req_site_name := slug (site_name_wanted params);
                          req_repo := None |}) with
      | Retry.Rejected e => Throws (as_thrown e)
      | Retry.Resolved s => site_created s
      end
  end.

(** *** Netlify: [configureEnvVars] *)

(** What one [fetch] of the loop does, as far as the loop looks. *)
Inductive answer :=
| AnswerOk                       (* [response.ok] *)
| AnswerNotOk
| AnswerThrows (message : string).

(** The vendor: the answer to setting [key] for the account, and to
    setting it for the site. *)
Record env_api := {
  set_for_account : string -> string -> answer;
  set_for_site : string -> string -> string -> answer
}.

Record tally := {
  setCount : nat;
  errors : list string
}.

(** The body of the [for] loop for one entry. *)
Definition set_var (api : env_api) (site : string) (t : tally)
  (entry : string * string) : tally :=
  let (key, value) := entry in
  match set_for_account api key value with
  | AnswerOk => {| setCount := S (setCount t); errors := errors t |}
  | AnswerThrows m =>
      {| setCount := setCount t;
         errors := errors t ++ ["Error setting " ++ key ++ ": " ++ m] |}
  | AnswerNotOk =>
      match set_for_site api site key value with
      | AnswerOk => {| setCount := S (setCount t); errors := errors t |}
      | AnswerNotOk =>
          {| setCount := setCount t;
             errors := errors t ++ ["Failed to set " ++ key] |}
      | AnswerThrows m =>
          {| setCount := setCount t;
             errors := errors t ++ ["Error setting " ++ key ++ ": " ++ m] |}
      end
  end%string.

(** [configureEnvVars(params)], [env_vars] being
    [Object.entries(params.env_vars)]. *)
Definition configureEnvVars (api : env_api) (site : string)
  (env_vars : list (string * string)) : handled :=
  let t := fold_left (set_var api site) env_vars
             {| setCount := 0; errors := [] |} in
  match errors t, setCount t with
  | _ :: _, O =>
      Throws (JsError ("Failed to set environment variables: "
                       ++ String.concat ", " (errors t)))
  | _, _ =>
      Returns (respond (Success
        [ ("vars_set", JNum (Z.of_nat (setCount t)));
          ("message",
           JStr ("Set " ++ decimal (setCount t)
                 ++ " environment variable(s)"
                 ++ match errors t with
                    | [] => ""
                    | _ :: _ =>
                        " (" ++ decimal (List.length (errors t))
                        ++ " failed)"
                    end)) ]))
  end%string.

(** Whether the loop counts the entry as set. *)
Definition was_set (api : env_api) (site : string)
  (entry : string * string) : bool :=
  match set_for_account api (fst entry) (snd entry) with
  | AnswerOk => true
  | AnswerThrows _ => false
  | AnswerNotOk =>
      match set_for_site api site (fst entry) (snd entry) with
      | AnswerOk => true
      | _ => false
      end
  end.

End Netlify.

End Handlers.

(* ====================================================================== *)
(** * Part II: properties                                                  *)
(* ====================================================================== *)

(** ** The retry engine *)

Module RetryFacts.
Import Retry.

Lemma falsy_iff (v : js_field) : truthy v = false <-> falsy v.
Proof.
  unfold falsy. destruct v as [|n|b]; cbn [truthy].
  - split; auto.
  - rewrite negb_false_iff, Z.eqb_eq. split.
    + intros ->. auto.
    + intros [H|[H|H]]; congruence.
  - split.
    + intros ->. auto.
    + intros [H|[H|H]]; congruence.
Qed.

Lemma truthy_false_iff (e : js_error) :
  truthy (status_of e) = false <-> no_status e.
Proof.
  unfold no_status, status_of, js_or. rewrite <- !falsy_iff.
  destruct (truthy (status e)) eqn:E.
  - rewrite E. split; [discriminate | intros [H _]; discriminate H].
  - split; [intros H; split; [reflexivity | exact H] | intros [_ H]; exact H].
Qed.

Lemma truthy_true_iff (e : js_error) :
  truthy (status_of e) = true <->
  (exists n, has_status e n) \/ odd_status e.
Proof.
  unfold has_status, odd_status.
  destruct (status_of e) as [|n|b]; cbn [truthy].
  - split; [discriminate|].
    intros [(m & E & _)|E]; discriminate E.
  - rewrite negb_true_iff, Z.eqb_neq. split.
    + intros H. left. exists n. auto.
    + intros [(m & E & H)|E]; congruence.
  - split.
    + intros ->. right. reflexivity.
    + intros [(m & E & _)|E]; congruence.
Qed.

Lemma includes_In (l : list Z) (v : js_field) :
  includes l v = true <-> exists n, v = Integer n /\ In n l.
Proof.
  destruct v as [|n|b]; cbn [includes].
  - split; [discriminate | intros (n & E & _); discriminate].
  - rewrite existsb_exists. split.
    + intros (x & Hx & E). apply Z.eqb_eq in E. subst. eauto.
    + intros (m & E & Hm). injection E as <-. exists n.
      split; [assumption | apply Z.eqb_refl].
  - split; [discriminate | intros (n & E & _); discriminate].
Qed.

(** The retry test, in words. *)
Lemma retryable_iff (o : options) (e : js_error) :
  retryable o e = true <->
  no_status e \/ exists n, has_status e n /\ In n (retryOn o).
Proof.
  unfold retryable.
  rewrite orb_true_iff, negb_true_iff, includes_In, truthy_false_iff.
  split; intros [H|H]; auto.
  - destruct H as (n & E & Hin).
    destruct (Z.eq_dec n 0) as [->|Hn].
    + left. apply truthy_false_iff. rewrite E. reflexivity.
    + right. exists n. unfold has_status. auto.
  - right. destruct H as (n & [E Hn] & Hin). eauto.
Qed.

(** A truthy status that is not an integer is never retried. *)
Lemma odd_status_final (o : options) (e : js_error) :
  odd_status e -> retryable o e = false.
Proof.
  unfold odd_status, retryable. intros ->. reflexivity.
Qed.

Section Attempts.
Context {T : Type}.
Variable fn : nat -> attempted T.
Variable o : options.

Lemma goes_on_test (i : nat) (e : js_error) :
  (Z.of_nat i <? maxRetries o)%Z && retryable o e = true <-> goes_on o i e.
Proof.
  unfold goes_on. rewrite andb_true_iff, Z.ltb_lt. reflexivity.
Qed.

Lemma attempts_S (rounds : nat) (attempt : Z) (last : js_error) :
  attempts fn o (S rounds) attempt last =
  match fn (Z.to_nat attempt) with
  | Settled (Resolved v) =>
      {| result := Resolved v; calls := 1; delays := [] |}
  | Settled (Rejected err) =>
      if (attempt <? maxRetries o)%Z && retryable o err then
        called (slept (initialDelayMs o * 2 ^ attempt)%Z
                  (attempts fn o rounds (attempt + 1)%Z err))
      else {| result := Rejected err; calls := 1; delays := [] |}
  | RejectedNullish u =>
      {| result := Rejected (cannot_read u "status");
         calls := 1; delays := [] |}
  end.
Proof. reflexivity. Qed.

(** A run of one call. *)
Lemma shape_single (a : nat) (res : outcome T) :
  res = ended (fn a) ->
  (forall e, fn a = Rejected e -> ~ goes_on o a e) ->
  shape fn o a {| result := res; calls := 1; delays := [] |}.
Proof.
  intros Hres Hlast.
  constructor; cbn [calls delays result List.length Nat.sub].
  - lia.
  - reflexivity.
  - intros j Hj. lia.
  - rewrite Nat.add_0_r. exact Hres.
  - rewrite Nat.add_0_r. exact Hlast.
Qed.

Lemma attempts_shape (rounds : nat) :
  forall (a : nat) (last : js_error),
    Z.of_nat (a + rounds) = maxRetries o ->
    shape fn o a (attempts fn o (S rounds) (Z.of_nat a) last) /\
    calls (attempts fn o (S rounds) (Z.of_nat a) last) <= S rounds.
Proof.
  induction rounds as [|rounds IH]; intros a last Hmax.
  - rewrite attempts_S, Nat2Z.id.
    destruct (fn a) as [[v|err]|u] eqn:Ea.
    + split; [|cbn [calls]; lia].
      apply shape_single; [rewrite Ea; reflexivity|].
      intros e He. rewrite Ea in He. discriminate He.
    + replace ((Z.of_nat a <? maxRetries o)%Z) with false
        by (symmetry; apply Z.ltb_ge; lia).
      cbn [andb]. split; [|cbn [calls]; lia].
      apply shape_single; [rewrite Ea; reflexivity|].
      intros e _ [Hlt _]. lia.
    + split; [|cbn [calls]; lia].
      apply shape_single; [rewrite Ea; reflexivity|].
      intros e He. rewrite Ea in He. discriminate He.
  - rewrite attempts_S, Nat2Z.id.
    destruct (fn a) as [[v|err]|u] eqn:Ea.
    + split; [|cbn [calls]; lia].
      apply shape_single; [rewrite Ea; reflexivity|].
      intros e He. rewrite Ea in He. discriminate He.
    + destruct ((Z.of_nat a <? maxRetries o)%Z && retryable o err) eqn:Ego.
      * apply goes_on_test in Ego.
        replace (Z.of_nat a + 1)%Z with (Z.of_nat (S a)) by lia.
        destruct (IH (S a) err) as [[C D R Res L] Hle]; [lia|].
        remember (attempts fn o (S rounds) (Z.of_nat (S a)) err) as r eqn:Er.
        clear Er.
        unfold called, slept; cbn [calls delays result].
        split; [|lia].
        constructor; cbn [calls delays result List.length nth_error].
        -- lia.
        -- lia.
        -- intros [|j] Hj.
           ++ exists err. rewrite Nat.add_0_r. auto.
           ++ destruct (R j) as (e & E1 & E2 & E3); [lia|].
              exists e. replace (a + S j) with (S a + j) by lia. auto.
        -- rewrite Res. do 2 f_equal. lia.
        -- intros e.
           replace (a + (S (calls r) - 1)) with (S a + (calls r - 1))
             by lia.
           apply L.
      * split; [|cbn [calls]; lia].
        apply shape_single; [rewrite Ea; reflexivity|].
        intros e He Hgo. rewrite Ea in He. injection He as <-.
        apply goes_on_test in Hgo. congruence.
    + split; [|cbn [calls]; lia].
      apply shape_single; [rewrite Ea; reflexivity|].
      intros e He. rewrite Ea in He. discriminate He.
Qed.

(** All of [withRetry], for a policy with [maxRetries >= 0]. *)
Lemma withRetry_shape :
  (0 <= maxRetries o)%Z ->
  shape fn o 0 (withRetry fn o) /\
  (Z.of_nat (calls (withRetry fn o)) <= maxRetries o + 1)%Z.
Proof.
  intros Hmax. unfold withRetry.
  destruct (Z.to_nat (maxRetries o + 1)) as [|rounds] eqn:E; [lia|].
  destruct (attempts_shape rounds 0
              {| message := "No attempts made"; status := Undefined;
                 statusCode := Undefined |}) as [Hs Hle].
  - simpl. lia.
  - cbn [Z.of_nat] in Hs, Hle. split; [exact Hs | lia].
Qed.

(** An attempt that rejects with [null] or [undefined] ends the run: the
    [catch] block throws the [TypeError] of reading [status] off it. *)
Lemma withRetry_rejected_nullish (i : nat) (u : nullish) :
  (0 <= maxRetries o)%Z ->
  i < calls (withRetry fn o) -> fn i = RejectedNullish u ->
  calls (withRetry fn o) = S i /\
  result (withRetry fn o) = Rejected (cannot_read u "status").
Proof.
  intros Hmax Hi Ei.
  destruct (withRetry_shape Hmax) as [[C D R Res L] _].
  cbn [Nat.add] in R, Res.
  assert (Hc : calls (withRetry fn o) = S i).
  { destruct (Nat.lt_ge_cases (S i) (calls (withRetry fn o)))
      as [Hlt|Hge]; [|lia].
    destruct (R i) as (e & E & _); [lia|].
    rewrite Ei in E. discriminate E. }
  split; [exact Hc|]. rewrite Res, Hc.
  replace (S i - 1) with i by lia. rewrite Ei. reflexivity.
Qed.

End Attempts.

(** Spec, section 8: an operation that fails twice with a retryable status
    and then succeeds is called three times, with the delays
    [initialDelay] and [2 * initialDelay] in between. *)
Example withRetry_twice_then_success :
  withRetry
    (fun i => if Nat.ltb i 2 then Rejected (RetryableError "busy" (Some 503%Z))
              else Resolved i)
    no_options
  = {| result := Resolved 2; calls := 3; delays := [1000; 2000]%Z |}.
Proof. reflexivity. Qed.

(** An operation that rejects with [null]: one call, and the error thrown
    is the [TypeError] of the [catch] block, not a retry. *)
Example withRetry_null_rejection :
  withRetry (fun _ : nat => @RejectedNullish unit Null) no_options
  = {| result :=
         Rejected
           {| message := "Cannot read properties of null (reading 'status')";
              status := Undefined; statusCode := Undefined |};
       calls := 1; delays := [] |}.
Proof. reflexivity. Qed.

(** C2, as stated, fails on a failure whose status is 0: the claim lets it
    through as a status outside the retryable set, the loop retries it.
    Here [maxRetries] is 1, every attempt rejects with status 0, and the
    operation is called twice, 1000 ms apart. *)
Lemma withRetry_retries_status_zero :
  let e := RetryableError "status zero" (Some 0%Z) in
  let o := {| opt_maxRetries := Some 1%Z; opt_initialDelayMs := None;
              opt_retryOn := None |} in
  let r := withRetry (fun _ : nat => @Rejected unit e) o in
  status e = Integer 0%Z /\ ~ In 0%Z (retryOn o) /\
  calls r = 2 /\ delays r = [1000%Z] /\ result r = Rejected e.
Proof.
  cbv zeta. repeat split; try reflexivity.
  simpl. intros H. repeat (destruct H as [H|H]; [discriminate|]). exact H.
Qed.

(** C2 (amended): for a policy with [maxRetries >= 0] and whatever the
    attempts do, [withRetry] calls the operation at least once and at most
    [maxRetries + 1] times.  After an attempt [i] that failed with a value
    other than [null] and [undefined] it goes on to attempt [i + 1]
    exactly when [i < maxRetries] and the failure has no status ([status]
    and [statusCode] each absent or falsy) or has one in [retryOn]; it
    sleeps [initialDelayMs * 2 ^ i] before that retry and nothing else;
    such a failure with a truthy status outside [retryOn] ends the run at
    once with that error; and when all [maxRetries + 1] attempts are used
    the error of the last one is thrown as it is.  A run that ends on a
    call that returned, or that failed with such a value, ends with what
    that call returned or threw. *)
Theorem withRetry_policy {T : Type} (fn : nat -> attempted T)
  (o : options) :
  (0 <= maxRetries o)%Z ->
  let r := withRetry fn o in
  (1 <= Z.of_nat (calls r) <= maxRetries o + 1)%Z /\
  (forall i e, i < calls r -> fn i = Rejected e ->
     (S i < calls r <->
      (Z.of_nat i < maxRetries o)%Z /\
      (no_status e \/ exists n, has_status e n /\ In n (retryOn o)))) /\
  (forall i, S i < calls r ->
     (exists e, fn i = Rejected e) /\
     nth_error (delays r) i
     = Some (initialDelayMs o * 2 ^ Z.of_nat i)%Z) /\
  List.length (delays r) = calls r - 1 /\
  (forall i e, i < calls r -> fn i = Rejected e ->
     (exists n, has_status e n /\ ~ In n (retryOn o)) \/ odd_status e ->
     calls r = S i /\ result r = Rejected e) /\
  (forall e, Z.of_nat (calls r) = (maxRetries o + 1)%Z ->
     fn (calls r - 1) = Rejected e -> result r = Rejected e) /\
  (forall out : outcome T, fn (calls r - 1) = out -> result r = out).
Proof.
  intros Hmax r.
  destruct (withRetry_shape fn o Hmax) as [[C D R Res L] Hle].
  fold r in C, D, R, Res, L, Hle. simpl in R, Res, L.
  assert (Hiff : forall i e, i < calls r -> fn i = Rejected e ->
            (S i < calls r <-> goes_on o i e)).
  { intros i e Hi Ei. split.
    - intros Hlt. destruct (R i) as (e' & E' & Hgo & _); [lia|].
      rewrite Ei in E'. injection E' as <-. exact Hgo.
    - intros Hgo. destruct (Nat.lt_ge_cases (S i) (calls r)) as [|Hge]; auto.
      exfalso. apply (L e).
      + replace (calls r - 1) with i by lia. exact Ei.
      + replace (calls r - 1) with i by lia. exact Hgo. }
  split; [lia|].
  split.
  { intros i e Hi Ei. rewrite (Hiff i e Hi Ei). unfold goes_on.
    rewrite retryable_iff. reflexivity. }
  split.
  { intros i Hi. destruct (R i) as (e & E & _ & Hd); [lia|]. eauto. }
  split; [exact D|].
  split.
  { intros i e Hi Ei Hst.
    assert (Hre : retryable o e = false).
    { destruct Hst as [(n & Hn & Hout)|Hodd];
        [|exact (odd_status_final o e Hodd)].
      destruct (retryable o e) eqn:Hre; [|reflexivity]. exfalso.
      apply retryable_iff in Hre. destruct Hre as [Hno|(m & Hm & Hin)].
      - apply truthy_false_iff in Hno.
        assert (truthy (status_of e) = true)
          by (apply truthy_true_iff; eauto).
        congruence.
      - destruct Hn as [E1 _], Hm as [E2 _]. congruence. }
    assert (calls r = S i) as Hc.
    { destruct (Nat.lt_ge_cases (S i) (calls r)) as [Hlt|Hge]; [|lia].
      exfalso. apply (Hiff i e Hi Ei) in Hlt. destruct Hlt as [_ H].
      congruence. }
    split; [exact Hc|].
    rewrite Res, Hc. replace (S i - 1) with i by lia. rewrite Ei.
    reflexivity. }
  split.
  { intros e _ He. rewrite Res, He. reflexivity. }
  intros out Hout. rewrite Res, Hout. reflexivity.
Qed.

(** The theorem at the default policy, on an operation that is rate
    limited once and then succeeds. *)
Lemma withRetry_policy_witness :
  (0 <= maxRetries no_options)%Z /\
  result (withRetry
            (fun i => match i with
                      | O => Rejected (RetryableError "slow down" (Some 429%Z))
                      | S _ => Resolved "done"
                      end) no_options)
  = Resolved "done".
Proof.
  assert (Hmax : (0 <= maxRetries no_options)%Z)
    by (unfold maxRetries, no_options; cbn [opt_maxRetries]; lia).
  split; [exact Hmax|].
  pose proof (withRetry_policy
    (fun i => match i with
              | O => Rejected (RetryableError "slow down" (Some 429%Z))
              | S _ => Resolved "done"
              end) no_options) as H.
  destruct (H Hmax) as (_ & _ & _ & _ & _ & _ & Hres).
  apply Hres. reflexivity.
Defined.

End RetryFacts.

(** ** The regular expression of [resolve] *)

Module PlaceholderFacts.
Import Vault.

Lemma strip_prefix_app (p s : string) : strip_prefix p (p ++ s) = Some s.
Proof.
  induction p as [|a p IH]; [reflexivity|].
  cbn [append strip_prefix]. rewrite Ascii.eqb_refl. exact IH.
Qed.

Lemma strip_prefix_some (p s r : string) :
  strip_prefix p s = Some r -> s = (p ++ r)%string.
Proof.
  revert s. induction p as [|a p IH]; intros s; cbn [strip_prefix append].
  - intros H. injection H as ->. reflexivity.
  - destruct s as [|b s]; [discriminate|].
    destruct (Ascii.eqb_spec a b) as [->|]; [|discriminate].
    intros H. rewrite (IH s H). reflexivity.
Qed.

Lemma take_word_sound (s w t : string) :
  take_word s = (w, t) -> s = (w ++ t)%string /\ all_word w = true.
Proof.
  revert w t. induction s as [|c s IH]; intros w t; cbn [take_word].
  - intros H. injection H as <- <-. split; reflexivity.
  - destruct (word_char c) eqn:Ec.
    + destruct (take_word s) as [w' t'] eqn:E. intros H.
      injection H as <- <-. destruct (IH w' t' eq_refl) as [-> Hw].
      split; [reflexivity|]. cbn [all_word]. rewrite Ec. exact Hw.
    + intros H. injection H as <- <-. split; reflexivity.
Qed.

Lemma take_word_app (w t : string) :
  all_word w = true ->
  take_word (w ++ "}}" ++ t) = (w, ("}}" ++ t)%string).
Proof.
  induction w as [|c w IH]; [reflexivity|].
  cbn [all_word append take_word]. intros H.
  apply andb_true_iff in H as [Hc Hw]. rewrite Hc.
  change (w ++ String "}" (String "}" t))%string
    with (w ++ "}}" ++ t)%string.
  rewrite (IH Hw). reflexivity.
Qed.

Lemma match_here_sound (s name : string) :
  match_here s = Some name ->
  exists post,
    s = ("{{secrets." ++ name ++ "}}" ++ post)%string /\
    name <> "" /\ all_word name = true.
Proof.
  unfold match_here.
  destruct (strip_prefix "{{secrets." s) as [rest|] eqn:Ep; [|discriminate].
  destruct (take_word rest) as [w tail] eqn:Ew.
  destruct w as [|c w]; [discriminate|].
  destruct (strip_prefix "}}" tail) as [post|] eqn:Et; [|discriminate].
  intros H. injection H as <-.
  apply strip_prefix_some in Ep, Et.
  apply take_word_sound in Ew as [Er Hw].
  exists post. subst. repeat split; [discriminate | exact Hw].
Qed.

Lemma match_here_complete (name post : string) :
  name <> "" -> all_word name = true ->
  match_here ("{{secrets." ++ name ++ "}}" ++ post) = Some name.
Proof.
  intros Hne Hw. unfold match_here.
  rewrite strip_prefix_app, (take_word_app name post Hw).
  destruct name as [|c name]; [contradiction|].
  rewrite strip_prefix_app. reflexivity.
Qed.

Lemma find_placeholder_step (c : ascii) (s : string) :
  find_placeholder (String c s)
  = match match_here (String c s) with
    | Some name => Some name
    | None => find_placeholder s
    end.
Proof. reflexivity. Qed.

(** What [find_placeholder] returns is the name of a placeholder of the
    string. *)
Lemma find_placeholder_sound (s name : string) :
  find_placeholder s = Some name ->
  exists pre post,
    s = (pre ++ "{{secrets." ++ name ++ "}}" ++ post)%string /\
    name <> "" /\ all_word name = true.
Proof.
  induction s as [|c s IH].
  - cbn. discriminate.
  - rewrite find_placeholder_step.
    destruct (match_here (String c s)) as [n|] eqn:E.
    + intros H. injection H as ->.
      destruct (match_here_sound _ _ E) as (post & Hs & Hn).
      exists "", post. split; [exact Hs | exact Hn].
    + intros H. destruct (IH H) as (pre & post & -> & Hn).
      exists (String c pre), post. split; [reflexivity | exact Hn].
Qed.

(** It finds one whenever the string has one. *)
Lemma find_placeholder_complete (s : string) :
  has_placeholder s -> exists name, find_placeholder s = Some name.
Proof.
  intros (pre & name & post & -> & Hne & Hw).
  induction pre as [|c pre IH].
  - exists name. cbn [append].
    pose proof (match_here_complete name post Hne Hw) as E.
    cbn [append] in E. cbn [find_placeholder]. rewrite E. reflexivity.
  - cbn [append]. rewrite find_placeholder_step.
    destruct (match_here _) as [n|]; [eauto | exact IH].
Qed.

Lemma find_placeholder_none (s : string) :
  find_placeholder s = None <-> ~ has_placeholder s.
Proof.
  split.
  - intros E H. destruct (find_placeholder_complete s H) as [n Hn].
    congruence.
  - intros H. destruct (find_placeholder s) as [n|] eqn:E; [|reflexivity].
    exfalso. apply H. destruct (find_placeholder_sound s n E)
      as (pre & post & Hs & Hn). exists pre, n, post. auto.
Qed.

(** What it returns is the name of the leftmost one. *)
Lemma find_placeholder_leftmost (s name : string) :
  find_placeholder s = Some name -> leftmost_placeholder s name.
Proof.
  unfold leftmost_placeholder. revert name.
  induction s as [|c s IH]; intros name.
  - cbn. discriminate.
  - rewrite find_placeholder_step.
    destruct (match_here (String c s)) as [n|] eqn:E.
    + intros H. injection H as ->.
      destruct (match_here_sound _ _ E) as (post & Hs & Hne & Hw).
      exists "", post. repeat split; try assumption.
      intros pre' name' post' _ _ _. cbn. lia.
    + intros H.
      destruct (IH name H) as (pre & post & -> & Hne & Hw & Hmin).
      exists (String c pre), post. repeat split; try assumption.
      intros pre' name' post' Hs' Hne' Hw'.
      destruct pre' as [|c' pre'].
      * pose proof (match_here_complete name' post' Hne' Hw') as E'.
        rewrite Hs' in E.
        change (match_here ("{{secrets." ++ name' ++ "}}" ++ post')
                = None) in E.
        congruence.
      * change (String c (pre ++ "{{secrets." ++ name ++ "}}" ++ post)
                = String c' (pre' ++ "{{secrets." ++ name' ++ "}}"
                             ++ post'))%string in Hs'.
        injection Hs' as _ Hs'.
        cbn [String.length]. apply le_n_S.
        exact (Hmin pre' name' post' Hs' Hne' Hw').
Qed.

(** And the name of the leftmost placeholder is what it returns. *)
Lemma leftmost_found (s name : string) :
  leftmost_placeholder s name -> find_placeholder s = Some name.
Proof.
  intros (pre & post & Hs & Hne & Hw & Hmin). revert s Hs Hmin.
  induction pre as [|c pre IH]; intros s Hs Hmin; subst s.
  - pose proof (match_here_complete name post Hne Hw) as E.
    cbn [append] in E |- *. cbn [find_placeholder]. rewrite E.
    reflexivity.
  - cbn [append]. rewrite find_placeholder_step.
    destruct (match_here _) as [n|] eqn:E.
    + destruct (match_here_sound _ _ E) as (post' & Hs' & Hne' & Hw').
      specialize (Hmin "" n post' Hs' Hne' Hw'). cbn in Hmin. lia.
    + apply IH; [reflexivity|].
      intros pre' name' post' Hs' Hne' Hw'.
      apply le_S_n.
      apply (Hmin (String c pre') name' post'); [|assumption..].
      cbn [append]. rewrite Hs'. reflexivity.
Qed.

(** A string with a placeholder has a leftmost one, and only one. *)
Lemma leftmost_exists (s : string) :
  has_placeholder s ->
  exists name, leftmost_placeholder s name /\
    forall name', leftmost_placeholder s name' -> name' = name.
Proof.
  intros H. destruct (find_placeholder_complete s H) as [name E].
  exists name. split; [apply find_placeholder_leftmost, E|].
  intros name' H'. apply leftmost_found in H'. congruence.
Qed.

(** A reference that is a placeholder and nothing else. *)
Lemma find_placeholder_exact (name : string) :
  name <> "" -> all_word name = true ->
  find_placeholder ("{{secrets." ++ name ++ "}}") = Some name.
Proof.
  intros Hne Hw.
  pose proof (match_here_complete name "" Hne Hw) as E.
  cbn [append] in E |- *. cbn [find_placeholder]. rewrite E. reflexivity.
Qed.

End PlaceholderFacts.

(** ** The secret vault *)

Module VaultFacts.
Import Vault PlaceholderFacts.

(** *** Hex *)

Lemma from_hex_byte (b : byte) (s : string) :
  from_hex (byte_to_hex b ++ s) = b :: from_hex s.
Proof. destruct b; reflexivity. Qed.

Lemma from_hex_to_hex (bs : list byte) : from_hex (to_hex bs) = bs.
Proof.
  induction bs as [|b bs IH]; [reflexivity|].
  cbn [to_hex]. rewrite from_hex_byte, IH. reflexivity.
Qed.

Lemma all_hex_byte (b : byte) (s : string) :
  all_hex (byte_to_hex b ++ s) = all_hex s.
Proof. destruct b; reflexivity. Qed.

Lemma all_hex_to_hex (bs : list byte) : all_hex (to_hex bs) = true.
Proof.
  induction bs as [|b bs IH]; [reflexivity|].
  cbn [to_hex]. rewrite all_hex_byte. exact IH.
Qed.

Lemma hex_not_colon (c : ascii) (n : N) :
  hex_value c = Some n -> Ascii.eqb c colon = false.
Proof.
  intros H. destruct (Ascii.eqb_spec c colon) as [->|]; [|reflexivity].
  discriminate H.
Qed.

Lemma split_colon_hex (t : string) :
  all_hex t = true -> split_colon t = [t].
Proof.
  induction t as [|c t IH]; [reflexivity|].
  cbn [all_hex split_colon]. destruct (hex_value c) as [n|] eqn:E;
    [|discriminate].
  intros H. rewrite (hex_not_colon c n E), (IH H). reflexivity.
Qed.

Lemma split_colon_entry (h t : string) :
  all_hex h = true ->
  split_colon (h ++ ":" ++ t) = h :: split_colon t.
Proof.
  induction h as [|c h IH]; [reflexivity|].
  cbn [all_hex]. destruct (hex_value c) as [n|] eqn:E; [|discriminate].
  intros H. cbn [append split_colon].
  rewrite (hex_not_colon c n E).
  change (h ++ String ":" t)%string with (h ++ ":" ++ t)%string.
  rewrite (IH H). reflexivity.
Qed.

(** The text before the first colon of a stored entry is the vector. *)
Lemma entry_vector (iv : list byte) (enc : string) :
  all_hex enc = true ->
  split_colon (to_hex iv ++ ":" ++ enc) = [to_hex iv; enc].
Proof.
  intros H. rewrite split_colon_entry by apply all_hex_to_hex.
  rewrite (split_colon_hex enc H). reflexivity.
Qed.

(** *** The map *)

Lemma map_get_set_same (k v : string) (m : js_map) :
  map_get k (map_set k v m) = Some v.
Proof.
  induction m as [|[k' v'] m IH]; cbn [map_set map_get].
  - rewrite String.eqb_refl. reflexivity.
  - destruct (String.eqb k k') eqn:E; cbn [map_get].
    + rewrite String.eqb_refl. reflexivity.
    + rewrite E. exact IH.
Qed.

Lemma map_get_set_other (k k' v : string) (m : js_map) :
  k' <> k -> map_get k' (map_set k v m) = map_get k' m.
Proof.
  intros Hne. induction m as [|[k0 v0] m IH]; cbn [map_set map_get].
  - destruct (String.eqb_spec k' k); [contradiction | reflexivity].
  - destruct (String.eqb_spec k k0) as [->|Hk]; cbn [map_get].
    + destruct (String.eqb_spec k' k0); [contradiction | reflexivity].
    + destruct (String.eqb k' k0); [reflexivity | exact IH].
Qed.

Lemma map_get_remove_other (k k' : string) (m : js_map) :
  k' <> k -> map_get k' (map_remove k m) = map_get k' m.
Proof.
  intros Hne. induction m as [|[k0 v0] m IH]; cbn [map_remove map_get].
  - reflexivity.
  - destruct (String.eqb_spec k k0) as [->|Hk]; cbn [map_get].
    + destruct (String.eqb_spec k' k0); [contradiction | reflexivity].
    + destruct (String.eqb k' k0); [reflexivity | exact IH].
Qed.

Lemma map_get_remove_none (k k' : string) (m : js_map) :
  map_get k' m = None -> map_get k' (map_remove k m) = None.
Proof.
  induction m as [|[k0 v0] m IH]; cbn [map_remove map_get]; [auto|].
  destruct (String.eqb k' k0) eqn:E'; [discriminate|].
  intros H. destruct (String.eqb k k0); cbn [map_get].
  - exact H.
  - rewrite E'. exact (IH H).
Qed.

(** *** Methods *)

Ltac run_method :=
  unfold store, retrieve, resolve, listKeys, has, delete, destroy,
    getStatus, guard_destroyed, bind, ret, throw, this, update;
  cbn [fst snd isDestroyed secrets encryptionKey with_secrets].

Section Cipher.
Variable encrypt : list byte -> list byte -> string -> string.
Variable decrypt : list byte -> list byte -> string -> option string.

Local Abbreviation store := (store encrypt).
Local Abbreviation retrieve := (retrieve decrypt).
Local Abbreviation resolve := (resolve decrypt).
Local Abbreviation perform := (perform encrypt decrypt).
Local Abbreviation after := (after encrypt decrypt).

Lemma store_destroyed (vt : vault) (k v : string) (iv : list byte) :
  isDestroyed vt = true -> store k v iv vt = (Throw VaultDestroyedError, vt).
Proof. intros H. run_method. rewrite H. reflexivity. Qed.

Lemma retrieve_destroyed (vt : vault) (k : string) :
  isDestroyed vt = true -> retrieve k vt = (Throw VaultDestroyedError, vt).
Proof. intros H. run_method. rewrite H. reflexivity. Qed.

Lemma resolve_destroyed (vt : vault) (s : string) :
  isDestroyed vt = true -> resolve s vt = (Throw VaultDestroyedError, vt).
Proof. intros H. run_method. rewrite H. reflexivity. Qed.

Lemma listKeys_destroyed (vt : vault) :
  isDestroyed vt = true -> listKeys vt = (Throw VaultDestroyedError, vt).
Proof. intros H. run_method. rewrite H. reflexivity. Qed.

Lemma store_active (vt : vault) (k v : string) (iv : list byte) :
  isDestroyed vt = false ->
  store k v iv vt
  = (Ok tt,
     with_secrets
       (map_set k (to_hex iv ++ ":" ++ encrypt (encryptionKey vt) iv v))
       vt).
Proof. intros H. run_method. rewrite H. reflexivity. Qed.

(** [retrieve] and [resolve] leave the vault as it is. *)
Lemma retrieve_state (vt : vault) (k : string) : snd (retrieve k vt) = vt.
Proof.
  run_method. destruct (isDestroyed vt); [reflexivity|].
  cbn [fst snd].
  destruct (map_get k (secrets vt)) as [[|c stored]|]; try reflexivity.
  destruct (split_colon (String c stored)) as [|ivHex [|enc pieces]];
    try reflexivity.
  destruct (decrypt _ _ _); reflexivity.
Qed.

Lemma resolve_state (vt : vault) (s : string) : snd (resolve s vt) = vt.
Proof.
  unfold Vault.resolve, bind at 1, guard_destroyed, bind, this, throw, ret.
  destruct (isDestroyed vt) eqn:Hd; [reflexivity|].
  destruct (find_placeholder s) as [name|]; [|reflexivity].
  pose proof (retrieve_state vt name) as Hs.
  unfold bind.
  destruct (retrieve name vt) as [[[[|c v]|]|e] vt']; cbn [snd] in Hs |- *;
    subst; reflexivity.
Qed.

Lemma retrieve_absent (vt : vault) (k : string) :
  isDestroyed vt = false -> map_get k (secrets vt) = None ->
  retrieve k vt = (Ok None, vt).
Proof. intros H E. run_method. rewrite H. cbn. rewrite E. reflexivity. Qed.

Lemma snd_bind_ret {A B} (c : M A) (f : A -> B) (vt : vault) :
  snd (bind c (fun x => ret (f x)) vt) = snd (c vt).
Proof. unfold bind, ret. destruct (c vt) as [[a|e] vt']; reflexivity. Qed.

(** The vault after one call. *)
Lemma perform_state (c : call) (vt : vault) :
  snd (perform c vt)
  = match c with
    | CallStore k v iv =>
        if isDestroyed vt then vt
        else with_secrets
               (map_set k
                  (to_hex iv ++ ":" ++ encrypt (encryptionKey vt) iv v)) vt
    | CallDelete k => with_secrets (map_remove k) vt
    | CallDestroy =>
        {| secrets := [];
           encryptionKey := List.map (fun _ => x00) (encryptionKey vt);
           isDestroyed := true |}
    | _ => vt
    end.
Proof.
  destruct c; cbn [Vault.perform]; rewrite ?snd_bind_ret.
  - destruct (isDestroyed vt) eqn:H.
    + rewrite store_destroyed by exact H. reflexivity.
    + rewrite store_active by exact H. reflexivity.
  - apply retrieve_state.
  - apply resolve_state.
  - run_method. destruct (isDestroyed vt); reflexivity.
  - reflexivity.
  - reflexivity.
  - reflexivity.
  - reflexivity.
Qed.

Lemma after_cons (c : call) (cs : list call) (vt : vault) :
  after (c :: cs) vt = after cs (snd (perform c vt)).
Proof. reflexivity. Qed.

(** Calls that neither store under [k], delete [k] nor destroy the vault
    leave the entry of [k], the key and the flag as they are. *)
Lemma perform_untouched (k : string) (c : call) (vt : vault) :
  untouched k c = true ->
  isDestroyed (snd (perform c vt)) = isDestroyed vt /\
  encryptionKey (snd (perform c vt)) = encryptionKey vt /\
  map_get k (secrets (snd (perform c vt))) = map_get k (secrets vt).
Proof.
  rewrite perform_state. destruct c; cbn [untouched]; intros H;
    try discriminate; try (repeat split; reflexivity).
  - apply negb_true_iff in H. destruct (isDestroyed vt) eqn:Hd; [auto|].
    cbn. repeat split; [exact Hd|]. apply map_get_set_other.
    destruct (String.eqb_spec k key); [discriminate | assumption].
  - apply negb_true_iff in H. cbn. repeat split.
    apply map_get_remove_other.
    destruct (String.eqb_spec k key); [discriminate | assumption].
Qed.

Lemma after_untouched (k : string) (cs : list call) :
  forall vt, forallb (untouched k) cs = true ->
  isDestroyed (after cs vt) = isDestroyed vt /\
  encryptionKey (after cs vt) = encryptionKey vt /\
  map_get k (secrets (after cs vt)) = map_get k (secrets vt).
Proof.
  induction cs as [|c cs IH]; intros vt H; [repeat split|].
  cbn [forallb] in H. apply andb_true_iff in H as [Hc Hcs].
  rewrite after_cons.
  destruct (IH (snd (perform c vt)) Hcs) as (A & B & C).
  destruct (perform_untouched k c vt Hc) as (A' & B' & C').
  repeat split; congruence.
Qed.

(** Once destroyed, always destroyed, and empty. *)
Lemma destroy_dead (vt : vault) : dead (snd (destroy vt)).
Proof.
  unfold dead. cbn. repeat split. rewrite List.map_map. reflexivity.
Qed.

Lemma perform_dead (c : call) (vt : vault) :
  dead vt -> dead (snd (perform c vt)).
Proof.
  intros (Hd & Hs & Hk). rewrite perform_state.
  destruct c; try (repeat split; assumption).
  - rewrite Hd. repeat split; assumption.
  - unfold dead. cbn. rewrite Hs. repeat split; assumption.
  - unfold dead. cbn. repeat split. rewrite List.map_map. reflexivity.
Qed.

(** The key keeps its length. *)
Lemma after_key_length (cs : list call) :
  forall vt,
    List.length (encryptionKey (after cs vt))
    = List.length (encryptionKey vt).
Proof.
  induction cs as [|c cs IH]; intros vt; [reflexivity|].
  rewrite after_cons, IH, perform_state.
  destruct c; try reflexivity.
  - destruct (isDestroyed vt); reflexivity.
  - cbn. apply List.length_map.
Qed.

Lemma after_dead (cs : list call) :
  forall vt, dead vt -> dead (after cs vt).
Proof.
  induction cs as [|c cs IH]; intros vt H; [exact H|].
  rewrite after_cons. apply IH, perform_dead, H.
Qed.

Lemma perform_dead_fixed (c : call) (d : vault) :
  dead d -> snd (perform c d) = d.
Proof.
  rewrite perform_state. destruct d as [s key fl].
  intros (Hd & Hs & Hk). cbn in Hd, Hs, Hk. subst.
  destruct c; try reflexivity. cbn. rewrite <- Hk. reflexivity.
Qed.

Lemma after_dead_fixed (cs : list call) (d : vault) :
  dead d -> after cs d = d.
Proof.
  intros H. induction cs as [|c cs IH]; [reflexivity|].
  rewrite after_cons, (perform_dead_fixed c d H). exact IH.
Qed.

Lemma map_zero_repeat (l : list byte) :
  List.map (fun _ => x00) l = List.repeat x00 (List.length l).
Proof.
  induction l as [|b l IH]; [reflexivity|]. cbn. rewrite IH. reflexivity.
Qed.

(** A key no call has stored is not in the map. *)
Lemma perform_never_stored (k : string) (c : call) (vt : vault) :
  stores k c = false -> map_get k (secrets vt) = None ->
  map_get k (secrets (snd (perform c vt))) = None.
Proof.
  rewrite perform_state. destruct c; cbn [stores]; intros H E; try exact E.
  - destruct (isDestroyed vt); [exact E|]. cbn.
    rewrite map_get_set_other; [exact E|].
    destruct (String.eqb_spec k key); [discriminate | assumption].
  - cbn. apply map_get_remove_none, E.
  - reflexivity.
Qed.

Lemma after_never_stored (k : string) (cs : list call) :
  forall vt, existsb (stores k) cs = false ->
  map_get k (secrets vt) = None ->
  map_get k (secrets (after cs vt)) = None.
Proof.
  induction cs as [|c cs IH]; intros vt H E; [exact E|].
  cbn [existsb] in H. apply orb_false_iff in H as [Hc Hcs].
  rewrite after_cons. apply IH; [exact Hcs|].
  apply perform_never_stored; assumption.
Qed.

(** Two entries with different vectors differ. *)
Lemma entry_injective (iv1 iv2 : list byte) (e1 e2 : string) :
  (to_hex iv1 ++ ":" ++ e1 = to_hex iv2 ++ ":" ++ e2)%string -> iv1 = iv2.
Proof.
  intros H. apply (f_equal split_colon) in H.
  rewrite !split_colon_entry in H by apply all_hex_to_hex.
  injection H as H _. apply (f_equal from_hex) in H.
  rewrite !from_hex_to_hex in H. exact H.
Qed.

(** C6 (amended): once [destroy()] has been called the vault stays
    destroyed and empty whatever is called next; from then on [store],
    [retrieve], [resolve] and [listKeys] throw, while [getStatus] does not:
    it returns a count of 0 with the destroyed flag set. *)
Theorem destroyed_vault_calls (vt : vault) (cs : list call) :
  let gone := after cs (snd (destroy vt)) in
  isDestroyed gone = true /\ secrets gone = [] /\
  (forall k v iv, store k v iv gone = (Throw VaultDestroyedError, gone)) /\
  (forall k, retrieve k gone = (Throw VaultDestroyedError, gone)) /\
  (forall s, resolve s gone = (Throw VaultDestroyedError, gone)) /\
  listKeys gone = (Throw VaultDestroyedError, gone) /\
  getStatus gone
  = (Ok {| secretCount := 0; status_isDestroyed := true |}, gone).
Proof.
  intros gone.
  destruct (after_dead cs _ (destroy_dead vt)) as (Hd & Hs & Hk).
  fold gone in Hd, Hs, Hk.
  split; [exact Hd|]. split; [exact Hs|].
  split; [intros; apply store_destroyed, Hd|].
  split; [intros; apply retrieve_destroyed, Hd|].
  split; [intros; apply resolve_destroyed, Hd|].
  split; [apply listKeys_destroyed, Hd|].
  run_method. rewrite Hs, Hd. reflexivity.
Qed.

(** [has] and [delete] have no guard either: on a destroyed vault they
    find nothing and return [false]. *)
Lemma destroyed_vault_has_delete (vt : vault) (cs : list call)
  (k : string) :
  let gone := after cs (snd (destroy vt)) in
  has k gone = (Ok false, gone) /\ delete k gone = (Ok false, gone).
Proof.
  intros gone.
  destruct (after_dead cs _ (destroy_dead vt)) as (Hd & Hs & Hk).
  fold gone in Hd, Hs, Hk. run_method. unfold map_has. rewrite Hs.
  split; [reflexivity|]. cbn. f_equal.
  destruct gone as [s key d]. cbn in Hs |- *. subst. reflexivity.
Qed.

(** C7: after [destroy()], every later [store], [retrieve] and [resolve]
    throws the error whose message is 'Vault has been destroyed'. *)
Theorem destroyed_vault_throws (vt : vault) (cs : list call)
  (k v s : string) (iv : list byte) :
  let gone := after cs (snd (destroy vt)) in
  fst (store k v iv gone) = Throw VaultDestroyedError /\
  fst (retrieve k gone) = Throw VaultDestroyedError /\
  fst (resolve s gone) = Throw VaultDestroyedError /\
  error_message VaultDestroyedError = Some "Vault has been destroyed".
Proof.
  intros gone.
  destruct (after_dead cs _ (destroy_dead vt)) as (Hd & _).
  fold gone in Hd.
  rewrite store_destroyed, retrieve_destroyed, resolve_destroyed
    by exact Hd.
  repeat split.
Qed.

(** Whatever the cipher, two [store] calls whose vectors differ leave
    different entries in the map: the entries start with the vectors. *)
Lemma store_entries_differ (vt1 vt2 : vault) (k1 k2 v : string)
  (iv1 iv2 : list byte) :
  isDestroyed vt1 = false -> isDestroyed vt2 = false -> iv1 <> iv2 ->
  exists e1 e2,
    map_get k1 (secrets (snd (store k1 v iv1 vt1))) = Some e1 /\
    map_get k2 (secrets (snd (store k2 v iv2 vt2))) = Some e2 /\
    e1 <> e2.
Proof.
  intros H1 H2 Hiv. rewrite !store_active by assumption.
  cbn [snd with_secrets secrets]. rewrite !map_get_set_same.
  eexists. eexists. split; [reflexivity|]. split; [reflexivity|].
  intros E. apply Hiv. exact (entry_injective _ _ _ _ E).
Qed.

(** C10: [destroy()] never throws; it leaves no secret, a key of zero
    bytes and the flag set; and called again, at once or after any other
    calls, it leaves the vault as the first call left it. *)
Theorem destroy_idempotent (vt : vault) (cs : list call) :
  let once := snd (destroy vt) in
  let later := after cs once in
  fst (destroy vt) = Ok tt /\
  secrets once = [] /\
  encryptionKey once
  = List.repeat x00 (List.length (encryptionKey vt)) /\
  isDestroyed once = true /\
  destroy once = (Ok tt, once) /\
  destroy later = (Ok tt, once) /\
  later = once.
Proof.
  intros once later.
  assert (Hlater : later = once)
    by apply after_dead_fixed, destroy_dead.
  assert (Honce : destroy once = (Ok tt, once)).
  { pose proof (perform_dead_fixed CallDestroy once (destroy_dead vt)) as H.
    rewrite perform_state in H. unfold destroy, update. rewrite H.
    reflexivity. }
  split; [reflexivity|]. split; [reflexivity|].
  split; [apply map_zero_repeat|]. split; [reflexivity|].
  split; [exact Honce|]. split; [|exact Hlater].
  rewrite Hlater. exact Honce.
Qed.

Section Correct.
(** The cipher decrypts what it encrypted, under a key of 32 bytes and a
    vector of 16, and writes its output in hex. *)
Hypothesis decrypt_encrypt : forall key iv v,
  List.length key = 32 -> List.length iv = 16 ->
  decrypt key iv (encrypt key iv v) = Some v.
Hypothesis encrypt_hex : forall key iv v,
  all_hex (encrypt key iv v) = true.

Lemma retrieve_entry (vt : vault) (k v : string) (iv : list byte) :
  isDestroyed vt = false ->
  List.length (encryptionKey vt) = 32 -> List.length iv = 16 ->
  map_get k (secrets vt)
  = Some (to_hex iv ++ ":" ++ encrypt (encryptionKey vt) iv v)%string ->
  retrieve k vt = (Ok (Some v), vt).
Proof.
  intros Ha Hk Hiv Hget. run_method. rewrite Ha. cbn [fst snd].
  rewrite Hget.
  destruct (to_hex iv ++ ":" ++ encrypt (encryptionKey vt) iv v)%string
    as [|c s] eqn:E.
  - destruct (to_hex iv); discriminate.
  - rewrite <- E. rewrite entry_vector by apply encrypt_hex.
    rewrite from_hex_to_hex, decrypt_encrypt by assumption. reflexivity.
Qed.

(** After [store(k, v)] and calls that leave [k] alone, [retrieve(k)]
    returns [v]. *)
Lemma retrieve_stored (vt : vault) (k v : string) (iv : list byte)
  (cs : list call) :
  isDestroyed vt = false ->
  List.length (encryptionKey vt) = 32 -> List.length iv = 16 ->
  forallb (untouched k) cs = true ->
  retrieve k (after cs (snd (store k v iv vt)))
  = (Ok (Some v), after cs (snd (store k v iv vt))).
Proof.
  intros Ha Hk Hiv Hcs.
  destruct (after_untouched k cs (snd (store k v iv vt)) Hcs)
    as (A & B & C).
  rewrite store_active in A, B, C |- * by exact Ha.
  cbn [snd with_secrets isDestroyed encryptionKey secrets] in A, B, C.
  rewrite map_get_set_same in C.
  cbn [snd].
  apply retrieve_entry with (iv := iv); try congruence.
Qed.

(** C3: on an active vault, [retrieve(k)] after [store(k, v)] returns
    exactly [v], also after later calls that neither store under [k],
    delete [k] nor destroy the vault; a second [store] under [k] replaces
    the first; and [retrieve(k)] returns [null] when no call has ever
    stored under [k].  (The cipher is assumed to decrypt what it
    encrypted.) *)
Theorem store_then_retrieve :
  (forall vt k v iv cs,
     isDestroyed vt = false ->
     List.length (encryptionKey vt) = 32 -> List.length iv = 16 ->
     forallb (untouched k) cs = true ->
     fst (store k v iv vt) = Ok tt /\
     retrieve k (after cs (snd (store k v iv vt)))
     = (Ok (Some v), after cs (snd (store k v iv vt)))) /\
  (forall vt k v0 iv0 v iv,
     isDestroyed vt = false ->
     List.length (encryptionKey vt) = 32 ->
     List.length iv0 = 16 -> List.length iv = 16 ->
     fst (retrieve k (snd (store k v iv (snd (store k v0 iv0 vt)))))
     = Ok (Some v)) /\
  (forall key cs k,
     existsb (stores k) cs = false ->
     isDestroyed (after cs (new_vault key)) = false ->
     retrieve k (after cs (new_vault key))
     = (Ok None, after cs (new_vault key))).
Proof.
  split; [|split].
  - intros vt k v iv cs Ha Hk Hiv Hcs. split.
    + rewrite store_active by exact Ha. reflexivity.
    + apply retrieve_stored; assumption.
  - intros vt k v0 iv0 v iv Ha Hk Hiv0 Hiv.
    assert (H1 : snd (store k v0 iv0 vt)
                 = with_secrets
                     (map_set k (to_hex iv0 ++ ":"
                                 ++ encrypt (encryptionKey vt) iv0 v0)) vt)
      by (rewrite store_active by exact Ha; reflexivity).
    pose proof (retrieve_stored (snd (store k v0 iv0 vt)) k v iv []) as H.
    rewrite H1 in H |- *. cbn [Vault.after fold_left] in H.
    rewrite H; auto.
  - intros key cs k Hcs Ha. apply retrieve_absent; [exact Ha|].
    apply after_never_stored; [exact Hcs | reflexivity].
Qed.

Lemma resolve_unfold (vt : vault) (reference : string) :
  resolve reference vt
  = if isDestroyed vt then (Throw VaultDestroyedError, vt)
    else match find_placeholder reference with
         | None => (Ok reference, vt)
         | Some name =>
             match retrieve name vt with
             | (Ok (Some (String c v)), vt') => (Ok (String c v), vt')
             | (Ok _, vt') => (Throw (SecretNotFoundError name), vt')
             | (Throw e, vt') => (Throw e, vt')
             end
         end.
Proof.
  unfold Vault.resolve, guard_destroyed, bind, this, throw, ret.
  destruct (isDestroyed vt); [reflexivity|].
  destruct (find_placeholder reference) as [name|]; [|reflexivity].
  destruct (Vault.retrieve decrypt name vt) as [[[[|c v]|]|e] vt'];
    reflexivity.
Qed.

Lemma resolve_plain (vt : vault) (reference : string) :
  isDestroyed vt = false -> find_placeholder reference = None ->
  resolve reference vt = (Ok reference, vt).
Proof. intros Ha E. rewrite resolve_unfold, Ha, E. reflexivity. Qed.

Lemma resolve_found (vt : vault) (reference name : string)
  (value : option string) :
  isDestroyed vt = false -> find_placeholder reference = Some name ->
  retrieve name vt = (Ok value, vt) ->
  resolve reference vt
  = match value with
    | None | Some "" => (Throw (SecretNotFoundError name), vt)
    | Some v => (Ok v, vt)
    end.
Proof.
  intros Ha E Hr. rewrite resolve_unfold, Ha, E, Hr.
  destruct value as [[|c v]|]; reflexivity.
Qed.

(** C8 (amended): on an active vault, [resolve] returns its input
    unchanged when the input contains no placeholder; otherwise it looks up
    the name of the leftmost placeholder (the one before which no other
    starts), throws the not-found error when no entry is stored under it,
    and when a non-empty value was stored under it returns that value
    alone, whatever surrounds the placeholder in the input: the value is
    substituted only in the sense that it is the whole result when the
    input is the placeholder itself. *)
Theorem resolve_cases (vt : vault) (reference : string) :
  isDestroyed vt = false ->
  (~ has_placeholder reference ->
     resolve reference vt = (Ok reference, vt)) /\
  (has_placeholder reference ->
     exists name, leftmost_placeholder reference name /\
       forall name', leftmost_placeholder reference name' ->
                     name' = name) /\
  (forall name,
     leftmost_placeholder reference name ->
     map_get name (secrets vt) = None ->
     resolve reference vt = (Throw (SecretNotFoundError name), vt)) /\
  (forall vt0 name v iv cs,
     leftmost_placeholder reference name ->
     vt = after cs (snd (store name v iv vt0)) ->
     isDestroyed vt0 = false ->
     List.length (encryptionKey vt0) = 32 -> List.length iv = 16 ->
     forallb (untouched name) cs = true ->
     v <> "" ->
     resolve reference vt = (Ok v, vt)) /\
  (forall name, name <> "" -> all_word name = true ->
     leftmost_placeholder ("{{secrets." ++ name ++ "}}") name).
Proof.
  intros Ha. split; [|split; [|split; [|split]]].
  - intros Hno. apply resolve_plain; [exact Ha|].
    apply find_placeholder_none, Hno.
  - apply leftmost_exists.
  - intros name Hl Hget. apply leftmost_found in Hl.
    rewrite (resolve_found vt reference name None Ha Hl); [reflexivity|].
    apply retrieve_absent; assumption.
  - intros vt0 name v iv cs Hl -> Ha0 Hk Hiv Hcs Hv.
    apply leftmost_found in Hl.
    rewrite (resolve_found _ reference name (Some v) Ha Hl).
    + destruct v; [contradiction | reflexivity].
    + apply retrieve_stored; assumption.
  - intros name Hne Hw. apply find_placeholder_leftmost.
    apply find_placeholder_exact; assumption.
Qed.

End Correct.
End Cipher.

End VaultFacts.

(** ** The vault on concrete inputs, with the stand-in cipher *)

Module VaultRuns.
Import Vault VaultFacts.
Import XorCipher.

Lemma xor_ascii_involutive (p c : ascii) : xor_ascii p (xor_ascii p c) = c.
Proof.
  destruct p, c. cbn. f_equal;
    match goal with |- xorb ?a (xorb ?a ?b) = ?b => destruct a, b end;
    reflexivity.
Qed.

Lemma xor_decrypt_encrypt (key iv : list byte) (v : string) :
  List.length key = 32 -> List.length iv = 16 ->
  XorCipher.decrypt key iv (XorCipher.encrypt key iv v) = Some v.
Proof.
  intros _ _. unfold XorCipher.decrypt, XorCipher.encrypt.
  rewrite from_hex_to_hex, List.map_map. f_equal.
  rewrite <- (string_of_list_ascii_of_string v) at 2. f_equal.
  rewrite <- (List.map_id (list_ascii_of_string v)) at 2.
  apply List.map_ext. intros c.
  rewrite ascii_of_byte_of_ascii. apply xor_ascii_involutive.
Qed.

Lemma xor_encrypt_hex (key iv : list byte) (v : string) :
  all_hex (XorCipher.encrypt key iv v) = true.
Proof. apply all_hex_to_hex. Qed.

(** Spec, section 8: [store("k", "v")] then [retrieve("k")] returns
    ["v"]; [resolve("plain text")] returns it unchanged;
    [resolve("{{secrets.missing}}")] throws. *)
Example vault_scenario :
  let vt := snd (store XorCipher.encrypt "k" "v" iv_a (new_vault key_a)) in
  fst (retrieve XorCipher.decrypt "k" vt) = Ok (Some "v") /\
  fst (resolve XorCipher.decrypt "plain text" vt) = Ok "plain text" /\
  fst (resolve XorCipher.decrypt "{{secrets.missing}}" vt)
  = Throw (SecretNotFoundError "missing") /\
  fst (resolve XorCipher.decrypt "{{secrets.k}}" vt) = Ok "v".
Proof. vm_compute. repeat split. Qed.

(** A secret that is the empty string is stored and retrieved, and yet
    [resolve] reports it as not found. *)
Example resolve_empty_secret :
  let vt := snd (store XorCipher.encrypt "pw" "" iv_a (new_vault key_a)) in
  fst (retrieve XorCipher.decrypt "pw" vt) = Ok (Some "") /\
  fst (resolve XorCipher.decrypt "{{secrets.pw}}" vt)
  = Throw (SecretNotFoundError "pw").
Proof. vm_compute. repeat split. Qed.

(** The round trip at a password stored in a new vault. *)
Lemma store_then_retrieve_witness :
  let stored :=
    snd (store XorCipher.encrypt "db_password" "s3cr3t-Pa55" iv_a
           (new_vault key_a)) in
  retrieve XorCipher.decrypt "db_password" stored
  = (Ok (Some "s3cr3t-Pa55"), stored).
Proof.
  destruct (store_then_retrieve XorCipher.encrypt XorCipher.decrypt
              xor_decrypt_encrypt xor_encrypt_hex) as [H _].
  destruct (H (new_vault key_a) "db_password" "s3cr3t-Pa55" iv_a []
              eq_refl eq_refl eq_refl eq_refl) as [_ Hr].
  exact Hr.
Defined.

(** C6, as stated, fails on [getStatus]: it does not test the destroyed
    flag, and on a destroyed vault it returns the status. *)
Lemma destroyed_vault_introspection :
  let gone := snd (destroy (new_vault key_a)) in
  isDestroyed gone = true /\
  getStatus gone
  = (Ok {| secretCount := 0; status_isDestroyed := true |}, gone) /\
  fails (getStatus gone) = false.
Proof. repeat split. Qed.

(** C8, as stated, fails on a placeholder with text around it: the value
    is returned alone, not substituted into the input. *)
Lemma resolve_drops_context :
  let vt :=
    snd (store XorCipher.encrypt "pw" "hunter2" iv_a (new_vault key_a)) in
  isDestroyed vt = false /\
  fst (resolve XorCipher.decrypt "db={{secrets.pw}};" vt) = Ok "hunter2" /\
  "hunter2" <> "db=hunter2;".
Proof. vm_compute. repeat split. discriminate. Qed.

(** [resolve] at a reference whose only placeholder names a stored
    password. *)
Lemma resolve_cases_witness :
  let vt :=
    snd (store XorCipher.encrypt "pw" "hunter2" iv_a (new_vault key_a)) in
  isDestroyed vt = false /\
  resolve XorCipher.decrypt "{{secrets.pw}}" vt = (Ok "hunter2", vt).
Proof.
  cbv zeta. split; [reflexivity|].
  destruct (resolve_cases XorCipher.encrypt XorCipher.decrypt
              xor_decrypt_encrypt xor_encrypt_hex
              (snd (store XorCipher.encrypt "pw" "hunter2" iv_a
                      (new_vault key_a)))
              "{{secrets.pw}}" eq_refl) as (_ & _ & _ & H & Hexact).
  apply (H (new_vault key_a) "pw" "hunter2" iv_a []);
    try reflexivity; [|discriminate].
  apply (Hexact "pw"); [discriminate | reflexivity].
Defined.

End VaultRuns.

(** ** Fresh vectors under cipher block chaining *)

Module CbcFacts.
Import Vault VaultFacts Cbc.

Lemma xor_ascii_cancel_l (p a b : ascii) :
  XorCipher.xor_ascii p a = XorCipher.xor_ascii p b -> a = b.
Proof.
  intros H. rewrite <- (VaultRuns.xor_ascii_involutive p a), H.
  apply VaultRuns.xor_ascii_involutive.
Qed.

Lemma xor_ascii_comm (a b : ascii) :
  XorCipher.xor_ascii a b = XorCipher.xor_ascii b a.
Proof.
  destruct a, b. cbn. f_equal; apply xorb_comm.
Qed.

Lemma xor_byte_cancel_l (x a b : byte) :
  xor_byte x a = xor_byte x b -> a = b.
Proof.
  unfold xor_byte. intros H.
  apply (f_equal ascii_of_byte) in H.
  rewrite !ascii_of_byte_of_ascii in H.
  apply xor_ascii_cancel_l in H.
  apply (f_equal byte_of_ascii) in H.
  rewrite !byte_of_ascii_of_byte in H. exact H.
Qed.

Lemma xor_byte_cancel_r (x a b : byte) :
  xor_byte a x = xor_byte b x -> a = b.
Proof.
  unfold xor_byte. rewrite (xor_ascii_comm (ascii_of_byte a)),
    (xor_ascii_comm (ascii_of_byte b)).
  apply xor_byte_cancel_l.
Qed.

Lemma xor_block_length (a b : list byte) :
  List.length a = List.length b ->
  List.length (xor_block a b) = List.length a.
Proof.
  revert b. induction a as [|x a IH]; intros [|y b] H;
    try discriminate H; [reflexivity|].
  cbn [xor_block List.length]. f_equal. apply IH.
  injection H as H. exact H.
Qed.

(** Xor with a block is one to one, on either side. *)
Lemma xor_block_cancel_l (a b1 b2 : list byte) :
  List.length b1 = List.length a -> List.length b2 = List.length a ->
  xor_block a b1 = xor_block a b2 -> b1 = b2.
Proof.
  revert b1 b2. induction a as [|x a IH]; intros [|y1 b1] [|y2 b2] H1 H2 E;
    try discriminate H1; try discriminate H2; [reflexivity|].
  cbn [xor_block] in E. injection E as Ex Eb.
  apply xor_byte_cancel_l in Ex. subst y2. f_equal.
  apply IH; [injection H1 as H1; exact H1
            | injection H2 as H2; exact H2 | exact Eb].
Qed.

Lemma xor_block_cancel_r (k a1 a2 : list byte) :
  List.length a1 = List.length k -> List.length a2 = List.length k ->
  xor_block a1 k = xor_block a2 k -> a1 = a2.
Proof.
  revert a1 a2. induction k as [|x k IH]; intros [|y1 a1] [|y2 a2] H1 H2 E;
    try discriminate H1; try discriminate H2; [reflexivity|].
  cbn [xor_block] in E. injection E as Ex Eb.
  apply xor_byte_cancel_r in Ex. subst y2. f_equal.
  apply IH; [injection H1 as H1; exact H1
            | injection H2 as H2; exact H2 | exact Eb].
Qed.

Lemma to_hex_injective (a b : list byte) : to_hex a = to_hex b -> a = b.
Proof.
  intros H. apply (f_equal from_hex) in H.
  rewrite !from_hex_to_hex in H. exact H.
Qed.

Lemma app_same_length {A : Type} (x x' r r' : list A) :
  List.length x = List.length x' -> x ++ r = x' ++ r' -> x = x'.
Proof.
  revert x'. induction x as [|a x IH]; intros [|a' x'] H E;
    try discriminate H; [reflexivity|].
  cbn [app] in E. injection E as -> E. f_equal.
  apply IH; [injection H as H; exact H | exact E].
Qed.

(** The padded value is never empty and fills whole blocks, so it has a
    first block of 16 bytes. *)
Lemma pad_length (bs : list byte) :
  16 <= List.length (pad bs) /\ List.length (pad bs) mod 16 = 0.
Proof.
  unfold pad. rewrite length_app, repeat_length.
  pose proof (Nat.mod_upper_bound (List.length bs) 16 ltac:(lia)) as Hlt.
  pose proof (Nat.div_mod_eq (List.length bs) 16) as Hd.
  split; [lia|].
  replace (List.length bs + (16 - List.length bs mod 16))
    with (16 + List.length bs / 16 * 16) by lia.
  rewrite Nat.Div0.mod_add. reflexivity.
Qed.

Lemma blocks_first (bs : list byte) :
  16 <= List.length bs ->
  exists rest,
    blocks (List.length bs) bs = firstn 16 bs :: rest /\
    List.length (firstn 16 bs) = 16.
Proof.
  intros H. destruct bs as [|b bs]; [cbn in H; lia|].
  cbn [List.length blocks]. eexists. split; [reflexivity|].
  rewrite length_firstn. cbn [List.length]. cbn [List.length] in H. lia.
Qed.

Section Chaining.
Variable aes : list byte -> list byte -> list byte.
Variable utf8 : string -> list byte.

(** AES-256 under a key of 32 bytes is a permutation of the blocks of 16
    bytes. *)
Hypothesis aes_block : forall key b,
  List.length key = 32 -> List.length b = 16 ->
  List.length (aes key b) = 16.
Hypothesis aes_injective : forall key b1 b2,
  List.length key = 32 -> List.length b1 = 16 -> List.length b2 = 16 ->
  aes key b1 = aes key b2 -> b1 = b2.

Local Abbreviation encrypt := (Cbc.encrypt aes utf8).

(** One value under one key and two vectors: two ciphertexts. *)
Lemma encrypt_fresh (key iv1 iv2 : list byte) (v : string) :
  List.length key = 32 ->
  List.length iv1 = 16 -> List.length iv2 = 16 -> iv1 <> iv2 ->
  encrypt key iv1 v <> encrypt key iv2 v.
Proof.
  intros Hk H1 H2 Hne E. apply Hne. unfold Cbc.encrypt in E.
  cbv zeta in E. apply to_hex_injective in E.
  destruct (pad_length (utf8 v)) as [Hlen _].
  destruct (blocks_first (pad (utf8 v)) Hlen) as (rest & Eb & Hb).
  rewrite Eb in E. cbn [chain] in E.
  assert (Hx1 : List.length (xor_block (firstn 16 (pad (utf8 v))) iv1) = 16)
    by (rewrite xor_block_length; congruence).
  assert (Hx2 : List.length (xor_block (firstn 16 (pad (utf8 v))) iv2) = 16)
    by (rewrite xor_block_length; congruence).
  apply app_same_length in E;
    [|rewrite !aes_block by assumption; reflexivity].
  apply aes_injective in E; try assumption.
  apply xor_block_cancel_l in E; [exact E | congruence | congruence].
Qed.

(** C9: two [store] calls of the same value on a vault, each with its own
    vector of 16 bytes, leave entries whose ciphertexts (the text after
    the colon) differ, and so do the entries as a whole.  The cipher is
    cipher block chaining over a block cipher that permutes the blocks,
    as AES-256 does. *)
Theorem fresh_vector_fresh_entry (vt1 vt2 : vault) (k1 k2 v : string)
  (iv1 iv2 : list byte) :
  isDestroyed vt1 = false -> isDestroyed vt2 = false ->
  encryptionKey vt2 = encryptionKey vt1 ->
  List.length (encryptionKey vt1) = 32 ->
  List.length iv1 = 16 -> List.length iv2 = 16 -> iv1 <> iv2 ->
  let c1 := encrypt (encryptionKey vt1) iv1 v in
  let c2 := encrypt (encryptionKey vt1) iv2 v in
  let e1 := (to_hex iv1 ++ ":" ++ c1)%string in
  let e2 := (to_hex iv2 ++ ":" ++ c2)%string in
  map_get k1 (secrets (snd (store encrypt k1 v iv1 vt1))) = Some e1 /\
  map_get k2 (secrets (snd (store encrypt k2 v iv2 vt2))) = Some e2 /\
  split_colon e1 = [to_hex iv1; c1] /\
  split_colon e2 = [to_hex iv2; c2] /\
  c1 <> c2 /\ e1 <> e2.
Proof.
  intros Ha1 Ha2 Hkey Hk H1 H2 Hne c1 c2 e1 e2.
  rewrite !store_active by assumption.
  cbn [snd with_secrets secrets]. rewrite !map_get_set_same, Hkey.
  split; [reflexivity|]. split; [reflexivity|].
  split; [apply entry_vector, all_hex_to_hex|].
  split; [apply entry_vector, all_hex_to_hex|].
  split; [apply encrypt_fresh; assumption|].
  intros E. apply Hne. exact (entry_injective _ _ _ _ E).
Qed.

End Chaining.

Lemma toy_block_length (key b : list byte) :
  List.length key = 32 -> List.length b = 16 ->
  List.length (toy_block key b) = 16.
Proof.
  intros Hk Hb. unfold toy_block. rewrite xor_block_length; [exact Hb|].
  rewrite length_firstn. lia.
Qed.

Lemma toy_block_injective (key b1 b2 : list byte) :
  List.length key = 32 -> List.length b1 = 16 -> List.length b2 = 16 ->
  toy_block key b1 = toy_block key b2 -> b1 = b2.
Proof.
  intros Hk H1 H2. unfold toy_block.
  apply xor_block_cancel_r; rewrite length_firstn; lia.
Qed.

(** Two stores of one value in one vault, under two vectors. *)
Lemma fresh_vector_fresh_entry_witness :
  let store := store (Cbc.encrypt toy_block ascii_bytes) in
  let once := snd (store "k" "v" XorCipher.iv_a
                     (new_vault XorCipher.key_a)) in
  map_get "k" (secrets once)
  = Some ("2a2a2a2a2a2a2a2a2a2a2a2a2a2a2a2a:"
          ++ "9fe6e6e6e6e6e6e6e6e6e6e6e6e6e6e6")%string /\
  map_get "k" (secrets (snd (store "k" "v" XorCipher.iv_b once)))
  = Some ("17171717171717171717171717171717:"
          ++ "a2dbdbdbdbdbdbdbdbdbdbdbdbdbdbdb")%string.
Proof.
  cbv zeta.
  destruct (fresh_vector_fresh_entry toy_block ascii_bytes
              toy_block_length toy_block_injective
              (new_vault XorCipher.key_a)
              (snd (store (Cbc.encrypt toy_block ascii_bytes) "k" "v"
                      XorCipher.iv_a (new_vault XorCipher.key_a)))
              "k" "k" "v" XorCipher.iv_a XorCipher.iv_b
              eq_refl eq_refl eq_refl eq_refl eq_refl eq_refl
              ltac:(intros H; cbv in H; discriminate H))
    as (E1 & E2 & _).
  split; [exact E1 | exact E2].
Defined.

End CbcFacts.

(** ** The readiness poller *)

Module PollerFacts.
Import Poller.

Section Polling.
Variable projectId : string.
Variable maxWaitTime : Z.
Variable startTime : Z.

Local Abbreviation polling := (polling projectId maxWaitTime startTime).

Lemma polling_deadline (rounds : list round) (now : Z) (done : nat) :
  (maxWaitTime <= now - startTime)%Z ->
  polling rounds now done
  = Some {| ended := NotReadyError projectId maxWaitTime;
            fetches := done; clock := now |}.
Proof.
  intros H. destruct rounds; cbn [Poller.polling];
    (replace (now - startTime <? maxWaitTime)%Z with false
       by (symmetry; apply Z.ltb_ge; exact H)); reflexivity.
Qed.

Lemma polling_healthy (r : round) (rest : list round) (now : Z)
  (done : nat) :
  (now - startTime < maxWaitTime)%Z -> healthy r = true ->
  polling (r :: rest) now done
  = Some {| ended := Ready; fetches := S done;
            clock := (now + latency r)%Z |}.
Proof.
  intros Ht Hh. cbn [Poller.polling].
  apply Z.ltb_lt in Ht. rewrite Ht. unfold healthy in Hh.
  destruct (response r) as [| |st]; try discriminate.
  rewrite Hh. reflexivity.
Qed.

Lemma polling_goes_on (r : round) (rest : list round) (now : Z)
  (done : nat) :
  (now - startTime < maxWaitTime)%Z -> healthy r = false ->
  polling (r :: rest) now done
  = polling rest (now + latency r + pollInterval + overrun r)%Z (S done).
Proof.
  intros Ht Hh. cbn [Poller.polling].
  apply Z.ltb_lt in Ht. rewrite Ht. unfold healthy in Hh.
  destruct (response r) as [| |st]; try reflexivity.
  rewrite Hh. reflexivity.
Qed.

Lemma advance_ge (rs : list round) :
  forall now, Forall clock_ok rs -> (now <= advance rs now)%Z.
Proof.
  induction rs as [|r rs IH]; intros now H; cbn [advance]; [lia|].
  inversion H as [|? ? [Hl Ho] Hrs]; subst.
  specialize (IH (now + latency r + pollInterval + overrun r)%Z Hrs).
  unfold pollInterval in *. lia.
Qed.

(** The first healthy status ends the call, if the deadline has not
    passed when it is fetched. *)
Lemma polling_ready (pre : list round) (r : round) (rest : list round) :
  forall now done,
    Forall clock_ok pre ->
    forallb (fun p => negb (healthy p)) pre = true ->
    healthy r = true ->
    (advance pre now - startTime < maxWaitTime)%Z ->
    polling (pre ++ r :: rest) now done
    = Some {| ended := Ready; fetches := S (List.length pre + done);
              clock := (advance pre now + latency r)%Z |}.
Proof.
  induction pre as [|p pre IH]; intros now done Hok Hun Hr Ht.
  - cbn [advance] in Ht. cbn [app advance List.length Nat.add].
    apply polling_healthy; assumption.
  - inversion Hok as [|? ? Hp Hpre]; subst.
    cbn [forallb] in Hun. apply andb_true_iff in Hun as [Hp' Hun].
    apply negb_true_iff in Hp'.
    pose proof (advance_ge (p :: pre) now Hok) as Hge.
    cbn [app]. rewrite polling_goes_on by (assumption || lia).
    cbn [advance] in Ht |- *.
    rewrite (IH _ (S done) Hpre Hun Hr Ht).
    cbn [List.length].
    replace (S (List.length pre) + done) with (List.length pre + S done)
      by lia.
    reflexivity.
Qed.

(** With no healthy status the call ends by the deadline error, within as
    many rounds as poll intervals fit in the time left. *)
Lemma polling_times_out (rounds : list round) :
  forall now done,
    Forall clock_ok rounds ->
    forallb (fun p => negb (healthy p)) rounds = true ->
    (maxWaitTime <= now - startTime
                    + pollInterval * Z.of_nat (List.length rounds))%Z ->
    exists n t,
      polling rounds now done
      = Some {| ended := NotReadyError projectId maxWaitTime;
                fetches := done + n; clock := t |} /\
      n <= List.length rounds /\ (maxWaitTime <= t - startTime)%Z.
Proof.
  induction rounds as [|r rounds IH]; intros now done Hok Hun Hfit.
  - cbn [List.length Z.of_nat] in Hfit.
    exists 0, now. rewrite polling_deadline by lia.
    rewrite Nat.add_0_r. repeat split; lia.
  - destruct (Z.lt_ge_cases (now - startTime) maxWaitTime) as [Ht|Ht].
    + inversion Hok as [|? ? [Hl Ho] Hrs]; subst.
      cbn [forallb] in Hun. apply andb_true_iff in Hun as [Hr Hun].
      apply negb_true_iff in Hr.
      rewrite polling_goes_on by assumption.
      destruct (IH (now + latency r + pollInterval + overrun r)%Z
                  (S done) Hrs Hun) as (n & t & E & Hn & Hd).
      { cbn [List.length] in Hfit. unfold pollInterval in *. lia. }
      exists (S n), t. rewrite E. cbn [List.length].
      replace (done + S n) with (S done + n) by lia.
      repeat split; lia.
    + exists 0, now. rewrite polling_deadline by lia.
      rewrite Nat.add_0_r. repeat split; lia.
Qed.

(** Given enough rounds the loop ends, and it ends in one of two ways. *)
Lemma polling_ends (rounds : list round) :
  forall now done,
    Forall clock_ok rounds ->
    (maxWaitTime <= now - startTime
                    + pollInterval * Z.of_nat (List.length rounds))%Z ->
    exists r,
      polling rounds now done = Some r /\
      (ended r = Ready \/ ended r = NotReadyError projectId maxWaitTime).
Proof.
  induction rounds as [|r rounds IH]; intros now done Hok Hfit.
  - cbn [List.length Z.of_nat] in Hfit.
    rewrite polling_deadline by lia. eexists. split; [reflexivity|].
    right. reflexivity.
  - destruct (Z.lt_ge_cases (now - startTime) maxWaitTime) as [Ht|Ht].
    + inversion Hok as [|? ? [Hl Ho] Hrs]; subst.
      destruct (healthy r) eqn:Hr.
      * rewrite polling_healthy by assumption. eexists.
        split; [reflexivity|]. left. reflexivity.
      * rewrite polling_goes_on by assumption. apply IH; [exact Hrs|].
        cbn [List.length] in Hfit. unfold pollInterval in *. lia.
    + rewrite polling_deadline by lia. eexists. split; [reflexivity|].
      right. reflexivity.
Qed.

End Polling.

(** Spec, section 8: the statuses pending, pending, active end the call
    at the third fetch; statuses that stay pending under
    [maxWaitTime = 2 * pollInterval] end it by the deadline error. *)
Example pending_pending_active :
  waitForProjectReady "ref" None 1000
    [prompt (Status "COMING_UP"); prompt (Status "COMING_UP");
     prompt (Status "ACTIVE_HEALTHY")]
  = Some {| ended := Ready; fetches := 3; clock := 11000 |}.
Proof. reflexivity. Qed.

Example never_ready :
  waitForProjectReady "ref" (Some 10000%Z) 1000
    (List.repeat (prompt (Status "COMING_UP")) 5)
  = Some {| ended := NotReadyError "ref" 10000; fetches := 2;
            clock := 11000 |}.
Proof. reflexivity. Qed.

(** C4, as stated, fails on a status that tells of a failed project: the
    loop has no test for it and polls on, so the call ends [Ready] when a
    healthy status follows and by the deadline error when none does. *)
Lemma failed_status_keeps_polling :
  waitForProjectReady "ref" None 0
    [prompt (Status "INIT_FAILED"); prompt (Status "ACTIVE_HEALTHY")]
  = Some {| ended := Ready; fetches := 2; clock := 5000 |} /\
  waitForProjectReady "ref" (Some 10000%Z) 0
    (List.repeat (prompt (Status "INIT_FAILED")) 4)
  = Some {| ended := NotReadyError "ref" 10000; fetches := 2;
            clock := 10000 |}.
Proof. split; reflexivity. Qed.

(** C4 (amended): [waitForProjectReady] returns as soon as a fetched
    status is ACTIVE_HEALTHY, the deadline not having passed at the loop
    test before that fetch; every other round, whether the fetch throws,
    the response is not ok or the status is anything else (one that tells
    of a failure too), only makes it sleep and poll again; when no
    healthy status comes it throws the error that names the project and
    the configured [maxWaitTime], at the first loop test at which that
    much time has passed; and it ends in no other way. *)
Theorem waitForProjectReady_outcomes (projectId : string)
  (maxWaitTime : option Z) (startTime : Z) :
  let limit := limit_of maxWaitTime in
  let wait := waitForProjectReady projectId maxWaitTime startTime in
  (forall pre r rest,
     Forall clock_ok pre ->
     forallb (fun p => negb (healthy p)) pre = true ->
     healthy r = true ->
     (advance pre startTime - startTime < limit)%Z ->
     wait (pre ++ r :: rest)
     = Some {| ended := Ready; fetches := S (List.length pre);
               clock := (advance pre startTime + latency r)%Z |}) /\
  (forall rounds,
     Forall clock_ok rounds ->
     forallb (fun p => negb (healthy p)) rounds = true ->
     (limit <= pollInterval * Z.of_nat (List.length rounds))%Z ->
     exists n t,
       wait rounds
       = Some {| ended := NotReadyError projectId limit;
                 fetches := n; clock := t |} /\
       n <= List.length rounds /\ (limit <= t - startTime)%Z) /\
  (forall rounds,
     Forall clock_ok rounds ->
     (limit <= pollInterval * Z.of_nat (List.length rounds))%Z ->
     exists r,
       wait rounds = Some r /\
       (ended r = Ready \/ ended r = NotReadyError projectId limit)).
Proof.
  intros limit wait. unfold wait, waitForProjectReady. fold limit.
  split; [|split].
  - intros pre r rest Hok Hun Hr Ht.
    rewrite (polling_ready projectId limit startTime pre r rest
               startTime 0 Hok Hun Hr Ht).
    rewrite Nat.add_0_r. reflexivity.
  - intros rounds Hok Hun Hfit.
    destruct (polling_times_out projectId limit startTime rounds
                startTime 0 Hok Hun) as (n & t & E & Hn & Ht); [lia|].
    exists n, t. rewrite E. auto.
  - intros rounds Hok Hfit.
    apply polling_ends; [exact Hok | lia].
Qed.

Lemma prompt_ok (f : fetched) : clock_ok (prompt f).
Proof. unfold clock_ok. cbn. lia. Qed.

(** The theorem at a fetch that throws, followed by a healthy status. *)
Lemma waitForProjectReady_outcomes_witness :
  waitForProjectReady "ref" None 0
    [prompt FetchThrows; prompt (Status "ACTIVE_HEALTHY")]
  = Some {| ended := Ready; fetches := 2; clock := 5000 |}.
Proof.
  destruct (waitForProjectReady_outcomes "ref" None 0) as [H _].
  apply (H [prompt FetchThrows] (prompt (Status "ACTIVE_HEALTHY")) []).
  - constructor; [apply prompt_ok | constructor].
  - reflexivity.
  - reflexivity.
  - reflexivity.
Defined.
End PollerFacts.

(** ** Tool dispatch *)

Module DispatchFacts.
Import Dispatch.
Import Dispatch.GitHub(Data, ApiThrows).

Ltac by_name name :=
  repeat match goal with
         | |- context [String.eqb name ?s] =>
             destruct (String.eqb_spec name s); cbn [orb]
         end.

Section GitHubServer.
Variables createRepository createSecret pushFiles : handler.

Local Abbreviation route :=
  (GitHub.route createRepository createSecret pushFiles).
Local Abbreviation call_tool :=
  (GitHub.call_tool createRepository createSecret pushFiles).

(** The [default] case of the [switch] is taken by the names that are not
    those of the listed tools. *)
Lemma github_route_registered (name : string) :
  route name = None <-> registered GitHub.tools name = false.
Proof.
  unfold GitHub.route, registered, GitHub.tools.
  cbn [existsb tool_name]. rewrite !(String.eqb_sym _ name).
  by_name name; split; intros; congruence.
Qed.

Lemma github_call_tool_eq (name : string) (args : js_value) :
  call_tool name args
  = match route name with
    | None =>
        Responds (respond (Failure (Some ("Unknown tool: " ++ name)%string)))
    | Some h =>
        match h args with
        | Returns r => Responds r
        | Throws e => GitHub.recover e
        end
    end.
Proof.
  unfold GitHub.call_tool, GitHub.attempt.
  destruct (route name); reflexivity.
Qed.

Lemma github_listed (t : tool) :
  In t GitHub.tools -> exists h, route (tool_name t) = Some h.
Proof.
  intros [<-|[<-|[<-|[]]]]; cbn; eauto.
Qed.

(** A listed name is one of the [case] labels, and the [switch] calls the
    method written under that label. *)
Lemma github_registered_pinned (name : string) :
  registered GitHub.tools name = true ->
  exists h, In (name, h) [ ("create_repository", createRepository);
                           ("create_secret", createSecret);
                           ("push_files", pushFiles) ].
Proof.
  unfold registered, GitHub.tools. cbn [existsb tool_name].
  rewrite !(String.eqb_sym _ name).
  by_name name; subst; cbn [In]; intros H; try discriminate H; eauto 6.
Qed.

Lemma github_call_tool_pinned (name : string) (h : handler)
  (args : js_value) :
  In (name, h) [ ("create_repository", createRepository);
                 ("create_secret", createSecret);
                 ("push_files", pushFiles) ] ->
  call_tool name args
  = match h args with
    | Returns r => Responds r
    | Throws e => GitHub.recover e
    end.
Proof.
  intros [E|[E|[E|[]]]]; injection E as <- <-; reflexivity.
Qed.

End GitHubServer.

Section SupabaseServer.
Variables createProject executeSQL configureAuthProvider getProjectInfo
  : handler.

Local Abbreviation route :=
  (Supabase.route createProject executeSQL configureAuthProvider
     getProjectInfo).
Local Abbreviation call_tool :=
  (Supabase.call_tool createProject executeSQL configureAuthProvider
     getProjectInfo).

Lemma supabase_route_registered (name : string) :
  route name = None <-> registered Supabase.tools name = false.
Proof.
  unfold Supabase.route, registered, Supabase.tools.
  cbn [existsb tool_name]. rewrite !(String.eqb_sym _ name).
  by_name name; split; intros; congruence.
Qed.

Lemma supabase_call_tool_eq (name : string) (args : js_value) :
  call_tool name args
  = match route name with
    | None =>
        Responds (respond (Failure (Some ("Unknown tool: " ++ name)%string)))
    | Some h =>
        match h args with
        | Returns r => Responds r
        | Throws e => Supabase.recover e
        end
    end.
Proof.
  unfold Supabase.call_tool, Supabase.attempt.
  destruct (route name); reflexivity.
Qed.

Lemma supabase_listed (t : tool) :
  In t Supabase.tools -> exists h, route (tool_name t) = Some h.
Proof.
  intros [<-|[<-|[<-|[<-|[]]]]]; cbn; eauto.
Qed.

Lemma supabase_registered_pinned (name : string) :
  registered Supabase.tools name = true ->
  exists h, In (name, h) [ ("create_project", createProject);
                           ("execute_sql", executeSQL);
                           ("configure_auth_provider",
                            configureAuthProvider);
                           ("get_project_info", getProjectInfo) ].
Proof.
  unfold registered, Supabase.tools. cbn [existsb tool_name].
  rewrite !(String.eqb_sym _ name).
  by_name name; subst; cbn [In]; intros H; try discriminate H; eauto 7.
Qed.

Lemma supabase_call_tool_pinned (name : string) (h : handler)
  (args : js_value) :
  In (name, h) [ ("create_project", createProject);
                 ("execute_sql", executeSQL);
                 ("configure_auth_provider", configureAuthProvider);
                 ("get_project_info", getProjectInfo) ] ->
  call_tool name args
  = match h args with
    | Returns r => Responds r
    | Throws e => Supabase.recover e
    end.
Proof.
  intros [E|[E|[E|[E|[]]]]]; injection E as <- <-; reflexivity.
Qed.

End SupabaseServer.

Lemma createRepository_success (kit : GitHub.octokit) (args : js_value)
  (r : tool_response) :
  GitHub.createRepository kit args = Returns r ->
  exists fields, r = respond (Success fields).
Proof.
  unfold GitHub.createRepository, GitHub.repository_created.
  destruct args; try discriminate;
    (destruct (GitHub.users_getAuthenticated kit); [|discriminate]);
    match goal with
    | |- context [match ?c with Data _ => _ | ApiThrows _ => _ end] =>
        destruct c; [|discriminate]
    end;
    intros H; injection H as <-; eauto.
Qed.

(** C1: both request handlers answer a name that is not one of the listed
    tools by the failure envelope 'Unknown tool: <name>'; a listed name
    reaches the method the [switch] names for it; when that method throws
    an error the answer is the failure envelope that carries the error's
    message, and when it returns, what it returned, which for
    [createRepository] is a success envelope.  No exception leaves the
    Supabase handler, whatever is thrown.  The GitHub handler reads
    [error.message] without the test the other two servers make: when
    what is thrown is [null] or [undefined] its [catch] block throws, and
    the request is rejected with that [TypeError]. *)
Theorem call_tool_envelope :
  (forall createRepository createSecret pushFiles name args,
     let call := GitHub.call_tool createRepository createSecret pushFiles in
     let table := [ ("create_repository", createRepository);
                    ("create_secret", createSecret);
                    ("push_files", pushFiles) ] in
     (registered GitHub.tools name = false ->
        call name args
        = Responds
            (respond (Failure (Some ("Unknown tool: " ++ name)%string)))) /\
     (registered GitHub.tools name = true ->
        exists h, In (name, h) table) /\
     (forall h, In (name, h) table ->
        (forall r, h args = Returns r -> call name args = Responds r) /\
        (forall m, h args = Throws (JsError m) ->
           call name args = Responds (respond (Failure (Some m)))) /\
        (forall m, h args = Throws (JsNonError m) ->
           call name args = Responds (respond (Failure m))) /\
        (h args = Throws JsNull ->
           call name args
           = Propagates
               (JsError
                  "Cannot read properties of null (reading 'message')")) /\
        (h args = Throws JsUndefined ->
           call name args
           = Propagates
               (JsError
                  "Cannot read properties of undefined (reading 'message')")))) /\
  (forall createProject executeSQL configureAuthProvider getProjectInfo
          name args,
     let call := Supabase.call_tool createProject executeSQL
                   configureAuthProvider getProjectInfo in
     let table := [ ("create_project", createProject);
                    ("execute_sql", executeSQL);
                    ("configure_auth_provider", configureAuthProvider);
                    ("get_project_info", getProjectInfo) ] in
     (registered Supabase.tools name = false ->
        call name args
        = Responds
            (respond (Failure (Some ("Unknown tool: " ++ name)%string)))) /\
     (registered Supabase.tools name = true ->
        exists h, In (name, h) table) /\
     (forall h, In (name, h) table ->
        (forall r, h args = Returns r -> call name args = Responds r) /\
        (forall m, h args = Throws (JsError m) ->
           call name args = Responds (respond (Failure (Some m)))) /\
        (forall e, h args = Throws e -> (forall m, e <> JsError m) ->
           call name args
           = Responds (respond (Failure (Some "Unknown error"))))) /\
     (exists r, call name args = Responds r)) /\
  (forall kit createSecret pushFiles args r,
     GitHub.createRepository kit args = Returns r ->
     GitHub.call_tool (GitHub.createRepository kit) createSecret pushFiles
       "create_repository" args = Responds r /\
     exists fields, r = respond (Success fields)).
Proof.
  split; [|split].
  - intros cr cs pf name args call table. unfold call, table.
    split; [|split].
    + intros H. rewrite github_call_tool_eq.
      apply (proj2 (github_route_registered cr cs pf name)) in H.
      rewrite H. reflexivity.
    + apply github_registered_pinned.
    + intros h Hin. rewrite (github_call_tool_pinned cr cs pf name h args Hin).
      split; [|split; [|split; [|split]]].
      * intros r ->. reflexivity.
      * intros m ->. reflexivity.
      * intros m ->. reflexivity.
      * intros ->. reflexivity.
      * intros ->. reflexivity.
  - intros cp ex ca gi name args call table. unfold call, table.
    split; [|split; [|split]].
    + intros H. rewrite supabase_call_tool_eq.
      apply (proj2 (supabase_route_registered cp ex ca gi name)) in H.
      rewrite H. reflexivity.
    + apply supabase_registered_pinned.
    + intros h Hin.
      rewrite (supabase_call_tool_pinned cp ex ca gi name h args Hin).
      split; [|split].
      * intros r ->. reflexivity.
      * intros m ->. reflexivity.
      * intros e -> Hne. destruct e as [m|m| |]; try reflexivity.
        exfalso. exact (Hne m eq_refl).
    + rewrite supabase_call_tool_eq.
      destruct (Supabase.route cp ex ca gi name) as [h|]; [|eauto].
      destruct (h args) as [r|[m|m| |]]; cbn; eauto.
  - intros kit cs pf args r H. split.
    + rewrite github_call_tool_eq. cbn. rewrite H. reflexivity.
    + exact (createRepository_success kit args r H).
Qed.

(** The failing input of C1: [create_repository] is called while GitHub
    rejects the first request of the handler with [null].  The GitHub
    request handler is rejected with the [TypeError] of its [catch] block;
    the Supabase handler, given a tool that throws the same, answers with
    a failure envelope. *)
Lemma call_tool_envelope_witness :
  GitHub.call_tool (GitHub.createRepository GitHub.null_rejecting_kit)
    (rejected "Not Found") (rejected "Not Found") "create_repository"
    (JObj [("name", JStr "demo"); ("description", JStr "a demo")])
  = Propagates
      (JsError "Cannot read properties of null (reading 'message')") /\
  Supabase.call_tool (fun _ => Throws JsNull) (rejected "Unauthorized")
    (rejected "Unauthorized") (rejected "Unauthorized") "create_project"
    (JObj [("name", JStr "demo"); ("db_password", JStr "long-enough-pw")])
  = Responds (respond (Failure (Some "Unknown error"))).
Proof.
  destruct call_tool_envelope as (G & S & _). split.
  - destruct (G (GitHub.createRepository GitHub.null_rejecting_kit)
                (rejected "Not Found") (rejected "Not Found")
                "create_repository"
                (JObj [("name", JStr "demo");
                       ("description", JStr "a demo")]))
      as (_ & _ & H).
    destruct (H (GitHub.createRepository GitHub.null_rejecting_kit)
                (or_introl eq_refl)) as (_ & _ & _ & Hnull & _).
    apply Hnull. reflexivity.
  - destruct (S (fun _ => Throws JsNull) (rejected "Unauthorized")
                (rejected "Unauthorized") (rejected "Unauthorized")
                "create_project"
                (JObj [("name", JStr "demo");
                       ("db_password", JStr "long-enough-pw")]))
      as (_ & _ & H & _).
    destruct (H (fun _ => Throws JsNull) (or_introl eq_refl))
      as (_ & _ & Hother).
    apply (Hother JsNull); [reflexivity | discriminate].
Defined.

(** Spec, section 8: a handler that throws does not stop the server: the
    next call is answered as usual. *)
Example calls_after_a_failure :
  let call := GitHub.call_tool (GitHub.createRepository GitHub.accepting_kit)
                (rejected "Not Found") (rejected "Not Found") in
  call "create_secret" (JObj [])
  = Responds (respond (Failure (Some "Not Found"))) /\
  exists fields,
       call "create_repository"
         (JObj [("name", JStr "demo"); ("description", JStr "a demo")])
       = Responds (respond (Success fields)).
Proof. split; [reflexivity | eexists; reflexivity]. Qed.

(** C5, as stated, fails: no request handler looks at the schema.  Here
    [create_repository] is called without the [description] its schema
    requires; the handler runs, GitHub accepts the call, and the answer
    is a success envelope. *)
Lemma missing_field_reaches_handler :
  let t := {| tool_name := "create_repository";
              required := ["name"; "description"] |} in
  let args := JObj [("name", JStr "demo")] in
  In t GitHub.tools /\ missing_required t args = true /\
  forall createSecret pushFiles,
    GitHub.call_tool (GitHub.createRepository GitHub.accepting_kit)
      createSecret pushFiles "create_repository" args
    = Responds (respond (Success
        [ ("repo_url", JStr "https://github.com/octocat/demo");
          ("clone_url", JStr "https://github.com/octocat/demo.git");
          ("ssh_url", JStr "git@github.com:octocat/demo.git");
          ("owner", JStr "octocat");
          ("repo_name", JStr "demo") ])).
Proof.
  cbv zeta. split; [left; reflexivity|]. split; reflexivity.
Qed.

(** C5 (amended): the request handlers do not check the arguments against
    the schema.  Every listed tool has its method in the [switch], and
    when the tool is called with arguments from which a field its schema
    requires is missing, that method is run on the arguments as they
    came: the answer is what the method returns or, when it throws an
    error, the failure envelope with the message of that error. *)
Theorem call_tool_runs_handler :
  (forall createRepository createSecret pushFiles t,
     In t GitHub.tools ->
     exists h,
       In (tool_name t, h)
          [ ("create_repository", createRepository);
            ("create_secret", createSecret);
            ("push_files", pushFiles) ] /\
       forall args, missing_required t args = true ->
         (forall r, h args = Returns r ->
            GitHub.call_tool createRepository createSecret pushFiles
              (tool_name t) args = Responds r) /\
         (forall m, h args = Throws (JsError m) ->
            GitHub.call_tool createRepository createSecret pushFiles
              (tool_name t) args
            = Responds (respond (Failure (Some m))))) /\
  (forall createProject executeSQL configureAuthProvider getProjectInfo t,
     In t Supabase.tools ->
     exists h,
       In (tool_name t, h)
          [ ("create_project", createProject);
            ("execute_sql", executeSQL);
            ("configure_auth_provider", configureAuthProvider);
            ("get_project_info", getProjectInfo) ] /\
       forall args, missing_required t args = true ->
         (forall r, h args = Returns r ->
            Supabase.call_tool createProject executeSQL
              configureAuthProvider getProjectInfo (tool_name t) args
            = Responds r) /\
         (forall m, h args = Throws (JsError m) ->
            Supabase.call_tool createProject executeSQL
              configureAuthProvider getProjectInfo (tool_name t) args
            = Responds (respond (Failure (Some m))))).
Proof.
  split.
  - intros cr cs pf t Ht.
    destruct (github_registered_pinned cr cs pf (tool_name t))
      as [h Hin].
    { unfold registered. apply existsb_exists. exists t.
      split; [exact Ht | apply String.eqb_refl]. }
    exists h. split; [exact Hin|]. intros args _.
    rewrite (github_call_tool_pinned cr cs pf _ h args Hin).
    split; [intros r -> | intros m ->]; reflexivity.
  - intros cp ex ca gi t Ht.
    destruct (supabase_registered_pinned cp ex ca gi (tool_name t))
      as [h Hin].
    { unfold registered. apply existsb_exists. exists t.
      split; [exact Ht | apply String.eqb_refl]. }
    exists h. split; [exact Hin|]. intros args _.
    rewrite (supabase_call_tool_pinned cp ex ca gi _ h args Hin).
    split; [intros r -> | intros m ->]; reflexivity.
Qed.

(** The theorem at [get_project_info] called with no argument, the vendor
    answering that there is no such project. *)
Lemma call_tool_runs_handler_witness :
  Supabase.call_tool (rejected "Unauthorized") (rejected "Unauthorized")
    (rejected "Unauthorized") (rejected "Project not found")
    "get_project_info" (JObj [])
  = Responds (respond (Failure (Some "Project not found"))).
Proof.
  destruct call_tool_runs_handler as [_ S].
  destruct (S (rejected "Unauthorized") (rejected "Unauthorized")
              (rejected "Unauthorized") (rejected "Project not found")
              {| tool_name := "get_project_info";
                 required := ["project_ref"] |})
    as (h & Hin & Hcall).
  - right. right. right. left. reflexivity.
  - cbn [tool_name] in Hin, Hcall.
    destruct (Hcall (JObj []) eq_refl) as [_ Hthrow].
    apply Hthrow.
    destruct Hin as [E|[E|[E|[E|[]]]]]; try discriminate E.
    injection E as <-. reflexivity.
Defined.

End DispatchFacts.

(** ** More on the retry engine *)

Module RetryMore.
Import Retry RetryFacts.

Section Runs.
Context {T : Type}.
Variable fn : nat -> attempted T.
Variable o : options.

Lemma sum_backoff (d : Z) (l : list Z) :
  forall a : nat,
    (forall j, j < List.length l ->
       nth_error l j = Some (d * 2 ^ Z.of_nat (a + j))%Z) ->
    fold_right Z.add 0%Z l
    = (d * 2 ^ Z.of_nat a * (2 ^ Z.of_nat (List.length l) - 1))%Z.
Proof.
  induction l as [|x l IH]; intros a H.
  - cbn. lia.
  - pose proof (H 0 ltac:(cbn; lia)) as H0. cbn in H0.
    injection H0 as ->. rewrite Nat.add_0_r.
    cbn [fold_right List.length]. rewrite (IH (S a)).
    + rewrite !Nat2Z.inj_succ, !Z.pow_succ_r by lia. ring.
    + intros j Hj. specialize (H (S j) ltac:(cbn; lia)). cbn in H.
      rewrite H. do 3 f_equal. lia.
Qed.

(** X1: with [maxRetries >= 0], [initialDelayMs >= 1] and
    [initialDelayMs * 2 ^ (maxRetries - 1)] at most [2^31 - 1], every
    delay [withRetry] hands to [setTimeout] lies between 1 and [2^31 - 1]
    (the delays a timer of Node takes as they are), and the delays add up
    to [initialDelayMs * (2 ^ retries - 1)], [retries] being the number
    of calls after the first, which is at most
    [initialDelayMs * (2 ^ maxRetries - 1)]. *)
Theorem withRetry_total_backoff :
  (0 <= maxRetries o)%Z -> (1 <= initialDelayMs o)%Z ->
  (initialDelayMs o * 2 ^ (maxRetries o - 1) <= 2147483647)%Z ->
  let r := withRetry fn o in
  Forall (fun d => 1 <= d <= 2147483647)%Z (delays r) /\
  total_delay r
  = (initialDelayMs o * (2 ^ Z.of_nat (calls r - 1) - 1))%Z /\
  (total_delay r <= initialDelayMs o * (2 ^ maxRetries o - 1))%Z.
Proof.
  intros Hmax Hd Htop r.
  destruct (withRetry_shape fn o Hmax) as [[C D R _ _] Hle].
  fold r in C, D, R, Hle.
  assert (E : total_delay r
              = (initialDelayMs o * (2 ^ Z.of_nat (calls r - 1) - 1))%Z).
  { unfold total_delay. rewrite (sum_backoff (initialDelayMs o) _ 0).
    - rewrite D. cbn [Z.of_nat]. rewrite Z.pow_0_r. ring.
    - intros j Hj. destruct (R j) as (e & _ & _ & Hdj); [lia|]. exact Hdj. }
  split; [|split; [exact E|]].
  - apply Forall_forall. intros d Hin.
    apply In_nth_error in Hin as [j Hj].
    assert (Hlt : j < calls r - 1).
    { rewrite <- D. apply nth_error_Some. congruence. }
    destruct (R j) as (e & _ & _ & Hdj); [exact Hlt|].
    cbn [Nat.add] in Hdj. rewrite Hj in Hdj. injection Hdj as ->.
    assert (H1 : (1 <= 2 ^ Z.of_nat j)%Z)
      by (apply (Z.pow_le_mono_r 2 0 (Z.of_nat j)); lia).
    assert (H2 : (2 ^ Z.of_nat j <= 2 ^ (maxRetries o - 1))%Z)
      by (apply Z.pow_le_mono_r; lia).
    split; [nia|].
    apply Z.le_trans
      with (m := (initialDelayMs o * 2 ^ (maxRetries o - 1))%Z);
      [|exact Htop].
    apply Z.mul_le_mono_nonneg_l; [lia | exact H2].
  - rewrite E.
    apply Z.mul_le_mono_nonneg_l; [lia|].
    apply Z.sub_le_mono_r. apply Z.pow_le_mono_r; lia.
Qed.

Lemma withRetry_negative :
  (maxRetries o < 0)%Z ->
  withRetry fn o
  = {| result := Rejected {| message := "No attempts made";
                             status := Undefined;
                             statusCode := Undefined |};
       calls := 0; delays := [] |}.
Proof.
  intros H. unfold withRetry.
  replace (Z.to_nat (maxRetries o + 1)) with 0 by lia. reflexivity.
Qed.

(** X2: [withRetry] leaves the operation uncalled exactly when
    [maxRetries] is negative, and then it throws the error 'No attempts
    made' without having slept. *)
Theorem withRetry_no_attempts :
  (calls (withRetry fn o) = 0 <-> (maxRetries o < 0)%Z) /\
  ((maxRetries o < 0)%Z ->
   withRetry fn o
   = {| result := Rejected {| message := "No attempts made";
                              status := Undefined;
                              statusCode := Undefined |};
        calls := 0; delays := [] |}).
Proof.
  split; [split|exact withRetry_negative].
  - intros Hc.
    destruct (Z.lt_ge_cases (maxRetries o) 0) as [Hneg|Hmax];
      [exact Hneg|].
    destruct (withRetry_shape fn o Hmax) as [[C _ _ _ _] _]. lia.
  - intros Hneg. rewrite (withRetry_negative Hneg). reflexivity.
Qed.

Lemma attempts_first_success (v : T) (k : nat) :
  forall (a rounds : nat) (last : js_error),
    k < rounds ->
    (Z.of_nat (a + k) <= maxRetries o)%Z ->
    fn (a + k) = Resolved v ->
    (forall i, i < k ->
       exists e, fn (a + i) = Rejected e /\ retryable o e = true) ->
    attempts fn o rounds (Z.of_nat a) last
    = {| result := Resolved v; calls := S k;
         delays := List.map
                     (fun j => (initialDelayMs o * 2 ^ Z.of_nat j)%Z)
                     (seq a k) |}.
Proof.
  induction k as [|k IH]; intros a rounds last Hr Hmax Hv Hpre;
    (destruct rounds as [|rounds]; [lia|]);
    rewrite attempts_S, Nat2Z.id.
  - rewrite Nat.add_0_r in Hv. rewrite Hv. reflexivity.
  - destruct (Hpre 0) as (e & He & Hre); [lia|].
    rewrite Nat.add_0_r in He. rewrite He, Hre.
    replace (Z.of_nat a <? maxRetries o)%Z with true
      by (symmetry; apply Z.ltb_lt; lia).
    cbn [andb].
    replace (Z.of_nat a + 1)%Z with (Z.of_nat (S a)) by lia.
    rewrite (IH (S a) rounds e).
    + reflexivity.
    + lia.
    + lia.
    + rewrite <- Hv. f_equal. lia.
    + intros i Hi. destruct (Hpre (S i)) as (e' & He' & Hre'); [lia|].
      exists e'. split; [|exact Hre'].
      rewrite <- He'. f_equal. lia.
Qed.

(** X3: when attempt [k <= maxRetries] is the first to succeed and every
    failure before it is one the policy retries, [withRetry] returns the
    value of attempt [k] after [k + 1] calls and the delays
    [initialDelayMs * 2 ^ 0, ..., initialDelayMs * 2 ^ (k - 1)]. *)
Theorem withRetry_first_success (v : T) (k : nat) :
  (Z.of_nat k <= maxRetries o)%Z ->
  fn k = Resolved v ->
  (forall i, i < k ->
     exists e, fn i = Rejected e /\ retryable o e = true) ->
  withRetry fn o
  = {| result := Resolved v; calls := S k; delays := backoff o k |}.
Proof.
  intros Hk Hv Hpre. unfold withRetry.
  apply (attempts_first_success v k 0); try assumption. lia.
Qed.

(** A failure the policy does not retry ends the run. *)
Lemma withRetry_stops (i : nat) (e : js_error) :
  (0 <= maxRetries o)%Z ->
  i < calls (withRetry fn o) -> fn i = Rejected e ->
  retryable o e = false ->
  calls (withRetry fn o) = S i /\ result (withRetry fn o) = Rejected e.
Proof.
  intros Hmax Hi Ei Hre.
  destruct (withRetry_shape fn o Hmax) as [[C D R Res L] Hle].
  cbn [Nat.add] in R, Res.
  assert (Hc : calls (withRetry fn o) = S i).
  { destruct (Nat.lt_ge_cases (S i) (calls (withRetry fn o)))
      as [Hlt|Hge]; [|lia].
    destruct (R i) as (e' & E' & [_ Hgo] & _); [lia|].
    rewrite Ei in E'. injection E' as <-. congruence. }
  split; [exact Hc|]. rewrite Res, Hc.
  replace (S i - 1) with i by lia. rewrite Ei. reflexivity.
Qed.

(** What [withRetry] returns or throws is what its last call led to. *)
Lemma withRetry_result :
  (0 <= maxRetries o)%Z ->
  result (withRetry fn o) = ended (fn (calls (withRetry fn o) - 1)).
Proof.
  intros Hmax. destruct (withRetry_shape fn o Hmax) as [[_ _ _ Res _] _].
  exact Res.
Qed.

End Runs.

Section Fetch.
Context {B : Type}.
Variable srv : nat -> fetched B.
Variable o : options.

(** X4: [withRetry] around [fetchWithRetrySupport] returns a response only
    if it is an ok one (status 200-299), the one the last request got;
    and a response that is not ok, whose status is neither zero nor in
    [retryOn], ends the run at that request with a [RetryableError] that
    carries the status and the text [json.message || json.error || body],
    as a string. *)
Theorem withRetry_fetch :
  let r := withRetry (fun i => fetchWithRetrySupport (srv i)) o in
  (forall resp, result r = Resolved resp ->
     ok resp = true /\ srv (calls r - 1) = FetchResponds resp) /\
  (forall i resp body,
     (0 <= maxRetries o)%Z -> i < calls r ->
     srv i = FetchResponds resp -> ok resp = false ->
     resp_text resp = Resolved body ->
     resp_status resp <> 0%Z -> ~ In (resp_status resp) (retryOn o) ->
     calls r = S i /\
     result r
     = Rejected
         {| message := match json_message resp, json_error resp with
                       | Truthy m, _ => m
                       | Falsy, Truthy m => m
                       | Falsy, Falsy => body
                       end;
            status := Integer (resp_status resp);
            statusCode := Undefined |}).
Proof.
  intros r. split.
  - intros resp Hres.
    destruct (Z.lt_ge_cases (maxRetries o) 0) as [Hneg|Hmax].
    + unfold r in Hres. rewrite withRetry_negative in Hres by exact Hneg.
      discriminate Hres.
    + unfold r in Hres |- *. rewrite withRetry_result in Hres by lia.
      cbn [ended] in Hres.
      unfold fetchWithRetrySupport in Hres.
      destruct (srv _) as [err|resp']; [discriminate|].
      destruct (ok resp') eqn:Hok.
      * injection Hres as <-. auto.
      * destruct (resp_text resp'); discriminate.
  - intros i resp body Hmax Hi Hsrv Hok Hbody Hnz Hout.
    change (calls r = S i /\
            result r = Rejected (RetryableError (error_text resp body)
                                   (Some (resp_status resp)))).
    apply withRetry_stops; try assumption.
    + unfold fetchWithRetrySupport. rewrite Hsrv, Hok, Hbody. reflexivity.
    + unfold retryable, status_of, js_or, RetryableError.
      cbn [status statusCode truthy].
      apply Z.eqb_neq in Hnz. rewrite Hnz. cbn [negb truthy includes].
      rewrite Hnz. cbn [negb orb].
      destruct (existsb _ _) eqn:E; [|reflexivity].
      apply existsb_exists in E as (x & Hx & Ex).
      apply Z.eqb_eq in Ex. subst. contradiction.
Qed.

End Fetch.

(** The delays at a rate limit met twice under the default policy. *)
Lemma withRetry_total_backoff_witness :
  let r := withRetry
             (fun i => if Nat.ltb i 2
                       then Rejected (RetryableError "busy" (Some 429%Z))
                       else Resolved tt) no_options in
  Forall (fun d => 1 <= d <= 2147483647)%Z (delays r) /\
  total_delay r = 3000%Z.
Proof.
  cbv zeta.
  assert (Hmax : (0 <= maxRetries no_options)%Z)
    by (unfold maxRetries, no_options; cbn [opt_maxRetries]; lia).
  assert (Hd : (1 <= initialDelayMs no_options)%Z)
    by (unfold initialDelayMs, no_options; cbn [opt_initialDelayMs]; lia).
  assert (Htop : (initialDelayMs no_options
                  * 2 ^ (maxRetries no_options - 1) <= 2147483647)%Z)
    by (unfold initialDelayMs, maxRetries, no_options;
        cbn [opt_initialDelayMs opt_maxRetries]; lia).
  destruct (withRetry_total_backoff
              (fun i => if Nat.ltb i 2
                        then Rejected (RetryableError "busy" (Some 429%Z))
                        else Resolved tt) no_options Hmax Hd Htop)
    as (Hall & E & _).
  split; [exact Hall | exact E].
Defined.

Lemma withRetry_no_attempts_witness :
  calls (withRetry (fun _ : nat => Resolved tt)
           {| opt_maxRetries := Some (-1)%Z; opt_initialDelayMs := None;
              opt_retryOn := None |}) = 0.
Proof.
  apply (proj1 (withRetry_no_attempts (fun _ : nat => Resolved tt)
                  {| opt_maxRetries := Some (-1)%Z;
                     opt_initialDelayMs := None;
                     opt_retryOn := None |})).
  reflexivity.
Defined.

Lemma withRetry_first_success_witness :
  withRetry
    (fun i => match i with
              | 0 => Rejected (RetryableError "gateway" (Some 502%Z))
              | _ => Resolved "ok"
              end) no_options
  = {| result := Resolved "ok"; calls := 2; delays := [1000%Z] |}.
Proof.
  apply (withRetry_first_success
           (fun i => match i with
                     | 0 => Rejected (RetryableError "gateway" (Some 502%Z))
                     | _ => Resolved "ok"
                     end) no_options "ok" 1).
  - unfold maxRetries, no_options; cbn [opt_maxRetries]. lia.
  - reflexivity.
  - intros [|i] Hi; [|lia].
    exists (RetryableError "gateway" (Some 502%Z)). split; reflexivity.
Defined.

(** A request answered 404 with the body [{"message":42}] under the
    default policy: one call, and the error carries the status and the
    message, as a string. *)
Lemma withRetry_fetch_witness :
  let page : response unit :=
    {| resp_status := 404; resp_text := Resolved not_found_body;
       json_message := Truthy "42"; json_error := Falsy;
       resp_json := Resolved tt |} in
  let r := withRetry
             (fun _ : nat => fetchWithRetrySupport (FetchResponds page))
             no_options in
  calls r = 1 /\
  result r = Rejected (RetryableError "42" (Some 404%Z)).
Proof.
  cbv zeta.
  destruct (withRetry_fetch
              (fun _ : nat =>
                 FetchResponds
                   {| resp_status := 404;
                      resp_text := Resolved not_found_body;
                      json_message := Truthy "42"; json_error := Falsy;
                      resp_json := Resolved tt |}) no_options) as [_ H].
  apply (H 0 {| resp_status := 404; resp_text := Resolved not_found_body;
                json_message := Truthy "42"; json_error := Falsy;
                resp_json := Resolved tt |} not_found_body).
  - unfold maxRetries, no_options; cbn [opt_maxRetries]. lia.
  - exact Nat.lt_0_1.
  - reflexivity.
  - reflexivity.
  - reflexivity.
  - discriminate.
  - cbn. intros [E|[E|[E|[E|[]]]]]; discriminate E.
Defined.

End RetryMore.

(** ** More on the readiness poller *)

Module PollerMore.
Import Poller PollerFacts.

Section Polling.
Variable projectId : string.
Variable maxWaitTime : Z.
Variable startTime : Z.

Local Abbreviation polling := (polling projectId maxWaitTime startTime).

Lemma polling_empty (now : Z) (done : nat) (r : run) :
  polling [] now done = Some r ->
  (maxWaitTime <= now - startTime)%Z /\
  r = {| ended := NotReadyError projectId maxWaitTime;
         fetches := done; clock := now |}.
Proof.
  cbn [Poller.polling].
  destruct (Z.ltb_spec (now - startTime) maxWaitTime) as [Hlt|Hge];
    [discriminate|].
  intros E. injection E as <-. auto.
Qed.

Lemma polling_ready_inv (rounds : list round) :
  forall now done r,
    polling rounds now done = Some r -> ended r = Ready ->
    exists pre h rest,
      rounds = pre ++ h :: rest /\
      forallb (fun p => negb (healthy p)) pre = true /\
      healthy h = true /\
      fetches r = S (List.length pre + done) /\
      clock r = (advance pre now + latency h)%Z.
Proof.
  induction rounds as [|p rounds IH]; intros now done r Hrun Hend.
  - apply polling_empty in Hrun as [_ ->]. discriminate Hend.
  - destruct (Z.lt_ge_cases (now - startTime) maxWaitTime) as [Ht|Ht].
    + destruct (healthy p) eqn:Hp.
      * rewrite polling_healthy in Hrun by assumption.
        injection Hrun as <-. exists [], p, rounds. repeat split.
        exact Hp.
      * rewrite polling_goes_on in Hrun by assumption.
        destruct (IH _ _ _ Hrun Hend)
          as (pre & h & rest & -> & Hpre & Hh & Hf & Hc).
        exists (p :: pre), h, rest. cbn [app forallb List.length advance].
        rewrite Hp, Hpre, Hf, Hc. repeat split; [exact Hh|].
        f_equal. lia.
    + rewrite polling_deadline in Hrun by assumption.
      injection Hrun as <-. discriminate Hend.
Qed.

Lemma polling_fetches (rounds : list round) :
  forall now done r,
    Forall clock_ok rounds ->
    polling rounds now done = Some r ->
    done <= fetches r /\
    (done < fetches r ->
     (now - startTime
      + pollInterval * (Z.of_nat (fetches r) - Z.of_nat done - 1)
      < maxWaitTime)%Z).
Proof.
  induction rounds as [|p rounds IH]; intros now done r Hok Hrun.
  - apply polling_empty in Hrun as [_ ->]. cbn [fetches]. lia.
  - destruct (Z.lt_ge_cases (now - startTime) maxWaitTime) as [Ht|Ht].
    + inversion Hok as [|? ? [Hl Ho] Hrs]; subst.
      destruct (healthy p) eqn:Hp.
      * rewrite polling_healthy in Hrun by assumption.
        injection Hrun as <-. cbn [fetches]. unfold pollInterval. lia.
      * rewrite polling_goes_on in Hrun by assumption.
        destruct (IH _ _ _ Hrs Hrun) as [Hle Hlt].
        split; [lia|]. intros _.
        destruct (Nat.eq_dec (fetches r) (S done)) as [E|E].
        -- rewrite E. unfold pollInterval. lia.
        -- specialize (Hlt ltac:(lia)). unfold pollInterval in *. lia.
    + rewrite polling_deadline in Hrun by assumption.
      injection Hrun as <-. cbn [fetches]. lia.
Qed.

End Polling.

(** X5: [waitForProjectReady] returns only when a status it fetched was
    ACTIVE_HEALTHY: the fetch that got it is the last one made, and no
    earlier fetch got a healthy status. *)
Theorem ready_only_when_healthy (projectId : string)
  (maxWaitTime : option Z) (startTime : Z) (rounds : list round)
  (r : run) :
  waitForProjectReady projectId maxWaitTime startTime rounds = Some r ->
  ended r = Ready ->
  exists pre h rest,
    rounds = pre ++ h :: rest /\
    forallb (fun p => negb (healthy p)) pre = true /\
    healthy h = true /\
    fetches r = S (List.length pre) /\
    clock r = (advance pre startTime + latency h)%Z.
Proof.
  intros Hrun Hend. unfold waitForProjectReady in Hrun.
  destruct (polling_ready_inv _ _ _ _ _ _ _ Hrun Hend)
    as (pre & h & rest & E & Hpre & Hh & Hf & Hc).
  exists pre, h, rest. rewrite Nat.add_0_r in Hf. auto.
Qed.

(** X6: the number of status requests is bounded by the time allowed:
    request [n] (counting from 1) is made only if [(n - 1) * pollInterval]
    is less than [maxWaitTime]; so none is made when [maxWaitTime <= 0],
    and at most 24 under the default of 120000 ms. *)
Theorem fetches_bounded (projectId : string) (maxWaitTime : option Z)
  (startTime : Z) (rounds : list round) (r : run) :
  Forall clock_ok rounds ->
  waitForProjectReady projectId maxWaitTime startTime rounds = Some r ->
  (0 < fetches r ->
   (pollInterval * (Z.of_nat (fetches r) - 1) < limit_of maxWaitTime)%Z) /\
  ((limit_of maxWaitTime <= 0)%Z ->
   fetches r = 0 /\
   ended r = NotReadyError projectId (limit_of maxWaitTime)) /\
  (maxWaitTime = None -> fetches r <= 24).
Proof.
  intros Hok Hrun. unfold waitForProjectReady in Hrun.
  destruct (polling_fetches _ _ _ _ _ _ _ Hok Hrun) as [_ Hlt].
  cbn [Z.of_nat] in Hlt.
  split; [|split].
  - intros H. specialize (Hlt H). lia.
  - intros Hz. rewrite polling_deadline in Hrun by lia.
    injection Hrun as <-. split; reflexivity.
  - intros ->. cbn [limit_of] in Hlt.
    destruct (Nat.eq_dec (fetches r) 0) as [E|E]; [lia|].
    specialize (Hlt ltac:(lia)). unfold pollInterval in Hlt. lia.
Qed.

Lemma ready_only_when_healthy_witness :
  exists pre h rest,
    [prompt NotOk; prompt (Status "ACTIVE_HEALTHY")] = pre ++ h :: rest /\
    forallb (fun p => negb (healthy p)) pre = true /\
    healthy h = true /\
    2 = S (List.length pre) /\
    5000%Z = (advance pre 0 + latency h)%Z.
Proof.
  exact (ready_only_when_healthy "ref" None 0
           [prompt NotOk; prompt (Status "ACTIVE_HEALTHY")]
           {| ended := Ready; fetches := 2; clock := 5000 |}
           eq_refl eq_refl).
Defined.

(** Ten seconds allowed and a project that stays in COMING_UP: two
    requests, the second made five seconds in. *)
Lemma fetches_bounded_witness :
  waitForProjectReady "ref" (Some 10000%Z) 0
    (List.repeat (prompt (Status "COMING_UP")) 4)
  = Some {| ended := NotReadyError "ref" 10000; fetches := 2;
            clock := 10000 |} /\
  (pollInterval * (Z.of_nat 2 - 1) < 10000)%Z.
Proof.
  split; [reflexivity|].
  destruct (fetches_bounded "ref" (Some 10000%Z) 0
              (List.repeat (prompt (Status "COMING_UP")) 4)
              {| ended := NotReadyError "ref" 10000; fetches := 2;
                 clock := 10000 |}) as [H _].
  - repeat constructor; cbn; lia.
  - reflexivity.
  - apply H. cbn [fetches]. lia.
Defined.

End PollerMore.

(** ** More on the secret vault *)

Module VaultMore.
Import Vault PlaceholderFacts VaultFacts.

(** *** Passwords and masks *)

Lemma pick_one (b : byte) :
  exists c, pick b = String c "" /\ in_charset c = true.
Proof. destruct b; eexists; split; reflexivity. Qed.

Lemma password_from_charset (random : list byte) (rounds : nat) :
  forall i, i + rounds <= List.length random ->
  String.length (password_from random rounds i) = rounds /\
  forallb in_charset (list_ascii_of_string (password_from random rounds i))
  = true.
Proof.
  induction rounds as [|rounds IH]; intros i Hi; [split; reflexivity|].
  cbn [password_from]. unfold pick_at.
  destruct (nth_error random i) as [b|] eqn:E.
  - destruct (pick_one b) as (c & Hc & Hin).
    destruct (IH (S i)) as [IHl IHc]; [lia|].
    rewrite Hc. cbn [append String.length list_ascii_of_string forallb].
    rewrite IHl, Hin, IHc. split; reflexivity.
  - apply nth_error_None in E. lia.
Qed.

(** X7: when [crypto.randomBytes(length)] returns at least [length] bytes
    (it returns exactly that many), [generatePassword] returns [length]
    characters, each of them a character of the charset: no index falls
    outside the buffer or the charset, and "undefined" is never
    appended. *)
Theorem generatePassword_charset (randomBytes : Z -> option (list byte))
  (length : option Z) (random : list byte) :
  let n := match length with Some n => n | None => 32%Z end in
  randomBytes n = Some random -> Z.to_nat n <= List.length random ->
  exists password,
    generatePassword randomBytes length = Some password /\
    String.length password = Z.to_nat n /\
    forallb in_charset (list_ascii_of_string password) = true.
Proof.
  intros n Hr Hlen. unfold generatePassword. fold n. rewrite Hr.
  eexists. split; [reflexivity|].
  apply password_from_charset. lia.
Qed.

(** Eight bytes drawn for a password of eight characters. *)
Lemma generatePassword_charset_witness :
  exists password,
    generatePassword
      (fun _ => Some [x00; x45; x46; x8b; x8c; xd1; xd2; xff]) (Some 8%Z)
    = Some password /\
    String.length password = 8 /\
    forallb in_charset (list_ascii_of_string password) = true.
Proof.
  exact (generatePassword_charset
           (fun _ => Some [x00; x45; x46; x8b; x8c; xd1; xd2; xff])
           (Some 8%Z) [x00; x45; x46; x8b; x8c; xd1; xd2; xff]
           eq_refl (le_n 8)).
Defined.

Example generatePassword_eight :
  generatePassword
    (fun _ => Some [x00; x45; x46; x8b; x8c; xd1; xd2; xff]) (Some 8%Z)
  = Some "a*a*a*aT".
Proof. reflexivity. Qed.

(** A buffer shorter than [length] leaves the loop reading past its end:
    the third character of this password is the word "undefined". *)
Example generatePassword_short_buffer :
  generatePassword (fun _ => Some [x00; x45]) (Some 3%Z)
  = Some "a*undefined".
Proof. reflexivity. Qed.

Lemma all_bytes_complete (b : byte) : In b all_bytes.
Proof.
  assert (H : existsb (Byte.eqb b) all_bytes = true)
    by (destruct b; vm_compute; reflexivity).
  apply existsb_exists in H as (x & Hx & E).
  apply Byte.byte_dec_bl in E. subst x. exact Hx.
Qed.

Lemma all_bytes_nodup : NoDup all_bytes.
Proof.
  apply (NoDup_map_inv Byte.to_nat).
  replace (List.map Byte.to_nat all_bytes) with (seq 0 256)
    by (vm_compute; reflexivity).
  apply seq_NoDup.
Qed.

(** X8: the characters of a generated password are not equally likely:
    of the 256 values of a random byte, four select each of the first 46
    characters of the charset (a-z, A-T) and three each of the other 24,
    [charset.length] being 70, which does not divide 256. *)
Theorem generatePassword_bias :
  String.length charset = 70 /\
  NoDup all_bytes /\ (forall b, In b all_bytes) /\
  (forall i c, String.get i charset = Some c ->
     picks c = if Nat.ltb i 46 then 4 else 3).
Proof.
  split; [reflexivity|].
  split; [exact all_bytes_nodup|].
  split; [exact all_bytes_complete|].
  intros i c H.
  assert (Hi : i < 70).
  { destruct (Nat.lt_ge_cases i 70) as [Hlt|Hge]; [exact Hlt|].
    replace i with (70 + (i - 70)) in H by lia.
    vm_compute in H. discriminate H. }
  do 70 (destruct i as [|i];
         [vm_compute in H; injection H as <-; vm_compute; reflexivity|]).
  lia.
Qed.

Lemma length_stars (n : nat) : String.length (stars n) = n.
Proof. induction n; cbn; congruence. Qed.

Lemma get_stars (n i : nat) : i < n -> String.get i (stars n) = Some "*"%char.
Proof.
  revert i. induction n as [|n IH]; intros i H; [lia|].
  destruct i; cbn; [reflexivity | apply IH; lia].
Qed.

Lemma length_app (s t : string) :
  String.length (s ++ t) = String.length s + String.length t.
Proof. induction s; cbn; congruence. Qed.

Lemma get_app_l (s t : string) (i : nat) :
  i < String.length s -> String.get i (s ++ t) = String.get i s.
Proof.
  revert i. induction s as [|c s IH]; intros i H; cbn in H; [lia|].
  destruct i; cbn; [reflexivity | apply IH; lia].
Qed.

Lemma get_app_r (s t : string) (i : nat) :
  String.get (String.length s + i) (s ++ t) = String.get i t.
Proof. induction s as [|c s IH]; cbn; auto. Qed.

Lemma length_take (s : string) (n : nat) :
  n <= String.length s -> String.length (substring 0 n s) = n.
Proof.
  revert n. induction s as [|c s IH]; intros n H; cbn in H.
  - destruct n; [reflexivity | lia].
  - destruct n; cbn; [reflexivity|]. rewrite IH; lia.
Qed.

Lemma get_take (s : string) (n i : nat) :
  i < n -> String.get i (substring 0 n s) = String.get i s.
Proof.
  revert n i. induction s as [|c s IH]; intros n i H.
  - destruct n; reflexivity.
  - destruct n; [lia|]. destruct i; cbn; [reflexivity | apply IH; lia].
Qed.

(** X9: with [visibleChars >= 0], [maskSecret] returns a string as long as
    the secret; a secret of at most [visibleChars] characters comes back
    as stars only; of a longer one the first [visibleChars] characters
    are kept and every later one is a star. *)
Theorem maskSecret_hides (value : string) (visibleChars : option Z) :
  let visible := match visibleChars with Some n => n | None => 4%Z end in
  let masked := maskSecret value visibleChars in
  (0 <= visible)%Z ->
  String.length masked = String.length value /\
  (forall i, i < String.length value ->
     String.get i masked
     = if (Z.of_nat i <? visible)%Z
          && (visible <? Z.of_nat (String.length value))%Z
       then String.get i value else Some "*"%char).
Proof.
  intros visible masked Hv. unfold masked, maskSecret. fold visible.
  destruct (Z.leb_spec (Z.of_nat (String.length value)) visible)
    as [Hle|Hgt].
  - split; [apply length_stars|]. intros i Hi.
    replace (visible <? Z.of_nat (String.length value))%Z with false
      by (symmetry; apply Z.ltb_ge; lia).
    rewrite andb_false_r. apply get_stars, Hi.
  - unfold slice_to.
    replace (visible <? 0)%Z with false by (symmetry; apply Z.ltb_ge; lia).
    rewrite Z.min_l by lia.
    assert (Hn : Z.to_nat visible <= String.length value) by lia.
    split.
    + rewrite length_app, length_take, length_stars by exact Hn. lia.
    + intros i Hi.
      replace (visible <? Z.of_nat (String.length value))%Z with true
        by (symmetry; apply Z.ltb_lt; lia).
      rewrite andb_true_r.
      destruct (Z.ltb_spec (Z.of_nat i) visible) as [Hlt|Hge].
      * rewrite get_app_l by (rewrite length_take; lia).
        apply get_take. lia.
      * replace i with (String.length (substring 0 (Z.to_nat visible) value)
                        + (i - Z.to_nat visible))
          by (rewrite length_take; lia).
        rewrite get_app_r. apply get_stars. lia.
Qed.

Lemma maskSecret_hides_witness :
  String.length (maskSecret "sk_live_51Hx" None) = 12 /\
  String.get 3 (maskSecret "sk_live_51Hx" None) = Some "l"%char /\
  String.get 4 (maskSecret "sk_live_51Hx" None) = Some "*"%char.
Proof.
  destruct (maskSecret_hides "sk_live_51Hx" None) as [Hlen Hget].
  - cbv zeta. lia.
  - split; [exact Hlen|]. split.
    + exact (Hget 3 ltac:(cbn; lia)).
    + exact (Hget 4 ltac:(cbn; lia)).
Defined.

(** *** The map *)

Lemma map_get_none_iff (k : string) (m : js_map) :
  map_get k m = None <-> ~ In k (map_keys m).
Proof.
  induction m as [|[k' v] m IH]; cbn; [tauto|].
  destruct (String.eqb_spec k k') as [->|Hne].
  - split; [discriminate | intros H; exfalso; apply H; auto].
  - rewrite IH. split; [intros H [E|E]; [congruence | auto] | tauto].
Qed.

Lemma keys_set (k v : string) (m : js_map) :
  map_keys (map_set k v m)
  = if map_has k m then map_keys m else map_keys m ++ [k].
Proof.
  unfold map_has, map_keys.
  induction m as [|[k' v'] m IH]; cbn; [reflexivity|].
  destruct (String.eqb_spec k k') as [->|Hne]; cbn; [reflexivity|].
  rewrite IH. destruct (map_get k m); reflexivity.
Qed.

Lemma keys_remove_incl (k x : string) (m : js_map) :
  In x (map_keys (map_remove k m)) -> In x (map_keys m).
Proof.
  induction m as [|[k' v'] m IH]; cbn; [auto|].
  destruct (String.eqb k k'); cbn; tauto.
Qed.

Lemma nodup_set (k v : string) (m : js_map) :
  NoDup (map_keys m) -> NoDup (map_keys (map_set k v m)).
Proof.
  intros H. rewrite keys_set. unfold map_has.
  destruct (map_get k m) eqn:E; [exact H|].
  apply map_get_none_iff in E.
  apply NoDup_app; [exact H | repeat constructor; auto |].
  intros x Hx [<-|[]]. contradiction.
Qed.

Lemma nodup_remove (k : string) (m : js_map) :
  NoDup (map_keys m) -> NoDup (map_keys (map_remove k m)).
Proof.
  induction m as [|[k' v'] m IH]; cbn; [auto|].
  intros H. inversion H as [|? ? Hnot Hm]; subst.
  destruct (String.eqb k k'); cbn; [exact Hm|].
  constructor; [|apply IH, Hm].
  intros Hin. apply Hnot. eapply keys_remove_incl, Hin.
Qed.

Lemma map_get_remove_same (k : string) (m : js_map) :
  NoDup (map_keys m) -> map_get k (map_remove k m) = None.
Proof.
  induction m as [|[k' v'] m IH]; cbn; [auto|].
  intros H. inversion H as [|? ? Hnot Hm]; subst.
  destruct (String.eqb_spec k k') as [->|Hne]; cbn.
  - apply map_get_none_iff, Hnot.
  - destruct (String.eqb_spec k k'); [contradiction|]. apply IH, Hm.
Qed.

Lemma has_keys (k : string) (m : js_map) :
  map_has k m = existsb (String.eqb k) (map_keys m).
Proof.
  unfold map_has, map_keys.
  induction m as [|[k' v'] m IH]; cbn; [reflexivity|].
  destruct (String.eqb k k'); [reflexivity | exact IH].
Qed.

Lemma filter_absent (k : string) (ks : list string) :
  ~ In k ks -> filter (fun x => negb (String.eqb x k)) ks = ks.
Proof.
  induction ks as [|x ks IH]; cbn [filter]; [reflexivity|].
  intros H. destruct (String.eqb_spec x k) as [->|Hne]; cbn [negb].
  - exfalso. apply H. left. reflexivity.
  - rewrite IH; [reflexivity|]. intros Hin. apply H. right. exact Hin.
Qed.

Lemma keys_remove (k : string) (m : js_map) :
  NoDup (map_keys m) ->
  map_keys (map_remove k m)
  = filter (fun x => negb (String.eqb x k)) (map_keys m).
Proof.
  unfold map_keys.
  induction m as [|[k' v'] m IH]; cbn [map_remove List.map filter fst];
    [reflexivity|].
  intros H. inversion H as [|? ? Hnot Hm]; subst.
  rewrite (String.eqb_sym k' k).
  destruct (String.eqb_spec k k') as [->|Hne]; cbn [negb List.map fst].
  - symmetry. apply filter_absent, Hnot.
  - rewrite IH by exact Hm. reflexivity.
Qed.

Lemma length_remove (k : string) (m : js_map) :
  List.length (map_remove k m)
  = List.length m - (if map_has k m then 1 else 0).
Proof.
  unfold map_has. induction m as [|[k' v'] m IH]; cbn; [reflexivity|].
  destruct (String.eqb_spec k k') as [->|Hne]; cbn; [lia|].
  rewrite IH. destruct (map_get k m) eqn:E; [|lia].
  destruct m; [discriminate | cbn; lia].
Qed.

Section Cipher.
Variable encrypt : list byte -> list byte -> string -> string.
Variable decrypt : list byte -> list byte -> string -> option string.

Local Abbreviation store := (store encrypt).
Local Abbreviation retrieve := (retrieve decrypt).
Local Abbreviation resolve := (resolve decrypt).
Local Abbreviation perform := (perform encrypt decrypt).
Local Abbreviation after := (after encrypt decrypt).

Lemma after_snoc (cs : list call) (c : call) (vt : vault) :
  after (cs ++ [c]) vt = snd (perform c (after cs vt)).
Proof. unfold Vault.after. rewrite fold_left_app. reflexivity. Qed.

Lemma after_nodup (cs : list call) :
  forall vt, NoDup (map_keys (secrets vt)) ->
  NoDup (map_keys (secrets (after cs vt))).
Proof.
  induction cs as [|c cs IH]; intros vt H; [exact H|].
  rewrite after_cons. apply IH. rewrite perform_state.
  destruct c; try exact H.
  - destruct (isDestroyed vt); [exact H|]. cbn. apply nodup_set, H.
  - cbn. apply nodup_remove, H.
  - constructor.
Qed.

Lemma listKeys_active (vt : vault) :
  isDestroyed vt = false ->
  listKeys vt = (Ok (map_keys (secrets vt)), vt).
Proof. intros H. run_method. rewrite H. reflexivity. Qed.

(** X10: in a vault made by the constructor, whatever was called since,
    no key is listed twice; [delete(k)] returns whether [k] was there,
    after it [has(k)] is false, the other entries are as before and the
    count is one less when [k] was there. *)
Theorem delete_removes (key : list byte) (cs : list call) (k : string) :
  let vt := after cs (new_vault key) in
  let vt' := snd (delete k vt) in
  NoDup (map_keys (secrets vt)) /\
  fst (delete k vt) = Ok (map_has k (secrets vt)) /\
  has k vt' = (Ok false, vt') /\
  (forall k', k' <> k ->
     map_get k' (secrets vt') = map_get k' (secrets vt)) /\
  List.length (secrets vt')
  = List.length (secrets vt) - (if map_has k (secrets vt) then 1 else 0).
Proof.
  intros vt vt'.
  assert (Hnd : NoDup (map_keys (secrets vt)))
    by (apply after_nodup; constructor).
  split; [exact Hnd|]. split; [reflexivity|].
  unfold vt'. run_method. split; [|split].
  - unfold map_has. rewrite map_get_remove_same by exact Hnd. reflexivity.
  - intros k' Hne. apply map_get_remove_other, Hne.
  - apply length_remove.
Qed.

(** X11: [retrieve], [resolve], [listKeys], [has] and [getStatus] leave
    the vault as it is, and so does every call that throws. *)
Theorem reads_and_failures_change_nothing (vt : vault) :
  (forall k, snd (retrieve k vt) = vt) /\
  (forall s, snd (resolve s vt) = vt) /\
  snd (listKeys vt) = vt /\
  (forall k, snd (has k vt) = vt) /\
  snd (getStatus vt) = vt /\
  (forall c, fails (perform c vt) = true -> snd (perform c vt) = vt).
Proof.
  split; [intros; apply retrieve_state|].
  split; [intros; apply resolve_state|].
  split; [run_method; destruct (isDestroyed vt); reflexivity|].
  split; [reflexivity|]. split; [reflexivity|].
  intros c Hf. rewrite perform_state. destruct c; try reflexivity.
  - destruct (isDestroyed vt) eqn:Hd; [reflexivity|].
    unfold fails in Hf. cbn [Vault.perform] in Hf.
    unfold bind at 1 in Hf. rewrite store_active in Hf by exact Hd.
    discriminate Hf.
  - discriminate Hf.
  - discriminate Hf.
Qed.

Lemma sealed_set (key : list byte) (k e v : string) (m1 m2 : js_map) :
  Forall2 (sealed encrypt key) m1 m2 ->
  sealed encrypt key (k, e) (k, v) ->
  Forall2 (sealed encrypt key) (map_set k e m1) (map_set k v m2).
Proof.
  intros H Hs. induction H as [|[k1 e1] [k2 v2] m1 m2 [Hk Hx] H IH];
    cbn [map_set]; [constructor; [exact Hs | constructor]|].
  cbn in Hk. subst k2. destruct (String.eqb k k1).
  - constructor; assumption.
  - constructor; [split; [reflexivity | exact Hx] | exact IH].
Qed.

Lemma sealed_remove (key : list byte) (k : string) (m1 m2 : js_map) :
  Forall2 (sealed encrypt key) m1 m2 ->
  Forall2 (sealed encrypt key) (map_remove k m1) (map_remove k m2).
Proof.
  intros H. induction H as [|[k1 e1] [k2 v2] m1 m2 [Hk Hx] H IH];
    cbn [map_remove]; [constructor|].
  cbn in Hk. subst k2. destruct (String.eqb k k1); [exact H|].
  constructor; [split; [reflexivity | exact Hx] | exact IH].
Qed.

Lemma sealed_keys (key : list byte) (m1 m2 : js_map) :
  Forall2 (sealed encrypt key) m1 m2 -> map_keys m1 = map_keys m2.
Proof.
  intros H. unfold map_keys.
  induction H as [|[k1 e1] [k2 v2] m1 m2 [Hk Hx] H IH];
    cbn; [reflexivity|]. cbn in Hk. congruence.
Qed.

Lemma sealed_get (key : list byte) (k : string) (m1 m2 : js_map) :
  Forall2 (sealed encrypt key) m1 m2 ->
  match map_get k m2 with
  | Some v =>
      exists iv, List.length iv = 16 /\
        map_get k m1 = Some (to_hex iv ++ ":" ++ encrypt key iv v)%string
  | None => map_get k m1 = None
  end.
Proof.
  intros H. induction H as [|[k1 e1] [k2 v2] m1 m2 [Hk Hx] H IH];
    cbn [map_get]; [reflexivity|].
  cbn in Hk, Hx. subst k2. destruct (String.eqb k k1); [|exact IH].
  destruct Hx as (iv & Hiv & ->). eauto.
Qed.

Lemma mirrors_step (key : list byte) (c : call) (vt : vault) (p : plain) :
  vectors_ok [c] = true ->
  mirrors encrypt key vt p ->
  mirrors encrypt key (snd (perform c vt)) (plain_step c p).
Proof.
  intros Hv (Hd & Hk & Hm). rewrite perform_state.
  destruct c; cbn [plain_step]; try (split; [|split]; assumption).
  - rewrite <- Hd. destruct (isDestroyed vt) eqn:Ed.
    { split; [congruence|]. split; assumption. }
    split; [exact Ed|]. split; [intros _; apply Hk; congruence|].
    cbn. apply sealed_set; [exact Hm|]. split; [reflexivity|].
    exists iv. cbn in Hv. rewrite andb_true_r in Hv.
    apply Nat.eqb_eq in Hv. split; [exact Hv|].
    cbn. rewrite Hk by congruence. reflexivity.
  - split; [exact Hd|]. split; [exact Hk|]. cbn.
    apply sealed_remove, Hm.
  - split; [reflexivity|]. split; [discriminate|]. constructor.
Qed.

Lemma mirrors_after (key : list byte) (cs : list call) :
  forall vt p,
    vectors_ok cs = true ->
    mirrors encrypt key vt p ->
    mirrors encrypt key (after cs vt) (plain_after cs p).
Proof.
  induction cs as [|c cs IH]; intros vt p Hv H; [exact H|].
  cbn [vectors_ok forallb] in Hv. apply andb_true_iff in Hv as [Hc Hcs].
  rewrite after_cons. apply IH; [exact Hcs|].
  apply mirrors_step; [|exact H]. cbn. rewrite Hc. reflexivity.
Qed.

Section Correct.
Hypothesis decrypt_encrypt : forall key iv v,
  List.length key = 32 -> List.length iv = 16 ->
  decrypt key iv (encrypt key iv v) = Some v.
Hypothesis encrypt_hex : forall key iv v,
  all_hex (encrypt key iv v) = true.

(** X12: to its callers the vault is a plain map.  After any calls on a
    new vault (the cipher decrypting what it encrypted), [getStatus],
    [has], [listKeys] and [retrieve] answer as the same calls would on a
    [Map] holding the values themselves: the count and the flag, whether
    a key is there, the keys, and the value last stored under a key or
    [null].  The keys are listed once each, in the order in which they
    came in: a [store] under a key that is not there puts it last, a
    [store] under a key that is there leaves the order as it is, and
    [delete] takes the key out and leaves the others in their order (so
    a key deleted and stored again is listed last). *)
Theorem vault_is_a_plain_map (key : list byte) (cs : list call) :
  List.length key = 32 -> vectors_ok cs = true ->
  let vt := after cs (new_vault key) in
  let p := plain_after cs plain_new in
  getStatus vt
  = (Ok {| secretCount := List.length (entries p);
           status_isDestroyed := gone p |}, vt) /\
  (forall k, has k vt = (Ok (map_has k (entries p)), vt)) /\
  (gone p = false ->
   listKeys vt = (Ok (map_keys (entries p)), vt) /\
   forall k, retrieve k vt = (Ok (map_get k (entries p)), vt)) /\
  (forall ks, listKeys vt = (Ok ks, vt) ->
     NoDup ks /\
     (forall k v iv,
        listKeys (snd (store k v iv vt))
        = (Ok (if existsb (String.eqb k) ks then ks else ks ++ [k]),
           snd (store k v iv vt))) /\
     (forall k,
        listKeys (snd (delete k vt))
        = (Ok (filter (fun x => negb (String.eqb x k)) ks),
           snd (delete k vt)))).
Proof.
  intros Hkey Hv vt p.
  assert (Hm : mirrors encrypt key vt p).
  { apply mirrors_after; [exact Hv|].
    split; [reflexivity|]. split; [reflexivity|]. constructor. }
  destruct Hm as (Hd & Hk & Hs).
  split; [|split; [|split]].
  - run_method. rewrite Hd, (Forall2_length Hs). reflexivity.
  - intros k. run_method. unfold map_has.
    pose proof (sealed_get key k _ _ Hs) as Hg.
    destruct (map_get k (entries p)) as [v|].
    + destruct Hg as (iv & _ & ->). reflexivity.
    + rewrite Hg. reflexivity.
  - intros Hg. split.
    + run_method. rewrite Hd, Hg. cbn. rewrite (sealed_keys key _ _ Hs).
      reflexivity.
    + intros k. pose proof (sealed_get key k _ _ Hs) as Hget.
      destruct (map_get k (entries p)) as [v|].
      * destruct Hget as (iv & Hiv & Hget).
        apply (retrieve_entry encrypt decrypt decrypt_encrypt encrypt_hex)
          with (iv := iv); try assumption.
        -- congruence.
        -- rewrite Hk by exact Hg. exact Hkey.
        -- rewrite Hk by exact Hg. exact Hget.
      * apply retrieve_absent; [congruence | exact Hget].
  - intros ks Hks.
    assert (Hnd : NoDup (map_keys (secrets vt)))
      by (apply after_nodup; constructor).
    assert (Ha : isDestroyed vt = false).
    { destruct (isDestroyed vt) eqn:Ed; [|reflexivity].
      rewrite listKeys_destroyed in Hks by exact Ed. discriminate Hks. }
    assert (Eks : ks = map_keys (secrets vt)).
    { rewrite listKeys_active in Hks by exact Ha.
      injection Hks as <-. reflexivity. }
    subst ks. split; [exact Hnd|]. split.
    + intros k v iv. rewrite store_active by exact Ha. cbn [snd].
      rewrite listKeys_active by exact Ha. cbn [secrets with_secrets].
      rewrite keys_set, has_keys. reflexivity.
    + intros k.
      change (snd (delete k vt)) with (with_secrets (map_remove k) vt).
      rewrite listKeys_active by exact Ha. cbn [secrets with_secrets].
      rewrite keys_remove by exact Hnd. reflexivity.
Qed.

End Correct.
End Cipher.

(** A key stored, deleted and stored again, read back through the
    stand-in cipher: it comes last in the list. *)
Lemma vault_is_a_plain_map_witness :
  let cs := [ CallStore "a" "1" XorCipher.iv_a;
              CallStore "b" "2" XorCipher.iv_b;
              CallDelete "a";
              CallStore "a" "3" XorCipher.iv_a ] in
  let vt := after XorCipher.encrypt XorCipher.decrypt cs
              (new_vault XorCipher.key_a) in
  retrieve XorCipher.decrypt "a" vt = (Ok (Some "3"), vt) /\
  retrieve XorCipher.decrypt "c" vt = (Ok None, vt) /\
  listKeys vt = (Ok ["b"; "a"], vt).
Proof.
  cbv zeta.
  destruct (vault_is_a_plain_map XorCipher.encrypt XorCipher.decrypt
              VaultRuns.xor_decrypt_encrypt VaultRuns.xor_encrypt_hex
              XorCipher.key_a
              [ CallStore "a" "1" XorCipher.iv_a;
                CallStore "b" "2" XorCipher.iv_b;
                CallDelete "a";
                CallStore "a" "3" XorCipher.iv_a ]
              eq_refl eq_refl) as (_ & _ & H & _).
  destruct (H eq_refl) as [Hkeys Hget].
  split; [exact (Hget "a")|]. split; [exact (Hget "c") | exact Hkeys].
Defined.

End VaultMore.

(** ** The tool handlers *)

Module SupabaseHandlers.
Import Dispatch Handlers Handlers.Supabase.
Import Retry(Resolved, Rejected, FetchResponds, FetchRejects).

Lemma createProject_eq (cfg : config) (w : world)
  (params : CreateProjectParams) :
  createProject cfg w params
  = if Nat.ltb (String.length (db_password params)) 12 then
      Some (Throws weak_password)
    else
      match resolve_org cfg w with
      | inl t => Some (Throws t)
      | inr orgId =>
          match request (post_project w (body_for params orgId)) with
          | Rejected e => Some (Throws (as_thrown e))
          | Resolved p =>
              match Poller.waitForProjectReady (id p) None
                      (clock_at_wait w) (get_project w (id p)) with
              | None => None
              | Some run =>
                  match Poller.ended run with
                  | Poller.NotReadyError ref _ =>
                      Some (Throws (not_ready ref))
                  | Poller.Ready =>
                      Some (project_created (id p) (db_password params)
                              (fst (fetch_keys w (id p)))
                              (snd (fetch_keys w (id p))))
                  end
              end
          end
      end.
Proof.
  unfold createProject, body_for.
  destruct (Nat.ltb _ 12); [reflexivity|].
  destruct (resolve_org cfg w); [reflexivity|].
  destruct (request _); [|reflexivity].
  destruct (Poller.waitForProjectReady _ _ _ _); [|reflexivity].
  destruct (Poller.ended _); [|reflexivity].
  destruct (fetch_keys _ _). reflexivity.
Qed.



(** X15: when the project is created and no status fetched for it is
    ACTIVE_HEALTHY (the world offering the 24 rounds the default deadline
    leaves room for), [createProject] throws 'Project <id> did not become
    ready within 120s'. *)
Theorem createProject_not_ready (cfg : config) (w : world)
  (params : CreateProjectParams) (orgId : string) (p : project) :
  12 <= String.length (db_password params) ->
  resolve_org cfg w = inr orgId ->
  request (post_project w (body_for params orgId)) = Resolved p ->
  Forall Poller.clock_ok (get_project w (id p)) ->
  forallb (fun r => negb (Poller.healthy r)) (get_project w (id p))
  = true ->
  24 <= List.length (get_project w (id p)) ->
  createProject cfg w params = Some (Throws (not_ready (id p))).
Proof.
  intros Hpw Horg Hp Hok Hun Hlen. rewrite createProject_eq.
  replace (Nat.ltb (String.length (db_password params)) 12) with false
    by (symmetry; apply Nat.ltb_ge; exact Hpw).
  rewrite Horg, Hp. unfold Poller.waitForProjectReady.
  destruct (PollerFacts.polling_times_out (id p)
              (Poller.limit_of None) (clock_at_wait w)
              (get_project w (id p)) (clock_at_wait w) 0 Hok Hun)
    as (n & t & E & _).
  - cbn [Poller.limit_of]. unfold Poller.pollInterval. lia.
  - rewrite E. reflexivity.
Qed.

(** X16: [executeSQL] returns, with the count of rows or 0, only when the
    vendor answered ok; to an answer that is not ok and parses it throws
    an error whose message is the vendor's, or 'Failed to execute SQL'
    when the vendor gave none, and never the empty string. *)
Theorem executeSQL_outcomes (f : Retry.fetched sql_body) :
  (forall r, executeSQL f = Returns r ->
     exists resp body,
       f = FetchResponds resp /\ Retry.ok resp = true /\
       Retry.resp_json resp = Resolved body /\
       r = respond (Success
             [ ("rows_affected",
                JNum (match body_rows_affected body with
                      | Some n => n | None => 0%Z end)) ])) /\
  (forall resp body,
     f = FetchResponds resp -> Retry.ok resp = false ->
     Retry.resp_json resp = Resolved body ->
     exists m,
       executeSQL f = Throws (JsError m) /\ m <> "" /\
       (body_message body = Some m \/
        (m = "Failed to execute SQL" /\
         (body_message body = None \/ body_message body = Some "")))).
Proof.
  split.
  - intros r. unfold executeSQL.
    destruct f as [e|resp]; [discriminate|].
    destruct (Retry.resp_json resp) as [body|e] eqn:Ej; [|discriminate].
    destruct (Retry.ok resp) eqn:Hok; [|discriminate].
    intros H. injection H as <-. exists resp, body. auto.
  - intros resp body -> Hok Hj. unfold executeSQL. rewrite Hj, Hok.
    destruct (body_message body) as [[|c m]|].
    + eexists. split; [reflexivity|]. split; [discriminate|]. auto.
    + eexists. split; [reflexivity|]. split; [discriminate|]. auto.
    + eexists. split; [reflexivity|]. split; [discriminate|]. auto.
Qed.

(** A project that stays in COMING_UP for the two minutes allowed. *)
Lemma createProject_not_ready_witness :
  createProject {| accessToken := "t"; organizationId := None |}
    (demo_world
       (List.repeat (Poller.prompt (Poller.Status "COMING_UP")) 24))
    demo_params
  = Some (Throws
            (JsError "Project abcd did not become ready within 120s")).
Proof.
  apply (createProject_not_ready
           {| accessToken := "t"; organizationId := None |}
           (demo_world
              (List.repeat (Poller.prompt (Poller.Status "COMING_UP")) 24))
           demo_params "org1"
           {| id := "abcd"; project_name := "shop";
              project_status := "COMING_UP" |}).
  - cbn. lia.
  - reflexivity.
  - reflexivity.
  - cbn [demo_world get_project id]. apply Forall_forall.
    intros r Hr. apply repeat_spec in Hr. subst.
    apply PollerFacts.prompt_ok.
  - reflexivity.
  - cbn [demo_world get_project id]. rewrite repeat_length. lia.
Defined.

(** The same vendor with a project that turns healthy at the third
    fetch: the call succeeds although the API keys are refused. *)
Example createProject_without_keys :
  createProject {| accessToken := "t"; organizationId := Some "org9" |}
    (demo_world
       [ Poller.prompt (Poller.Status "COMING_UP");
         Poller.prompt Poller.NotOk;
         Poller.prompt (Poller.Status "ACTIVE_HEALTHY") ])
    demo_params
  = Some (project_created "abcd" "correct-horse-battery" "" "").
Proof. reflexivity. Qed.

End SupabaseHandlers.

Module NetlifyHandlers.
Import Dispatch Handlers Handlers.Netlify.
Import Retry(Resolved, Rejected, FetchResponds, FetchRejects).

Section Server.
Variables createSite configureEnvVars deploySite getSiteInfo : handler.

Local Abbreviation route :=
  (Netlify.route createSite configureEnvVars deploySite getSiteInfo).
Local Abbreviation call_tool :=
  (Netlify.call_tool createSite configureEnvVars deploySite getSiteInfo).

Lemma netlify_route_registered (name : string) :
  route name = None <-> registered Netlify.tools name = false.
Proof.
  unfold Netlify.route, registered, Netlify.tools.
  cbn [existsb tool_name]. rewrite !(String.eqb_sym _ name).
  DispatchFacts.by_name name; split; intros; congruence.
Qed.

(** X17: the Netlify request handler never rejects: it answers a name
    that is not one of its four tools by the failure envelope 'Unknown
    tool: <name>', a handler that throws an error by the failure envelope
    with the error's message, anything else thrown by 'Unknown error',
    and a handler that returns by what it returned. *)
Theorem netlify_call_tool_envelope (name : string) (args : js_value) :
  (registered Netlify.tools name = false ->
   call_tool name args
   = Responds
       (respond (Failure (Some ("Unknown tool: " ++ name)%string)))) /\
  (forall h m, route name = Some h -> h args = Throws (JsError m) ->
     call_tool name args = Responds (respond (Failure (Some m)))) /\
  (forall h e, route name = Some h -> h args = Throws e ->
     (forall m, e <> JsError m) ->
     call_tool name args
     = Responds (respond (Failure (Some "Unknown error")))) /\
  (forall h r, route name = Some h -> h args = Returns r ->
     call_tool name args = Responds r) /\
  (exists r, call_tool name args = Responds r).
Proof.
  unfold Netlify.call_tool, Netlify.attempt.
  split; [|split; [|split; [|split]]].
  - intros H. apply netlify_route_registered in H. rewrite H. reflexivity.
  - intros h m -> ->. reflexivity.
  - intros h e -> -> Hne. destruct e as [m|m| |]; [|reflexivity..].
    exfalso. exact (Hne m eq_refl).
  - intros h r -> ->. reflexivity.
  - destruct (route name) as [h|]; [|cbn; eauto].
    destruct (h args) as [r|[m|m| |]]; cbn; eauto.
Qed.

End Server.

(** *** [createSite] *)




Lemma split_slash_free (s : string) :
  slash_free s = true -> split_slash s = [s].
Proof.
  unfold slash_free. induction s as [|c s IH]; [reflexivity|].
  cbn [list_ascii_of_string forallb split_slash]. intros H.
  apply andb_true_iff in H as [Hc Hs]. apply negb_true_iff in Hc.
  rewrite Hc, (IH Hs). reflexivity.
Qed.

Lemma split_slash_head (s t : string) :
  slash_free s = true ->
  split_slash (s ++ "/" ++ t) = s :: split_slash t.
Proof.
  unfold slash_free. induction s as [|c s IH]; [reflexivity|].
  cbn [list_ascii_of_string forallb append split_slash]. intros H.
  apply andb_true_iff in H as [Hc Hs]. apply negb_true_iff in Hc.
  rewrite Hc.
  change (s ++ String "/" t)%string with (s ++ "/" ++ t)%string.
  rewrite (IH Hs). reflexivity.
Qed.

(** X19: [createSite] refuses a repository that is not written
    owner/name before it asks the vendor anything: given a non-empty
    [repo] with no slash, or whose text before the first slash or
    between the first and the second is empty, it throws the format
    error whatever the vendor would answer; a [repo] of the form
    owner/name, also with further /segments after it, passes the test. *)
Theorem createSite_repo_format :
  (forall repo, slash_free repo = true -> bad_repo repo = true) /\
  (forall owner name, slash_free owner = true -> slash_free name = true ->
     bad_repo (owner ++ "/" ++ name)
     = (String.eqb owner "" || String.eqb name "") /\
     forall more,
       bad_repo (owner ++ "/" ++ name ++ "/" ++ more)
       = (String.eqb owner "" || String.eqb name "")) /\
  (forall post_site wanted c repo,
     bad_repo (String c repo) = true ->
     createSite post_site
       {| site_name_wanted := wanted; repo := Some (String c repo) |}
     = Throws repo_format).
Proof.
  split; [|split].
  - intros repo H. unfold bad_repo. rewrite (split_slash_free repo H).
    destruct repo; reflexivity.
  - intros owner name Ho Hn. unfold bad_repo. split.
    + rewrite (split_slash_head owner name Ho), (split_slash_free name Hn).
      destruct owner, name; reflexivity.
    + intros more.
      rewrite (split_slash_head owner _ Ho), (split_slash_head name _ Hn).
      destruct owner, name; reflexivity.
  - intros post_site wanted c repo H. unfold createSite.
    cbn [Netlify.repo]. rewrite H. reflexivity.
Qed.

(** *** [configureEnvVars] *)

Lemma tally_fold (api : env_api) (site : string)
  (vars : list (string * string)) :
  forall t,
    let t' := fold_left (set_var api site) vars t in
    setCount t'
    = setCount t + List.length (filter (was_set api site) vars) /\
    List.length (errors t')
    = List.length (errors t)
      + List.length (filter (fun e => negb (was_set api site e)) vars).
Proof.
  induction vars as [|[k v] vars IH]; intros t; cbn [fold_left filter].
  - cbn [List.length]. split; lia.
  - destruct (IH (set_var api site t (k, v))) as [Hs He].
    cbn zeta in Hs, He. cbn zeta. rewrite Hs, He.
    unfold set_var, was_set. cbn [fst snd].
    destruct (set_for_account api k v);
      [| destruct (set_for_site api site k v) |];
      cbn [setCount errors negb List.length];
      rewrite ?length_app; cbn [List.length]; split; lia.
Qed.

(** X20: [configureEnvVars] counts an entry as set when the vendor
    accepts it for the account or, that request answered not ok, for the
    site (a request that throws is not followed by the other); every
    other entry is a failure.  It throws exactly when there are entries
    and none of them was set; otherwise it returns, [vars_set] being the
    number of entries set and the message telling both counts. *)
Theorem configureEnvVars_counts (api : env_api) (site : string)
  (env_vars : list (string * string)) :
  let n := List.length (filter (was_set api site) env_vars) in
  let f := List.length
             (filter (fun e => negb (was_set api site e)) env_vars) in
  n + f = List.length env_vars /\
  (env_vars <> [] /\ n = 0 ->
   exists m, configureEnvVars api site env_vars = Throws (JsError m)) /\
  (env_vars = [] \/ 0 < n ->
   configureEnvVars api site env_vars
   = Returns (respond (Success
       [ ("vars_set", JNum (Z.of_nat n));
         ("message",
          JStr ("Set " ++ decimal n ++ " environment variable(s)"
                ++ match f with
                   | O => ""
                   | S _ => " (" ++ decimal f ++ " failed)"
                   end)%string) ]))).
Proof.
  intros n f.
  destruct (tally_fold api site env_vars {| setCount := 0; errors := [] |})
    as [Hs He].
  cbn zeta in Hs, He. cbn [setCount errors List.length Nat.add] in Hs, He.
  fold n in Hs. fold f in He.
  assert (Hsum : n + f = List.length env_vars).
  { unfold n, f. clear. induction env_vars as [|e l IH]; [reflexivity|].
    cbn [filter]. destruct (was_set api site e); cbn [negb List.length];
      lia. }
  split; [exact Hsum|]. split.
  - intros [Hne Hn]. unfold configureEnvVars. rewrite Hs, Hn.
    destruct (errors _) as [|e es] eqn:E; [|eauto].
    exfalso. cbn [List.length] in He. rewrite Hn in Hsum.
    destruct env_vars; [contradiction | cbn [List.length] in Hsum; lia].
  - intros H. unfold configureEnvVars. rewrite Hs.
    destruct (errors _) as [|e es] eqn:E; cbn [List.length] in He.
    + rewrite <- He. destruct n; reflexivity.
    + destruct n as [|k] eqn:En.
      * exfalso. destruct H as [H|H]; [|lia]. subst env_vars.
        cbn in E. discriminate E.
      * rewrite <- He. reflexivity.
Qed.

Lemma createSite_repo_format_witness :
  createSite (fun _ _ => FetchRejects (Retry.RetryableError "down" None))
    {| site_name_wanted := "My Shop"; repo := Some "octocat" |}
  = Throws repo_format /\
  bad_repo "octocat/shop" = false /\ bad_repo "octocat/" = true.
Proof.
  destruct createSite_repo_format as (Hfree & Hshape & Hthrow).
  split; [|split].
  - apply Hthrow. apply (Hfree "octocat"). reflexivity.
  - exact (proj1 (Hshape "octocat" "shop" eq_refl eq_refl)).
  - exact (proj1 (Hshape "octocat" "" eq_refl eq_refl)).
Defined.

(** Two variables, the first accepted for the site only, the second
    refused twice. *)
Lemma configureEnvVars_counts_witness :
  configureEnvVars
    {| set_for_account := fun _ _ => AnswerNotOk;
       set_for_site :=
         fun _ k _ => if String.eqb k "API_URL" then AnswerOk
                      else AnswerNotOk |}
    "site1" [("API_URL", "https://x"); ("TOKEN", "s3")]
  = Returns (respond (Success
      [ ("vars_set", JNum 1);
        ("message",
         JStr "Set 1 environment variable(s) (1 failed)") ])).
Proof.
  destruct (configureEnvVars_counts
              {| set_for_account := fun _ _ => AnswerNotOk;
                 set_for_site :=
                   fun _ k _ => if String.eqb k "API_URL" then AnswerOk
                                else AnswerNotOk |}
              "site1" [("API_URL", "https://x"); ("TOKEN", "s3")])
    as (_ & _ & H).
  apply H. right. cbn. lia.
Defined.

End NetlifyHandlers.
